(** * scenario_runner: expression engine and intersection controller

    A shallow embedding of
    - scenario_expression/expression.h (Context, Expression, Literal,
      All, Any, Procedure, Predicate),
    - scenario_intersection/intersection.hpp (Transition, Controller,
      Intersection),
    - scenario_conditions/condition_manager.hpp (ConditionManager),
    - scenario_conditions/condition_base.h (ConditionBase),
    followed by the properties the specification states about them and
    by further properties of the code. Part I holds the definitions,
    Part II the properties that the specification states, Part III the
    further ones. *)

From stdpp Require Import base option list gmap strings pretty.
From Stdlib Require Import ZArith Lia.

Set Warnings "-register-all,-clear-no-such-hyp".

Local Open Scope string_scope.
Local Open Scope list_scope.
Local Open Scope Z_scope.

(** * Part I: the definitions *)

(** ** Exceptions and effects

    A C++ call either returns a value or leaves by an exception
    (SCENARIO_ERROR_THROW, or an exception of a library); in both cases
    the effects performed so far stay. A computation over a mutable
    world [W] is therefore a function from the world to an outcome and
    the world left behind. *)

Inductive Result (A : Type) : Type :=
| Return (a : A)
| Throw (what : string).
Arguments Return {A} a.
Arguments Throw {A} what.

Definition M (W A : Type) : Type := W -> Result A * W.

Definition ret {W A} (a : A) : M W A := fun w => (Return a, w).

Definition throw {W A} (what : string) : M W A := fun w => (Throw what, w).

Definition bind {W A B} (m : M W A) (k : A -> M W B) : M W B :=
  fun w =>
    match m w with
    | (Return a, w') => k a w'
    | (Throw what, w') => (Throw what, w')
    end.

(** [try_catch m h]: a C++ try block around [m] with a [catch (...)]
    handler [h]. *)
Definition try_catch {W A} (m : M W A) (h : string -> M W A) : M W A :=
  fun w =>
    match m w with
    | (Return a, w') => (Return a, w')
    | (Throw what, w') => h what w'
    end.

(** A call that touches no state, inside a computation. *)
Definition lift {W A} (r : Result A) : M W A := fun w => (r, w).

Declare Scope cpp_scope.
Delimit Scope cpp_scope with cpp.
Notation "'let*' x ':=' m 'in' k" := (bind m (fun x => k))
  (at level 10, x name, m at level 100, k at level 200) : cpp_scope.
Local Open Scope cpp_scope.

(** Sequencing of calls that touch no state. *)
Definition and_then {A B} (r : Result A) (k : A -> Result B) : Result B :=
  match r with
  | Return a => k a
  | Throw what => Throw what
  end.
Notation "'let+' x ':=' r 'in' k" := (and_then r (fun x => k))
  (at level 10, x name, r at level 100, k at level 200) : cpp_scope.

Section Accumulate.
Context {W A B : Type} (op : A -> B -> M W A).

(** std::accumulate(first, last, init, op): [acc = op(acc, *first)] for
    every element, front to back. *)
Fixpoint accumulate (l : list B) (init : A) : M W A :=
  match l with
  | [] => ret init
  | x :: xs => let* acc := op init x in accumulate xs acc
  end.
End Accumulate.

Section AllOf.
Context {W A : Type} (pred : A -> W -> bool * W).

(** std::all_of(first, last, pred): the predicate is applied front to
    back and the scan stops at the first element it rejects. *)
Fixpoint all_of (l : list A) (w : W) : bool * W :=
  match l with
  | [] => (true, w)
  | x :: xs =>
      let (b, w') := pred x w in
      if b then all_of xs w' else (false, w')
  end.
End AllOf.

Section ForEach.
Context {A S : Type} (f : A -> S -> option S).

(** One call per element, front to back; [None] as soon as a call goes
    wrong. *)
Fixpoint for_each (l : list A) (s : S) : option S :=
  match l with
  | [] => Some s
  | x :: xs =>
      match f x s with
      | Some s' => for_each xs s'
      | None => None
      end
  end.
End ForEach.

(** ** yaml-cpp nodes

    The configuration is read through yaml-cpp. [Undefined] is the node
    that [operator[]] gives for a key that is absent: it converts to
    false. Keys are strings, as everywhere in this code. *)

Inductive YAML : Type :=
| Undefined
| Null
| Scalar (value : string)
| Sequence (items : list YAML)
| Map (entries : list (string * YAML)).

(** YAML::Node::operator bool, that is IsDefined() *)
Definition IsDefined (n : YAML) : bool :=
  match n with Undefined => false | _ => true end.

Definition IsNull (n : YAML) : bool :=
  match n with Null => true | _ => false end.

Definition IsScalar (n : YAML) : bool :=
  match n with Scalar _ => true | _ => false end.

(** IsSequence() asks for Type(), which throws InvalidNode on the
    invalid node of an absent key. (So do IsNull() and IsScalar(); the
    code calls those two on defined nodes only, behind the test of
    [arrows] in the constructor of Transition.) *)
Definition IsSequence (n : YAML) : Result bool :=
  match n with
  | Sequence _ => Return true
  | Undefined => Throw "invalid node"
  | _ => Return false
  end.

Fixpoint find_key (key : string) (entries : list (string * YAML)) : YAML :=
  match entries with
  | [] => Undefined
  | (k, v) :: rest => if decide (k = key) then v else find_key key rest
  end.

(** node[key] on a const node: the value of the first entry with this
    key, the undefined node when there is none, an exception on a scalar
    (BadSubscript) and on an undefined node (InvalidNode). *)
Definition index (n : YAML) (key : string) : Result YAML :=
  match n with
  | Map entries => Return (find_key key entries)
  | Scalar _ => Throw "operator[] call on a scalar"
  | Undefined => Throw "invalid node"
  | _ => Return Undefined
  end.

(** node.as<std::string>() *)
Definition as_string (n : YAML) : Result string :=
  match n with
  | Scalar value => Return value
  | Null => Return "null"
  | _ => Throw "bad conversion"
  end.

(** What a range-for over a node visits: the items of a sequence, one
    key-value pair per entry of a map (as a node such a pair is not
    valid, hence [Undefined]), nothing otherwise. *)
Definition elements (n : YAML) : list YAML :=
  match n with
  | Sequence items => items
  | Map entries => map (fun _ => Undefined) entries
  | _ => []
  end.

(** ** scenario_expression *)

(** pluginlib::ClassLoader<PluginBase>, as far as Procedure::load uses
    it. *)
Record ClassLoader (World PluginBase : Type) : Type := {
  getDeclaredClasses : list string;
  getName : string -> string;
  createSharedInstance : string -> M World (option PluginBase)
}.
Arguments getDeclaredClasses {World PluginBase} _.
Arguments getName {World PluginBase} _ _.
Arguments createSharedInstance {World PluginBase} _ _ _.

Section ScenarioExpression.

(** The collaborators are classes of other packages; a shared pointer
    to one of them is an optional reference. *)
Context {ScenarioAPI EntityManager IntersectionManager : Type}.

(** *** class Context (the boilerplate macro, once per collaborator) *)

Record Context : Type := {
  api_ : option ScenarioAPI;
  entities_ : option EntityManager;
  intersections_ : option IntersectionManager
}.

Definition define_api (api : option ScenarioAPI) (c : Context) : Context :=
  {| api_ := api; entities_ := entities_ c;
     intersections_ := intersections_ c |}.
Definition define_entities (entities : option EntityManager) (c : Context)
  : Context :=
  {| api_ := api_ c; entities_ := entities;
     intersections_ := intersections_ c |}.
Definition define_intersections
    (intersections : option IntersectionManager) (c : Context) : Context :=
  {| api_ := api_ c; entities_ := entities_ c;
     intersections_ := intersections |}.

Definition api_pointer (c : Context) : option ScenarioAPI := api_ c.
Definition entities_pointer (c : Context) : option EntityManager :=
  entities_ c.
Definition intersections_pointer (c : Context)
  : option IntersectionManager := intersections_ c.

Definition api (c : Context) : Result ScenarioAPI :=
  match api_ c with
  | Some x => Return x
  | None => Throw "No api defined, but scenario execution requires this."
  end.
Definition entities (c : Context) : Result EntityManager :=
  match entities_ c with
  | Some x => Return x
  | None =>
      Throw "No entities defined, but scenario execution requires this."
  end.
Definition intersections (c : Context) : Result IntersectionManager :=
  match intersections_ c with
  | Some x => Return x
  | None =>
      Throw
        "No intersections defined, but scenario execution requires this."
  end.

(** *** Expression trees

    [World] is everything a condition module can read and change (its
    own latched state, the intersections, the simulator); [PluginBase]
    is the identity of a loaded module instance, the target of the
    [std::shared_ptr<PluginBase> plugin] of a Procedure node. *)
Context {World PluginBase : Type}.

(** ConditionBase::update, pure virtual in condition_base.h. *)
Context (update :
  PluginBase -> option IntersectionManager -> M World bool).

(** A node is an object of a class derived from Expression, built by
    the protected constructor (its own [data] is nullptr and stays
    so). An Expression handle is its [data] pointer: [None] is nullptr.
    Nodes are immutable once built, so a handle is represented here by
    the node it points to; the heap of nodes and their reference counts
    are modelled further down, with [view] back to this
    representation. Literal<T> is used at bool only (Boolean).

    Modelled from the spec: the constructor [Not]. expression.h names
    <Not> in its grammar comment and defines no class for it; the spec
    gives it exactly one child. *)
Inductive Node : Type :=
| Literal (value : bool)
| All (operands : list (option Node))
| Any (operands : list (option Node))
| Procedure (plugin : PluginBase)
| Not (operand : option Node).

Definition Expression : Type := option Node.

(** Expression::make<Boolean>(value) *)
Definition make_Boolean (value : bool) : Expression :=
  Some (Literal value).

(** operator bool: Literal overrides it; the other classes inherit
    Expression's, which tests the node's own (null) [data]. *)
Definition Node_bool (n : Node) : bool :=
  match n with
  | Literal value => value
  | _ => false
  end.

(** Expression::operator bool *)
Definition Expression_bool (e : Expression) : bool :=
  match e with
  | Some data => Node_bool data
  | None => false
  end.

(** Expression::evaluate, over the virtual evaluate of the node. *)
Definition Expression_evaluate
    (virtual_evaluate : Node -> M World Expression) (e : Expression)
  : M World Expression :=
  match e with
  | Some data => virtual_evaluate data
  | None => ret e
  end.

(** The overrides of evaluate. Literal::evaluate returns [*this]
    converted to Expression, that is a copy of the base part of the
    node, whose [data] is nullptr. The Not case is modelled from the
    spec: it evaluates its single child and returns the logical negation
    as a boolean literal. *)
Fixpoint Node_evaluate (context : Context) (n : Node)
  : M World Expression :=
  match n with
  | Literal _ => ret None
  | All operands =>
      let* b :=
        accumulate
          (fun lhs rhs =>
             let* r := Expression_evaluate (Node_evaluate context) rhs in
             ret (andb lhs (Expression_bool r)))
          operands true in
      ret (make_Boolean b)
  | Any operands =>
      let* b :=
        accumulate
          (fun lhs rhs =>
             let* r := Expression_evaluate (Node_evaluate context) rhs in
             ret (orb lhs (Expression_bool r)))
          operands false in
      ret (make_Boolean b)
  | Procedure plugin =>
      let* b := update plugin (intersections_pointer context) in
      ret (make_Boolean b)
  | Not operand =>
      let* r := Expression_evaluate (Node_evaluate context) operand in
      ret (make_Boolean (negb (Expression_bool r)))
  end.

Definition evaluate (context : Context) (e : Expression)
  : M World Expression :=
  Expression_evaluate (Node_evaluate context) e.

(** *** Procedure::load and the constructor of Predicate

    [loader] is the loader() of Predicate; read_essential of
    scenario_utility and ConditionBase::configure are not part of this
    package. *)
Context (loader : ClassLoader World PluginBase).
Context (read_essential : YAML -> string -> Result string).
Context (configure :
  PluginBase -> YAML -> option ScenarioAPI -> M World bool).

(** The loop of Procedure::load over the declared classes. *)
Fixpoint load_from (declarations : list string) (name : string)
  : M World (option PluginBase) :=
  match declarations with
  | [] => throw ("Failed to load Procedure " +:+ name)
  | declaration :: rest =>
      if decide (getName loader declaration = name)
      then createSharedInstance loader declaration
      else load_from rest name
  end.

Definition load (name : string) : M World (option PluginBase) :=
  load_from (getDeclaredClasses loader) name.

(** Predicate::Predicate(Context &, const YAML::Node &), a function try
    block: whatever is thrown inside is thrown again by
    SCENARIO_ERROR_RETHROW as a syntax error (the text of the node that
    ends its message is left out). *)
Definition Predicate_ctor (context : Context) (node : YAML)
  : M World Node :=
  try_catch
    (let* type := lift (read_essential node "Type") in
     let* plugin := load (type +:+ "Condition") in
     match plugin with
     | Some p =>
         let* _ := configure p node (api_pointer context) in
         ret (Procedure p)
     | None =>
         let* type := lift (read_essential node "Type") in
         throw ("Failed to load procedure of type " +:+ type)
     end)
    (fun what => throw "Syntax error: malformed predicate.").

(** Expression::make<Predicate>(context, node) *)
Definition make_Predicate (context : Context) (node : YAML)
  : M World Expression :=
  let* data := Predicate_ctor context node in
  ret (Some data).

(** *** The constructors of All and Any

    [read] is declared in expression.h and defined elsewhere: it builds
    the Expression of a YAML node. *)
Context (read : Context -> YAML -> M World Expression).

(** NAME(Context & context, const YAML::Node & node): the operands
    vector, one [read] per item of a sequence, pushed at the back. *)
Definition read_operands (context : Context) (node : YAML)
  : M World (list Expression) :=
  let* sequence := lift (IsSequence node) in
  if sequence
  then
    accumulate
      (fun operands each =>
         let* e := read context each in
         ret (operands ++ [e]))
      (elements node) []
  else ret [].

(** Expression::make<All>(context, node), Expression::make<Any>(context,
    node) *)
Definition make_All (context : Context) (node : YAML) : M World Expression :=
  let* operands := read_operands context node in
  ret (Some (All operands)).

Definition make_Any (context : Context) (node : YAML) : M World Expression :=
  let* operands := read_operands context node in
  ret (Some (Any operands)).

(** *** What the specification says of All and Any

    Every operand is evaluated once, front to back, whatever the values
    found so far; the truth values are collected in order. *)
Fixpoint evaluate_each (context : Context) (operands : list Expression)
  : M World (list bool) :=
  match operands with
  | [] => ret []
  | x :: xs =>
      let* r := evaluate context x in
      let* bs := evaluate_each context xs in
      ret (Expression_bool r :: bs)
  end.

(** Logical AND seeded at true, logical OR seeded at false. *)
Definition logical_and (bs : list bool) : bool := foldr andb true bs.
Definition logical_or (bs : list bool) : bool := foldr orb false bs.

End ScenarioExpression.

(** ** scenario_conditions: the verdict of a tick *)

(** Modelled from the spec: the values of simulation_is and the body of
    ConditionManager::update. condition_manager.hpp declares update with
    the result type simulation_is and defines neither. The spec (4.4)
    has the driver evaluate the success tree and the failure tree, each
    to a boolean, and reduce them: FAILED if the failure result is true,
    else SUCCEEDED if the success result is true, else RUNNING. *)
Inductive simulation_is : Type := RUNNING | SUCCEEDED | FAILED.

Definition reduce_verdict (success failure : bool) : simulation_is :=
  if failure then FAILED
  else if success then SUCCEEDED
  else RUNNING.

Definition ConditionManager_update
    {ScenarioAPI EntityManager IntersectionManager World PluginBase : Type}
    (update : PluginBase -> option IntersectionManager -> M World bool)
    (context : @Context ScenarioAPI EntityManager IntersectionManager)
    (success failure : Expression)
  : M World simulation_is :=
  let* s := evaluate update context success in
  let* f := evaluate update context failure in
  ret (reduce_verdict (Expression_bool s) (Expression_bool f)).

(** ** scenario_intersection *)

(** The signal commands of ScenarioAPI that a Transition uses. Each
    takes the simulator to its answer and the simulator after the call;
    the last argument is the flag the callers always pass as false. *)
Record ScenarioAPI (Simulator : Type) : Type := {
  resetTrafficLightColor : Z -> bool -> Simulator -> bool * Simulator;
  setTrafficLightColor : Z -> string -> bool -> Simulator -> bool * Simulator;
  resetTrafficLightArrow : Z -> bool -> Simulator -> bool * Simulator;
  setTrafficLightArrow : Z -> string -> bool -> Simulator -> bool * Simulator
}.
Arguments resetTrafficLightColor {Simulator} _ _ _ _.
Arguments setTrafficLightColor {Simulator} _ _ _ _ _.
Arguments resetTrafficLightArrow {Simulator} _ _ _ _.
Arguments setTrafficLightArrow {Simulator} _ _ _ _ _.

(** rclcpp log records (RCLCPP_WARN_STREAM, RCLCPP_ERROR_STREAM). *)
Inductive Severity : Type := WARN | ERROR.

Definition Log : Type := list (Severity * string).

Definition RCLCPP_LOG (severity : Severity) (message : string) : M Log unit :=
  fun log => (Return tt, log ++ [(severity, message)]).

(** Color and Arrow are the enumerations of color.hpp and arrow.hpp.
    What this code uses of either: the enumerator Blank, equality,
    convert<T> of utility.hpp, which reads one from a string, and
    boost::lexical_cast<std::string>, which prints one. *)
Class Enumeration (T : Type) : Type := {
  Blank : T;
  convert : string -> Result T;
  lexical_cast : T -> string;
  Enumeration_eq_dec :: EqDecision T
}.

Section ScenarioIntersection.
Context {Color Arrow : Type} `{!Enumeration Color, !Enumeration Arrow}.

(** yaml-cpp's conversion of a scalar to int. *)
Context (decode_int : string -> option Z).

(** node.as<int>() *)
Definition as_int (n : YAML) : Result Z :=
  match n with
  | Scalar value =>
      match decode_int value with
      | Some z => Return z
      | None => Throw "bad conversion"
      end
  | _ => Throw "bad conversion"
  end.

(** *** class Intersection::Controller::Transition *)

Record Transition : Type := {
  target_ : Z;
  color_ : Color;
  arrows_ : list Arrow
}.

(** Transition() *)
Definition Transition_default : Transition :=
  {| target_ := -1; color_ := Blank; arrows_ := [] |}.

(** The loop of the constructor over a sequence of arrows. *)
Fixpoint emplace_arrows (each : list YAML) (arrows_ : list Arrow)
  : Result (list Arrow) :=
  match each with
  | [] => Return arrows_
  | e :: rest =>
      let+ s := as_string e in
      let+ value := convert (T := Arrow) s in
      if decide (value <> Blank)
      then emplace_arrows rest (arrows_ ++ [value])
      else emplace_arrows rest arrows_
  end.

(** Transition(const YAML::Node & target, color, arrows) *)
Definition Transition_ctor (target color arrows : YAML) : Result Transition :=
  let+ target_ := as_int target in
  let+ color_ :=
    if IsDefined color
    then let+ s := as_string color in convert (T := Color) s
    else Return Blank in
  let+ arrows_ :=
    if IsDefined arrows && negb (IsNull arrows)
    then
      if IsScalar arrows
      then
        let+ s := as_string arrows in
        let+ value := convert (T := Arrow) s in
        Return (if decide (value <> Blank) then [value] else [])
      else emplace_arrows (elements arrows) []
    else Return [] in
  Return {| target_ := target_; color_ := color_; arrows_ := arrows_ |}.

Context {Simulator : Type} (simulator : ScenarioAPI Simulator).

Definition changeColor (t : Transition) (s : Simulator) : bool * Simulator :=
  if (target_ t <? 0) || bool_decide (color_ t = Blank)
  then resetTrafficLightColor simulator (target_ t) false s
  else
    setTrafficLightColor simulator
      (target_ t) (lexical_cast (color_ t)) false s.

Definition changeArrow (t : Transition) (s : Simulator) : bool * Simulator :=
  let (_, s1) := resetTrafficLightArrow simulator (target_ t) false s in
  if 0 <=? target_ t
  then
    all_of
      (fun each =>
         setTrafficLightArrow simulator (target_ t) (lexical_cast each) false)
      (arrows_ t) s1
  else (false, s1).

(** Transition::operator(): [changeColor(simulator) and
    changeArrow(simulator)]. *)
Definition Transition_call (t : Transition) (s : Simulator)
  : bool * Simulator :=
  let (b, s1) := changeColor t s in
  if b then changeArrow t s1 else (false, s1).

(** *** class Intersection::Controller *)

Record Controller : Type := { transitions_ : list Transition }.

(** Controller() *)
Definition Controller_default : Controller :=
  {| transitions_ := [Transition_default] |}.

(** The body of the loop over the traffic lights: one Transition more
    at the back of transitions_. *)
Definition emplace_traffic_light
    (transitions_ : list Transition) (each : YAML)
  : M Log (list Transition) :=
  let* arrow := lift (index each "Arrow") in
  if IsDefined arrow
  then
    let* _ :=
      RCLCPP_LOG WARN
        "Tag 'Arrow: <String>' is deprecated. Use 'Arrows: [<String>*]'" in
    let* id := lift (index each "Id") in
    let* color := lift (index each "Color") in
    let* t := lift (Transition_ctor id color arrow) in
    ret (transitions_ ++ [t])
  else
    let* id := lift (index each "Id") in
    let* color := lift (index each "Color") in
    let* arrows := lift (index each "Arrows") in
    let* t := lift (Transition_ctor id color arrows) in
    ret (transitions_ ++ [t]).

(** Controller(const YAML::Node & node, const rclcpp::Logger & logger) *)
Definition Controller_ctor (node : YAML) : M Log Controller :=
  let* traffic_lights := lift (index node "TrafficLight") in
  if IsDefined traffic_lights
  then
    let* transitions_ :=
      accumulate emplace_traffic_light (elements traffic_lights) [] in
    ret {| transitions_ := transitions_ |}
  else
    let* _ :=
      RCLCPP_LOG ERROR
        "Each element of node 'Control' requires hash 'TrafficLight'." in
    ret {| transitions_ := [] |}.

(** Controller::operator() *)
Definition Controller_call (c : Controller) (s : Simulator)
  : bool * Simulator :=
  all_of Transition_call (transitions_ c) s.

(** *** class Intersection

    The simulator_ of an Intersection is shared with its users: its
    state is threaded beside the Intersection. *)
Record Intersection : Type := {
  script_ : YAML;
  ids_ : list N;
  change_to_ : gmap string Controller;
  current_state_ : string
}.

(** Intersection::is *)
Definition Intersection_is (i : Intersection) (state : string) : bool :=
  bool_decide (current_state_ i = state).

(** Modelled from the spec: Intersection::change_to, which
    intersection.hpp declares and does not define. The spec (4.2,
    transitionTo) has it fail with a configuration error for a state
    that is not declared, leaving currentState as it was, and otherwise
    apply the commands of the target state and set currentState to the
    target whether or not the commands succeeded. *)
Definition change_to (the_state : string)
  : M (Intersection * Simulator) bool :=
  fun '(i, s) =>
    match change_to_ i !! the_state with
    | None => (Throw "undeclared intersection state", (i, s))
    | Some controller =>
        let (b, s') := Controller_call controller s in
        (Return b,
         ({| script_ := script_ i; ids_ := ids_ i;
             change_to_ := change_to_ i; current_state_ := the_state |},
          s'))
    end.

End ScenarioIntersection.

(** The log record of the deprecated tag. *)
Definition deprecation_warning : Severity * string :=
  (WARN, "Tag 'Arrow: <String>' is deprecated. Use 'Arrows: [<String>*]'").

(** *** A simulator that records the commands it is given

    Its state is the list of the commands issued so far, oldest first;
    [ack issued c] is its answer to the command [c] after the commands
    [issued]. Every deterministic simulator answers this way. *)

Inductive Command : Type :=
| ResetColor (id : Z)
| SetColor (id : Z) (color : string)
| ResetArrow (id : Z)
| SetArrow (id : Z) (arrow : string).

Definition issue (ack : list Command -> Command -> bool) (c : Command)
    (issued : list Command) : bool * list Command :=
  (ack issued c, issued ++ [c]).

Definition Recorder (ack : list Command -> Command -> bool)
  : ScenarioAPI (list Command) :=
  {| resetTrafficLightColor id _ := issue ack (ResetColor id);
     setTrafficLightColor id color _ := issue ack (SetColor id color);
     resetTrafficLightArrow id _ := issue ack (ResetArrow id);
     setTrafficLightArrow id arrow _ := issue ack (SetArrow id arrow) |}.

Section SpecifiedCommands.
Context {Color Arrow : Type} `{!Enumeration Color, !Enumeration Arrow}.

(** The commands the specification lists for one triple: the color
    command (a reset when the color is blank or the target negative),
    the arrow reset, one arrow-set command per arrow in declared
    order. *)
Definition color_command (t : @Transition Color Arrow) : Command :=
  if (target_ t <? 0) || bool_decide (color_ t = Blank)
  then ResetColor (target_ t)
  else SetColor (target_ t) (lexical_cast (color_ t)).

Definition arrow_command (t : @Transition Color Arrow) (each : Arrow)
  : Command :=
  SetArrow (target_ t) (lexical_cast each).

Definition commands_of (t : @Transition Color Arrow) : list Command :=
  color_command t :: ResetArrow (target_ t)
  :: map (arrow_command t) (arrows_ t).

Definition commands_of_all (ts : list (@Transition Color Arrow))
  : list Command :=
  concat (map commands_of ts).

End SpecifiedCommands.

(** ** Expression handles and their reference counts

    The heap holds the nodes (objects of the classes derived from
    Expression, built by [new] in Expression::make) that are within
    their lifetime. A handle (an object of class Expression itself: a
    local, a temporary, an element of an operands vector) is given by
    its [data] pointer; its own [count] is 0 and is never read. *)

Abbreviation address := positive.

Abbreviation handle := (option positive).

Section ReferenceCounting.
Context {PluginBase : Type}.

(** The members a derived class adds to Expression. *)
Inductive Members : Type :=
| LiteralM (value : bool)
| AllM (operands : list handle)
| AnyM (operands : list handle)
| ProcedureM (plugin : PluginBase).

(** A node: the [count] of its Expression base (std::size_t, here of
    64 bits) and its members. Its own [data] is nullptr from the
    protected constructor on, and is left out. *)
Record Object : Type := {
  count : Z;
  members : Members
}.

Definition size_max : Z := 2 ^ 64.

(** ++(data->count) and --(data->count) on std::size_t *)
Definition increment (o : Object) : Object :=
  {| count := (count o + 1) mod size_max; members := members o |}.
Definition decrement (o : Object) : Object :=
  {| count := (count o - 1) mod size_max; members := members o |}.

Definition operands_of (m : Members) : list handle :=
  match m with
  | AllM operands | AnyM operands => operands
  | _ => []
  end.

(** Expression(): [data] is nullptr. *)
Definition Expression_default : handle := None.

(** Expression(const Expression & expression): the new handle gets the
    same [data], and the node one reference more. [None] stands for
    the use of a pointer to a node that is gone. *)
Definition Expression_copy (expression : handle) (h : gmap address Object)
  : option (handle * gmap address Object) :=
  match expression with
  | None => Some (None, h)
  | Some a =>
      match h !! a with
      | Some o => Some (Some a, <[a := increment o]> h)
      | None => None
      end
  end.

(** ~Expression() of a handle with this [data]. When the count falls
    to 0 the node is deleted: its lifetime ends, and its destructor
    destroys the handles of its operands vector, front to back. The
    recursion is bounded by [fuel]; [None] also stands for its
    exhaustion. *)
Fixpoint Expression_dtor (fuel : nat) (data : handle)
    (h : gmap address Object) : option (gmap address Object) :=
  match data with
  | None => Some h
  | Some a =>
      match h !! a with
      | None => None
      | Some o =>
          if count (decrement o) =? 0
          then
            match fuel with
            | O => None
            | S fuel' =>
                for_each (Expression_dtor fuel')
                  (operands_of (members o)) (delete a h)
            end
          else Some (<[a := decrement o]> h)
      end
  end.

(** swap *)
Definition Expression_swap (this e : handle) : handle * handle := (e, this).

(** operator=: [Expression e {rhs}; swap(e); return *this;], and [e]
    is destroyed on the way out. The result is the new [data] of the
    handle assigned to. *)
Definition Expression_assign (fuel : nat) (this rhs : handle)
    (h : gmap address Object) : option (handle * gmap address Object) :=
  match Expression_copy rhs h with
  | Some (e, h1) =>
      let (this', e') := Expression_swap this e in
      match Expression_dtor fuel e' h1 with
      | Some h2 => Some (this', h2)
      | None => None
      end
  | None => None
  end.

(** remake *)
Definition Expression_remake (fuel : nat) (this : handle) (e : address)
    (h : gmap address Object) : option (handle * gmap address Object) :=
  match Expression_dtor fuel this h with
  | Some h' => Some (Some e, h')
  | None => None
  end.

(** [new T {...}]: a node with count 1 (the protected constructor) at
    an address not in use. *)
Definition new_node (m : Members) (h : gmap address Object)
  : address * gmap address Object :=
  let a := fresh (dom h) in
  (a, <[a := {| count := 1; members := m |}]> h).

(** Expression::make<T>: [Expression e {}; e.remake(new T {...});
    return e;]. The return is taken with copy elision; without it the
    result is copied and [e] destroyed, which leaves the heap as it is
    (Expression_copy_dtor below). *)
Definition Expression_make (m : Members) (h : gmap address Object)
  : option (handle * gmap address Object) :=
  let (e, h1) := new_node m h in
  Expression_remake 0 Expression_default e h1.

(** The copy of a vector of handles, element by element. *)
Fixpoint copy_operands (operands : list handle) (h : gmap address Object)
  : option (list handle * gmap address Object) :=
  match operands with
  | [] => Some ([], h)
  | x :: xs =>
      match Expression_copy x h with
      | Some (x', h1) =>
          match copy_operands xs h1 with
          | Some (xs', h2) => Some (x' :: xs', h2)
          | None => None
          end
      | None => None
      end
  end.

(** The copy constructors of the derived classes: Literal copies the
    value, All and Any copy the operands vector, Procedure copies the
    shared pointer to the plugin. *)
Definition Members_copy (rhs : Members) (h : gmap address Object)
  : option (Members * gmap address Object) :=
  match rhs with
  | LiteralM value => Some (LiteralM value, h)
  | AllM operands =>
      match copy_operands operands h with
      | Some (operands', h') => Some (AllM operands', h')
      | None => None
      end
  | AnyM operands =>
      match copy_operands operands h with
      | Some (operands', h') => Some (AnyM operands', h')
      | None => None
      end
  | ProcedureM plugin => Some (ProcedureM plugin, h)
  end.

(** Expression::make<T>(const T & rhs) for the node at [rhs]. *)
Definition Expression_make_copy (rhs : address) (h : gmap address Object)
  : option (handle * gmap address Object) :=
  match h !! rhs with
  | Some o =>
      match Members_copy (members o) h with
      | Some (m, h1) => Expression_make m h1
      | None => None
      end
  | None => None
  end.

(** The expression tree a handle stands for (the representation that
    [evaluate] works on); [None] for a pointer to a node that is gone
    and when [fuel] is less than the height of the tree. *)
Fixpoint view (fuel : nat) (h : gmap address Object) (data : handle)
  : option (@Expression PluginBase) :=
  match fuel with
  | O => None
  | S fuel' =>
      match data with
      | None => Some None
      | Some a =>
          match h !! a with
          | None => None
          | Some o =>
              match members o with
              | LiteralM value => Some (Some (Literal value))
              | AllM operands =>
                  operands' ← mapM (view fuel' h) operands;
                  Some (Some (All operands'))
              | AnyM operands =>
                  operands' ← mapM (view fuel' h) operands;
                  Some (Some (Any operands'))
              | ProcedureM plugin => Some (Some (Procedure plugin))
              end
          end
      end
  end.

(** *** The invariant

    [live] lists the handles that exist outside the heap; the handles
    inside it are the elements of the operands vectors. *)
Definition heap_handles (h : gmap address Object) : list handle :=
  map_to_list h ≫= (fun ao => operands_of (members ao.2)).

Definition references (a : address) (handles : list handle) : nat :=
  length (filter (fun d => d = Some a) handles).

(** Every handle points to a node of the heap, and the count of every
    node is the number of handles that point to it, which is not 0. *)
Definition counted (h : gmap address Object) (live : list handle) : Prop :=
  (forall a, Some a ∈ live ++ heap_handles h -> is_Some (h !! a))
  /\ (forall a o,
        h !! a = Some o ->
        count o = Z.of_nat (references a (live ++ heap_handles h))
        /\ 0 < count o < size_max).


(** The states that the operations on handles lead to from the empty
    heap. A node is made with the handles of its operands vector taken
    over from temporaries (they are pushed by copy and the temporaries
    destroyed, which comes to the same); a copy or an assignment needs
    the count below the maximum of std::size_t; a destruction is given
    fuel for the size of the heap. *)
Inductive reachable : gmap address Object -> list handle -> Prop :=
| reach_empty : reachable ∅ []
| reach_permute h live live' :
    reachable h live -> live ≡ₚ live' -> reachable h live'
| reach_default h live :
    reachable h live -> reachable h (Expression_default :: live)
| reach_make h live m a h' :
    reachable h (operands_of m ++ live) ->
    Expression_make m h = Some (Some a, h') ->
    reachable h' (Some a :: live)
| reach_copy h live d d' h' :
    reachable h live ->
    d ∈ live ->
    (forall a o, d = Some a -> h !! a = Some o -> count o + 1 < size_max) ->
    Expression_copy d h = Some (d', h') ->
    reachable h' (d' :: live)
| reach_assign h live this rhs this' fuel h' :
    reachable h (this :: live) ->
    rhs ∈ this :: live ->
    (forall a o, rhs = Some a -> h !! a = Some o -> count o + 1 < size_max) ->
    (size h <= fuel)%nat ->
    Expression_assign fuel this rhs h = Some (this', h') ->
    reachable h' (this' :: live)
| reach_dtor h live d fuel h' :
    reachable h (d :: live) ->
    (size h <= fuel)%nat ->
    Expression_dtor fuel d h = Some h' ->
    reachable h' live.

End ReferenceCounting.

(** ** Evaluation on the heap

    Expression::evaluate as it runs on handles and nodes: the result
    is a temporary handle, which points to a new Boolean node or to
    nothing; All and Any convert the result of each operand to bool
    and destroy it before they go on. The outcome is [None] for the use
    of a pointer to a node that is gone and for want of [fuel]. *)

Section HeapEvaluation.
Context {ScenarioAPI EntityManager IntersectionManager : Type}.
Context {World PluginBase : Type}.
Context (update : PluginBase -> option IntersectionManager -> M World bool).

(** Expression::operator bool of a handle: false for a null [data],
    else the conversion of the node, which only Literal overrides. *)
Definition heap_bool (h : gmap address (@Object PluginBase)) (data : handle)
  : option bool :=
  match data with
  | None => Some false
  | Some a =>
      match h !! a with
      | Some o =>
          Some match members o with
               | LiteralM value => value
               | _ => false
               end
      | None => None
      end
  end.

Section HeapAccumulate.
Context (evaluate_operand :
  handle -> gmap address (@Object PluginBase) -> World ->
  option (Result handle * gmap address (@Object PluginBase) * World)).
Context (combine : bool -> bool -> bool).

(** std::accumulate with the lambda of All and Any:
    [combine(lhs, rhs.evaluate(context))], where the temporary result
    is converted to bool and destroyed at the end of the expression. *)
Fixpoint heap_accumulate (operands : list handle) (lhs : bool)
    (h : gmap address (@Object PluginBase)) (w : World)
  : option (Result bool * gmap address (@Object PluginBase) * World) :=
  match operands with
  | [] => Some (Return lhs, h, w)
  | rhs :: rest =>
      match evaluate_operand rhs h w with
      | Some (Return r, h1, w1) =>
          match heap_bool h1 r with
          | Some b =>
              match Expression_dtor (size h1) r h1 with
              | Some h2 => heap_accumulate rest (combine lhs b) h2 w1
              | None => None
              end
          | None => None
          end
      | Some (Throw what, h1, w1) => Some (Throw what, h1, w1)
      | None => None
      end
  end.
End HeapAccumulate.

(** Expression::make<Boolean>(value) as the value returned. *)
Definition return_Boolean (value : bool)
    (h : gmap address (@Object PluginBase)) (w : World)
  : option (Result handle * gmap address (@Object PluginBase) * World) :=
  match Expression_make (LiteralM value) h with
  | Some (r, h') => Some (Return r, h', w)
  | None => None
  end.

Fixpoint heap_evaluate (fuel : nat)
    (context : @Context ScenarioAPI EntityManager IntersectionManager)
    (data : handle) (h : gmap address (@Object PluginBase)) (w : World)
  : option (Result handle * gmap address (@Object PluginBase) * World) :=
  match data with
  | None => Some (Return Expression_default, h, w)
  | Some a =>
      match h !! a with
      | None => None
      | Some o =>
          match members o with
          | LiteralM _ => Some (Return Expression_default, h, w)
          | AllM operands =>
              match fuel with
              | O => None
              | S fuel' =>
                  match heap_accumulate (heap_evaluate fuel' context) andb
                          operands true h w with
                  | Some (Return b, h1, w1) => return_Boolean b h1 w1
                  | Some (Throw what, h1, w1) => Some (Throw what, h1, w1)
                  | None => None
                  end
              end
          | AnyM operands =>
              match fuel with
              | O => None
              | S fuel' =>
                  match heap_accumulate (heap_evaluate fuel' context) orb
                          operands false h w with
                  | Some (Return b, h1, w1) => return_Boolean b h1 w1
                  | Some (Throw what, h1, w1) => Some (Throw what, h1, w1)
                  | None => None
                  end
              end
          | ProcedureM plugin =>
              match update plugin (intersections_pointer context) w with
              | (Return b, w1) => return_Boolean b h w1
              | (Throw what, w1) => Some (Throw what, h, w1)
              end
          end
      end
  end.

(** The temporary that holds a result of [evaluate]: nothing for the
    empty Expression, a new Boolean node with one reference for a
    Boolean. *)
Definition temporary (h : gmap address (@Object PluginBase))
    (r : @Expression PluginBase)
  : handle * gmap address (@Object PluginBase) :=
  match r with
  | Some (Literal value) =>
      (Some (fresh (dom h)),
       <[fresh (dom h) := {| count := 1; members := LiteralM value |}]> h)
  | _ => (None, h)
  end.

(** The outcome on the heap that corresponds to an outcome on trees:
    the world is the same; after an exception the heap is as before,
    after a return it holds the temporary of the result besides. *)
Definition on_heap (h : gmap address (@Object PluginBase))
    (outcome : Result (@Expression PluginBase) * World)
  : Result handle * gmap address (@Object PluginBase) * World :=
  match outcome with
  | (Return r, w) => (Return (temporary h r).1, (temporary h r).2, w)
  | (Throw what, w) => (Throw what, h, w)
  end.

End HeapEvaluation.

(** ** Heaps without cycles

    A heap is layered when its nodes can be ranked so that every
    operand of a node has a lower rank than the node: no chain of
    operands leads from a node back to it. [keeps_members h h'] says
    that the nodes of [h'] are nodes of [h] with the members they had
    there. Both are notions of the proofs, not of the code. *)

Section Layers.
Context {PluginBase : Type}.

Definition layered (h : gmap address (@Object PluginBase)) : Prop :=
  exists rank : address -> nat,
    forall a o b,
      h !! a = Some o ->
      Some b ∈ operands_of (members o) ->
      (rank b < rank a)%nat.

Definition keeps_members (h h' : gmap address (@Object PluginBase)) : Prop :=
  forall a o',
    h' !! a = Some o' ->
    exists o, h !! a = Some o /\ members o' = members o.

(** The rank of a handle, 0 for the null handle. *)
Definition rank_of (rank : address -> nat) (d : handle) : nat :=
  match d with
  | Some b => rank b
  | None => 0
  end.

End Layers.

(** ** scenario_conditions: class ConditionBase

    The data members of condition_base.h with their default member
    initializers; [API] is the class ScenarioAPI. update and configure
    are pure virtual and stay parameters. *)

Record ConditionBase (API : Type) : Type := {
  api_ptr_ : option API;
  node_ : YAML;
  configured_ : bool;
  keep_ : bool;
  result_ : bool;
  type_ : string;
  name_ : string
}.
Arguments api_ptr_ {API} _.
Arguments node_ {API} _.
Arguments configured_ {API} _.
Arguments keep_ {API} _.
Arguments result_ {API} _.
Arguments type_ {API} _.
Arguments name_ {API} _.

Section ScenarioConditions.
Context {API : Type}.

(** ConditionBase() = default: a default YAML::Node is null. *)
Definition ConditionBase_default : ConditionBase API :=
  {| api_ptr_ := None; node_ := Null; configured_ := false; keep_ := false;
     result_ := false; type_ := ""; name_ := "" |}.

(** ConditionBase(const std::string & type, std::size_t occurrence = 0):
    the initializer of name_ is commented out, so [occurrence] is not
    used. *)
Definition ConditionBase_ctor (type : string) (occurrence : Z)
  : ConditionBase API :=
  {| api_ptr_ := None; node_ := Null; configured_ := false; keep_ := false;
     result_ := false; type_ := type; name_ := "" |}.

Definition ConditionBase_getName (c : ConditionBase API) : string := name_ c.

Definition ConditionBase_getResult (c : ConditionBase API) : bool := result_ c.

Definition ConditionBase_getType (c : ConditionBase API) : string := type_ c.

(** rename: [return name_ = new_name;], the name returned and the
    object after the call. *)
Definition ConditionBase_rename (new_name : string) (c : ConditionBase API)
  : string * ConditionBase API :=
  (new_name,
   {| api_ptr_ := api_ptr_ c; node_ := node_ c; configured_ := configured_ c;
      keep_ := keep_ c; result_ := result_ c; type_ := type_ c;
      name_ := new_name |}).

End ScenarioConditions.

(** ** boost::property_tree::ptree

    A tree of strings: the data of the node and its children in the
    order of insertion, each under a key; keys may repeat. *)

Inductive ptree : Type :=
| PTree (data : string) (children : list (string * ptree)).

(** ptree() *)
Definition ptree_default : ptree := PTree "" [].

Definition ptree_data (t : ptree) : string :=
  match t with PTree data _ => data end.

(** What a range-for over a ptree visits. *)
Definition ptree_children (t : ptree) : list (string * ptree) :=
  match t with PTree _ children => children end.

Definition push_back (entry : string * ptree) (t : ptree) : ptree :=
  match t with PTree data children => PTree data (children ++ [entry]) end.

Fixpoint find_child (key : string) (children : list (string * ptree))
  : option ptree :=
  match children with
  | [] => None
  | (k, child) :: rest =>
      if decide (k = key) then Some child else find_child key rest
  end.

(** get_child(path) for the two paths this code uses: the empty path
    is the tree itself, and a path without separator is a child with
    that key (ptree_bad_path when there is none; which one when there
    are several is not specified, and the code does not look at it). *)
Definition get_child (path : string) (t : ptree) : Result ptree :=
  if decide (path = "") then Return t
  else
    match find_child path (ptree_children t) with
    | Some child => Return child
    | None => Throw "No such node"
    end.

(** std::to_string of a std::size_t *)
Definition to_string (n : Z) : string := pretty n.

(** ** scenario_expression: type() and property()

    The plugins are objects that the Procedure nodes point to: a store
    maps the address of a plugin to its ConditionBase part, and the
    [plugin] of a Procedure node is such an address. property() is
    const and changes no Expression, but Procedure::property renames
    the plugin: the store is threaded through. [None] stands for the
    use of a null or dangling pointer, and for want of fuel.

    ConditionBase::property is called by Procedure::property and is not
    part of condition_base.h: it is a parameter here, a function of the
    plugin and of the state of its ConditionBase part. *)

Section Property.
Context {API : Type}.
Context (plugin_property : address -> ConditionBase API -> ptree).

(** The result of Expression::property for a null [data], which is
    also the result for a Literal node (Literal does not override
    property, and the [data] of a node is null). *)
Definition property_of_nothing : ptree :=
  push_back ("", ptree_default) ptree_default.

(** The virtual type() of a node. *)
Definition Members_type (plugins : gmap address (ConditionBase API))
    (m : @Members address) : option string :=
  match m with
  | LiteralM _ => Some "Literal"
  | AllM _ => Some "All"
  | AnyM _ => Some "Any"
  | ProcedureM plugin =>
      c ← plugins !! plugin; Some (ConditionBase_getType c)
  end.

(** [each.data->type()] *)
Definition data_type (h : gmap address (@Object address))
    (plugins : gmap address (ConditionBase API)) (data : handle)
  : option string :=
  a ← data; o ← h !! a; Members_type plugins (members o).

(** Procedure::property *)
Definition Procedure_property (plugin : address) (prefix : string)
    (occurrence : Z) (plugins : gmap address (ConditionBase API))
  : option (ptree * gmap address (ConditionBase API)) :=
  c ← plugins !! plugin;
  if decide (ConditionBase_getName c = "")
  then
    let c' :=
      (ConditionBase_rename
         (prefix +:+ ConditionBase_getType c +:+ "("
          +:+ to_string occurrence +:+ ")") c).2 in
    Some (plugin_property plugin c', <[plugin := c']> plugins)
  else Some (plugin_property plugin c, plugins).

(** What the loop of NAME::property does with the property of one
    operand: it is pushed as it is when it has a child Name, else its
    children are pushed one by one (the catch block). *)
Definition push_property (property result : ptree) : ptree :=
  match get_child "Name" property with
  | Return _ => push_back ("", property) result
  | Throw _ =>
      match get_child "" property with
      | Return children =>
          foldl (fun result each => push_back ("", each.2) result)
            result (ptree_children children)
      | Throw _ => result
      end
  end.

Section NAryProperty.
Context (h : gmap address (@Object address)).
Context (operand_property :
  string -> Z -> handle -> gmap address (ConditionBase API) ->
  option (ptree * gmap address (ConditionBase API))).

(** The loop of NAME::property over the operands; [occurrences] is the
    std::unordered_map, whose operator[] makes an absent entry 0. *)
Fixpoint property_operands (prefix : string) (operands : list handle)
    (occurrences : gmap string Z) (result : ptree)
    (plugins : gmap address (ConditionBase API))
  : option (ptree * gmap address (ConditionBase API)) :=
  match operands with
  | [] => Some (result, plugins)
  | each :: rest =>
      type ← data_type h plugins each;
      let occurrence := default 0 (occurrences !! type) in
      let occurrences' :=
        <[type := (occurrence + 1) mod size_max]> occurrences in
      '(property, plugins') ←
        operand_property prefix occurrence each plugins;
      property_operands prefix rest occurrences'
        (push_property property result) plugins'
  end.

(** NAME::property, for NAME All or Any *)
Definition N_ary_property (NAME : string) (operands : list handle)
    (prefix : string) (occurrence : Z)
    (plugins : gmap address (ConditionBase API))
  : option (ptree * gmap address (ConditionBase API)) :=
  match operands with
  | [] => Some (push_back ("", ptree_default) ptree_default, plugins)
  | _ =>
      property_operands
        (prefix +:+ NAME +:+ "(" +:+ to_string occurrence +:+ ")/")
        operands ∅ ptree_default plugins
  end.

End NAryProperty.

(** Expression::property of a handle with this [data], over the
    virtual property of the node. *)
Fixpoint property (fuel : nat) (h : gmap address (@Object address))
    (prefix : string) (occurrence : Z) (data : handle)
    (plugins : gmap address (ConditionBase API))
  : option (ptree * gmap address (ConditionBase API)) :=
  match data with
  | None => Some (property_of_nothing, plugins)
  | Some a =>
      match h !! a with
      | None => None
      | Some o =>
          match members o with
          | LiteralM _ => Some (property_of_nothing, plugins)
          | AllM operands =>
              match fuel with
              | O => None
              | S fuel' =>
                  N_ary_property h (property fuel' h) "All" operands
                    prefix occurrence plugins
              end
          | AnyM operands =>
              match fuel with
              | O => None
              | S fuel' =>
                  N_ary_property h (property fuel' h) "Any" operands
                    prefix occurrence plugins
              end
          | ProcedureM plugin =>
              Procedure_property plugin prefix occurrence plugins
          end
      end
  end.

(** The std::unordered_map of NAME::property after the operands
    [operands], from [occurrences] (a notion of the proofs). *)
Definition occurrences_after (h : gmap address (@Object address))
    (plugins : gmap address (ConditionBase API)) (operands : list handle)
    (occurrences : gmap string Z) : gmap string Z :=
  foldl
    (fun occurrences each =>
       match data_type h plugins each with
       | Some type =>
           <[type := (default 0 (occurrences !! type) + 1) mod size_max]>
             occurrences
       | None => occurrences
       end)
    occurrences operands.

(** A store that differs from another only by names given to plugins
    that had none (a notion of the proofs). *)
Definition names_only (plugins plugins' : gmap address (ConditionBase API))
  : Prop :=
  forall p,
    match plugins !! p, plugins' !! p with
    | Some c, Some c' =>
        c' = c
        \/ (name_ c = "" /\ name_ c' <> ""
            /\ c' = (ConditionBase_rename (name_ c') c).2)
    | None, None => True
    | _, _ => False
    end.

End Property.

(** ** The order of the calls

    Three notions that are not part of the code, with which the code is
    compared in Part II: the plugins of an expression tree in the order
    of a depth-first walk from the left; the run of their updates, which
    ends at the first that throws; and the items of a sequence read one
    after the other into a list. *)

Section CallOrder.
Context {ScenarioAPI EntityManager IntersectionManager : Type}.
Context {World PluginBase : Type}.
Context (update : PluginBase -> option IntersectionManager -> M World bool).
Context (read :
  @Context ScenarioAPI EntityManager IntersectionManager ->
  YAML -> M World (@Expression PluginBase)).

Fixpoint plugins_of_node (n : @Node PluginBase) : list PluginBase :=
  match n with
  | Literal _ => []
  | All operands | Any operands =>
      concat
        (map
           (fun e =>
              match e with
              | Some data => plugins_of_node data
              | None => []
              end)
           operands)
  | Procedure plugin => [plugin]
  | Not operand =>
      match operand with
      | Some data => plugins_of_node data
      | None => []
      end
  end.

Definition plugins_of (e : @Expression PluginBase) : list PluginBase :=
  match e with
  | Some data => plugins_of_node data
  | None => []
  end.

Fixpoint update_each
    (context : @Context ScenarioAPI EntityManager IntersectionManager)
    (plugins : list PluginBase) : M World unit :=
  match plugins with
  | [] => ret tt
  | plugin :: rest =>
      let* _ := update plugin (intersections_pointer context) in
      update_each context rest
  end.

Fixpoint read_each
    (context : @Context ScenarioAPI EntityManager IntersectionManager)
    (items : list YAML) : M World (list (@Expression PluginBase)) :=
  match items with
  | [] => ret []
  | each :: rest =>
      let* e := read context each in
      let* es := read_each context rest in
      ret (e :: es)
  end.

End CallOrder.

(** Whether a traffic light is written with the deprecated key Arrow
    (the test of Controller's constructor on [each["Arrow"]]). *)
Definition uses_deprecated_Arrow (each : YAML) : bool :=
  match index each "Arrow" with
  | Return arrow => IsDefined arrow
  | Throw _ => false
  end.

(** ** Concrete instances for the examples *)

(** Modules that log their updates: the world is the list of the
    identifiers of the modules updated so far, oldest first. *)
Inductive ExPlugin : Type :=
| Constant (id : nat) (result : bool)
| Broken (id : nat)
| AsksIntersections (id : nat).

Definition ex_update (p : ExPlugin) (intersections : option unit)
  : M (list nat) bool :=
  fun w =>
    match p with
    | Constant id result => (Return result, w ++ [id])
    | Broken id => (Throw "update failed", w ++ [id])
    | AsksIntersections id =>
        (Return (bool_decide (is_Some intersections)), w ++ [id])
    end.

(** A context with no collaborator defined. *)
Definition ex_context : @Context unit unit unit :=
  {| api_ := None; entities_ := None; intersections_ := None |}.

Definition ex_read_essential (node : YAML) (key : string) : Result string :=
  match index node key with
  | Return value => as_string value
  | Throw what => Throw what
  end.

Definition ex_loader : ClassLoader (list nat) ExPlugin :=
  {| getDeclaredClasses := ["SpeedCondition"; "TimeoutCondition"];
     getName := id;
     createSharedInstance declaration :=
       fun w => (Return (Some (Constant 0 true)), w) |}.

Definition ex_configure (p : ExPlugin) (node : YAML) (api : option unit)
  : M (list nat) bool :=
  fun w => (Return true, w).

Definition ex_make_Predicate
  : @Context unit unit unit -> YAML -> M (list nat) (@Expression ExPlugin) :=
  make_Predicate ex_loader ex_read_essential ex_configure.

(** Colors and arrows, and a few triples. *)
Inductive ExColor : Type := NoColor | Green | Red | Yellow.
Inductive ExArrow : Type := NoArrow | GoLeft | GoRight | Straight.

#[global] Instance ExColor_eq_dec : EqDecision ExColor.
Proof. solve_decision. Defined.
#[global] Instance ExArrow_eq_dec : EqDecision ExArrow.
Proof. solve_decision. Defined.
#[global] Instance Command_eq_dec : EqDecision Command.
Proof. solve_decision. Defined.

Definition ex_Color_to_string (c : ExColor) : string :=
  match c with
  | NoColor => "blank" | Green => "green" | Red => "red"
  | Yellow => "yellow"
  end.

Definition ex_Arrow_to_string (a : ExArrow) : string :=
  match a with
  | NoArrow => "blank" | GoLeft => "left" | GoRight => "right"
  | Straight => "straight"
  end.

Definition ex_convert_Color (s : string) : Result ExColor :=
  if decide (s = "Blank") then Return NoColor
  else if decide (s = "Green") then Return Green
  else if decide (s = "Red") then Return Red
  else if decide (s = "Yellow") then Return Yellow
  else Throw "bad lexical cast".

Definition ex_convert_Arrow (s : string) : Result ExArrow :=
  if decide (s = "Blank") then Return NoArrow
  else if decide (s = "Left") then Return GoLeft
  else if decide (s = "Right") then Return GoRight
  else if decide (s = "Straight") then Return Straight
  else Throw "bad lexical cast".

#[global] Instance ExColor_Enumeration : Enumeration ExColor :=
  {| Blank := NoColor; convert := ex_convert_Color;
     lexical_cast := ex_Color_to_string |}.

#[global] Instance ExArrow_Enumeration : Enumeration ExArrow :=
  {| Blank := NoArrow; convert := ex_convert_Arrow;
     lexical_cast := ex_Arrow_to_string |}.

Definition ex_decode_int (s : string) : option Z :=
  if decide (s = "1") then Some 1
  else if decide (s = "2") then Some 2
  else if decide (s = "-1") then Some (-1)
  else None.

(** A simulator that accepts every command, and one that refuses one
    command. *)
Definition ex_accept_all (issued : list Command) (c : Command) : bool := true.

Definition ex_refuse (refused : Command) (issued : list Command)
    (c : Command) : bool :=
  bool_decide (c <> refused).

(** A simulator that refuses every arrow reset and accepts the rest. *)
Definition ex_refuse_arrow_resets (issued : list Command) (c : Command)
  : bool :=
  match c with
  | ResetArrow _ => false
  | _ => true
  end.

Definition ex_red_left_right : @Transition ExColor ExArrow :=
  {| target_ := 1; color_ := Red; arrows_ := [GoLeft; GoRight] |}.

Definition ex_green : @Transition ExColor ExArrow :=
  {| target_ := 2; color_ := Green; arrows_ := [] |}.

Definition ex_negative : @Transition ExColor ExArrow :=
  {| target_ := -1; color_ := Red; arrows_ := [Straight] |}.

Definition ex_singular : YAML :=
  Map [("Id", Scalar "1"); ("Color", Scalar "Green");
       ("Arrow", Scalar "Straight")].

Definition ex_plural : YAML :=
  Map [("Id", Scalar "1"); ("Color", Scalar "Green");
       ("Arrows", Sequence [Scalar "Straight"])].

Definition ex_Controller_ctor : YAML -> M Log (@Controller ExColor ExArrow) :=
  Controller_ctor ex_decode_int.

(** A heap with an All node over two Procedure nodes, and one handle
    to the All node. *)
Definition ex_heap_All : gmap address (@Object ExPlugin) :=
  <[3%positive :=
      {| count := 1;
         members := AllM [Some 1%positive; Some 2%positive] |}]>
    (<[2%positive :=
         {| count := 1; members := ProcedureM (Constant 2 true) |}]>
       (<[1%positive :=
            {| count := 1; members := ProcedureM (Constant 1 false) |}]> ∅)).

(** A heap with one Procedure node and one handle to it. *)
Definition ex_heap : gmap address (@Object ExPlugin) :=
  <[1%positive := {| count := 1; members := ProcedureM (Constant 7 true) |}]> ∅.

(** A configure that answers false. *)
Definition ex_configure_false (p : ExPlugin) (node : YAML) (api : option unit)
  : M (list nat) bool :=
  fun w => (Return false, w).

(** A traffic light with the deprecated key and with the key Arrows. *)
Definition ex_both_keys : YAML :=
  Map [("Id", Scalar "1"); ("Color", Scalar "Green");
       ("Arrow", Scalar "Straight"); ("Arrows", Sequence [Scalar "Left"])].

(** Two plugins of type Speed without name, a Procedure node for each
    and an All node over the two; a property() of the plugins that
    gives the name. *)
Definition ex_plugins : gmap address (ConditionBase unit) :=
  <[2%positive := ConditionBase_ctor "Speed" 0]>
    (<[1%positive := ConditionBase_ctor "Speed" 0]> ∅).

Definition ex_nodes : gmap address (@Object address) :=
  <[3%positive :=
      {| count := 1;
         members := AllM [Some 1%positive; Some 2%positive] |}]>
    (<[2%positive := {| count := 1; members := ProcedureM 2%positive |}]>
       (<[1%positive := {| count := 1; members := ProcedureM 1%positive |}]>
          ∅)).

Definition ex_plugin_property (plugin : address) (c : ConditionBase unit)
  : ptree :=
  PTree "" [("Name", PTree (ConditionBase_getName c) [])].

(** * Part II: the properties *)

(** ** Exceptions and effects *)

Lemma bind_apply {W A B} (m : M W A) (k : A -> M W B) w :
  bind m k w =
  match m w with
  | (Return a, w') => k a w'
  | (Throw what, w') => (Throw what, w')
  end.
Proof. reflexivity. Qed.

Lemma accumulate_app {W A B} (op : A -> B -> M W A) xs ys init w :
  accumulate op (xs ++ ys) init w
  = (let* acc := accumulate op xs init in accumulate op ys acc) w.
Proof.
  revert init w. induction xs as [|x xs IH]; intros init w; [done|].
  cbn [app accumulate]. rewrite !bind_apply.
  destruct (op init x w) as [[acc|what] w1]; [|done].
  by rewrite IH, bind_apply.
Qed.

Lemma all_of_app {W A} (pred : A -> W -> bool * W) xs ys w :
  all_of pred (xs ++ ys) w
  = let (b, w') := all_of pred xs w in
    if b then all_of pred ys w' else (false, w').
Proof.
  revert w. induction xs as [|x xs IH]; intros w; cbn; [done|].
  destruct (pred x w) as [[] w1]; [apply IH | done].
Qed.

(** ** scenario_expression *)

Section ExpressionProperties.
Context {ScenarioAPI EntityManager IntersectionManager : Type}.
Context {World PluginBase : Type}.
Context (update : PluginBase -> option IntersectionManager -> M World bool).
Implicit Types context : @Context ScenarioAPI EntityManager IntersectionManager.
Implicit Types (e x : @Expression PluginBase) (w : World).

Lemma evaluate_unfold context e :
  evaluate update context e
  = Expression_evaluate (Node_evaluate update context) e.
Proof. reflexivity. Qed.

Lemma accumulate_logical_and context operands : forall lhs w,
  accumulate
    (fun lhs rhs =>
       let* r := Expression_evaluate (Node_evaluate update context) rhs in
       ret (andb lhs (Expression_bool r)))
    operands lhs w
  = (let* bs := evaluate_each update context operands in
     ret (andb lhs (logical_and bs))) w.
Proof.
  induction operands as [|x xs IH]; intros lhs w.
  - cbn. unfold ret. by rewrite andb_true_r.
  - cbn [accumulate evaluate_each]. rewrite !bind_apply.
    rewrite <- evaluate_unfold.
    destruct (evaluate update context x w) as [[r|what] w1]; [|done].
    unfold ret at 1. rewrite IH, !bind_apply.
    destruct (evaluate_each update context xs w1) as [[bs|what] w2]; [|done].
    unfold ret. cbn. by rewrite andb_assoc.
Qed.

Lemma accumulate_logical_or context operands : forall lhs w,
  accumulate
    (fun lhs rhs =>
       let* r := Expression_evaluate (Node_evaluate update context) rhs in
       ret (orb lhs (Expression_bool r)))
    operands lhs w
  = (let* bs := evaluate_each update context operands in
     ret (orb lhs (logical_or bs))) w.
Proof.
  induction operands as [|x xs IH]; intros lhs w.
  - cbn. unfold ret. by rewrite orb_false_r.
  - cbn [accumulate evaluate_each]. rewrite !bind_apply.
    rewrite <- evaluate_unfold.
    destruct (evaluate update context x w) as [[r|what] w1]; [|done].
    unfold ret at 1. rewrite IH, !bind_apply.
    destruct (evaluate_each update context xs w1) as [[bs|what] w2]; [|done].
    unfold ret. cbn. by rewrite orb_assoc.
Qed.

Lemma All_evaluate context operands w :
  evaluate update context (Some (All operands)) w
  = (let* bs := evaluate_each update context operands in
     ret (make_Boolean (logical_and bs))) w.
Proof.
  unfold evaluate. cbn [Expression_evaluate Node_evaluate].
  rewrite bind_apply, accumulate_logical_and, !bind_apply.
  by destruct (evaluate_each update context operands w) as [[bs|what] w1].
Qed.

Lemma Any_evaluate context operands w :
  evaluate update context (Some (Any operands)) w
  = (let* bs := evaluate_each update context operands in
     ret (make_Boolean (logical_or bs))) w.
Proof.
  unfold evaluate. cbn [Expression_evaluate Node_evaluate].
  rewrite bind_apply, accumulate_logical_or, !bind_apply.
  by destruct (evaluate_each update context operands w) as [[bs|what] w1].
Qed.

Lemma evaluate_each_length context operands : forall w bs w',
  evaluate_each update context operands w = (Return bs, w') ->
  length bs = length operands.
Proof.
  induction operands as [|x xs IH]; intros w bs w'; cbn.
  - unfold ret. by intros [= <- _].
  - rewrite bind_apply.
    destruct (evaluate update context x w) as [[r|what] w1]; [|done].
    rewrite bind_apply.
    destruct (evaluate_each update context xs w1)
      as [[bs'|what] w2] eqn:E; [|done].
    unfold ret. intros [= <- _]. cbn. f_equal. eauto.
Qed.

Lemma evaluate_each_throw context before x after : forall w bs w1 what w2,
  evaluate_each update context before w = (Return bs, w1) ->
  evaluate update context x w1 = (Throw what, w2) ->
  evaluate_each update context (before ++ x :: after) w = (Throw what, w2).
Proof.
  induction before as [|p before IH]; intros w bs w1 what w2; cbn.
  - unfold ret. intros [= _ <-] Hx. by rewrite bind_apply, Hx.
  - rewrite !bind_apply.
    destruct (evaluate update context p w) as [[r|e] w0]; [|done].
    rewrite !bind_apply.
    destruct (evaluate_each update context before w0)
      as [[bs'|e] w0'] eqn:E; [|done].
    unfold ret. intros [= _ <-] Hx.
    by rewrite (IH _ _ _ _ _ E Hx).
Qed.

Lemma Not_evaluate context x w :
  evaluate update context (Some (Not x)) w
  = (let* r := evaluate update context x in
     ret (make_Boolean (negb (Expression_bool r)))) w.
Proof. reflexivity. Qed.

(** C8. A Not node evaluates its one child and returns the Boolean of
    the negated truth value; under two Not nodes the child is evaluated
    once and the truth value of the result is the child's. *)
Theorem Not_Not_evaluate context x w :
  evaluate update context (Some (Not x)) w
  = (let* r := evaluate update context x in
     ret (make_Boolean (negb (Expression_bool r)))) w
  /\ evaluate update context (Some (Not (Some (Not x)))) w
     = (let* r := evaluate update context x in
        ret (make_Boolean (Expression_bool r))) w.
Proof.
  split; [apply Not_evaluate|].
  rewrite Not_evaluate, !bind_apply, Not_evaluate, bind_apply.
  destruct (evaluate update context x w) as [[r|what] w1]; [|done].
  unfold ret. cbn. by rewrite negb_involutive.
Qed.

(** C5, as the code has it. The checked accessors of Context throw
    when the collaborator was not defined. Procedure::evaluate does not
    call them: it hands the unchecked intersections_pointer() to the
    module's update and wraps the boolean it returns. An exception
    raised while an operand is evaluated is caught by no enclosing All,
    Any or Not: it ends their evaluation, and the operands after it are
    not evaluated. *)
Theorem collaborator_errors_propagate context :
  (api_pointer context = None ->
   api context
   = Throw "No api defined, but scenario execution requires this.")
  /\ (entities_pointer context = None ->
      entities context
      = Throw "No entities defined, but scenario execution requires this.")
  /\ (intersections_pointer context = None ->
      intersections context
      = Throw
          "No intersections defined, but scenario execution requires this.")
  /\ (forall plugin w,
        evaluate update context (Some (Procedure plugin)) w
        = match update plugin (intersections_pointer context) w with
          | (Return b, w') => (Return (make_Boolean b), w')
          | (Throw what, w') => (Throw what, w')
          end)
  /\ (forall before x after w bs w1 what w2,
        evaluate_each update context before w = (Return bs, w1) ->
        evaluate update context x w1 = (Throw what, w2) ->
        evaluate update context (Some (All (before ++ x :: after))) w
        = (Throw what, w2)
        /\ evaluate update context (Some (Any (before ++ x :: after))) w
           = (Throw what, w2))
  /\ (forall x w what w2,
        evaluate update context x w = (Throw what, w2) ->
        evaluate update context (Some (Not x)) w = (Throw what, w2)).
Proof.
  split; [|split; [|split; [|split; [|split]]]].
  - unfold api_pointer, api. by intros ->.
  - unfold entities_pointer, entities. by intros ->.
  - unfold intersections_pointer, intersections. by intros ->.
  - reflexivity.
  - intros before x after w bs w1 what w2 Hbefore Hx.
    rewrite All_evaluate, Any_evaluate, !bind_apply.
    by rewrite (evaluate_each_throw _ _ _ _ _ _ _ _ _ Hbefore Hx).
  - intros x w what w2 Hx. by rewrite Not_evaluate, bind_apply, Hx.
Qed.

(** *** Construction *)

Context (loader : ClassLoader World PluginBase).
Context (read_essential : YAML -> string -> Result string).
Context (configure :
  PluginBase -> YAML -> option ScenarioAPI -> M World bool).
Context (read :
  @Context ScenarioAPI EntityManager IntersectionManager ->
  YAML -> M World (@Expression PluginBase)).

Lemma load_from_unresolved declarations name w :
  (forall declaration,
     declaration ∈ declarations -> getName loader declaration <> name) ->
  load_from loader declarations name w
  = (Throw ("Failed to load Procedure " +:+ name), w).
Proof.
  induction declarations as [|d ds IH]; intros Hno; cbn; [done|].
  destruct (decide (getName loader d = name)) as [E|_].
  - exfalso. eapply Hno; [|exact E]. left.
  - apply IH. intros d' Hd'. apply Hno. by right.
Qed.

Lemma read_operands_throw context before each after w operands w1 what w2 :
  read_operands read context (Sequence before) w = (Return operands, w1) ->
  read context each w1 = (Throw what, w2) ->
  read_operands read context (Sequence (before ++ each :: after)) w
  = (Throw what, w2).
Proof.
  unfold read_operands. rewrite !(bind_apply (lift _)).
  cbn [lift IsSequence elements]. intros Hbefore Heach.
  rewrite accumulate_app, bind_apply, Hbefore. cbn [accumulate].
  by rewrite !bind_apply, Heach.
Qed.

(** C4. When no declared class of the plugin registry has the name
    typeName + "Condition", the construction of the Predicate node fails
    with an error: no Expression is produced (so there is nothing a
    tick could evaluate, and no false result), no module instance is
    created or configured, and the world is left as it was. The
    constructors of All and Any catch nothing: when reading an item
    fails, the construction of the enclosing node fails with the same
    error. *)
Theorem make_Predicate_unresolved context node type w :
  read_essential node "Type" = Return type ->
  (forall declaration,
     declaration ∈ getDeclaredClasses loader ->
     getName loader declaration <> type +:+ "Condition") ->
  make_Predicate loader read_essential configure context node w
  = (Throw "Syntax error: malformed predicate.", w)
  /\ (forall before each after w0 operands w1 what w2,
        read_operands read context (Sequence before) w0
        = (Return operands, w1) ->
        read context each w1 = (Throw what, w2) ->
        make_All read context (Sequence (before ++ each :: after)) w0
        = (Throw what, w2)
        /\ make_Any read context (Sequence (before ++ each :: after)) w0
           = (Throw what, w2)).
Proof.
  intros Htype Hno. split.
  - unfold make_Predicate, Predicate_ctor.
    rewrite bind_apply. unfold try_catch. rewrite bind_apply.
    unfold lift. rewrite Htype, bind_apply. unfold load.
    by rewrite load_from_unresolved.
  - intros before each after w0 operands w1 what w2 Hbefore Heach.
    unfold make_All, make_Any. rewrite !bind_apply.
    by rewrite (read_operands_throw _ _ _ _ _ _ _ _ _ Hbefore Heach).
Qed.

End ExpressionProperties.

(** ** Evaluation on the heap *)

Section HeapEvaluationProperties.
Context {ScenarioAPI EntityManager IntersectionManager : Type}.
Context {World PluginBase : Type}.
Context (update : PluginBase -> option IntersectionManager -> M World bool).
Implicit Types context : @Context ScenarioAPI EntityManager IntersectionManager.
Implicit Types (h : gmap address (@Object PluginBase)) (w : World).
Implicit Types (e r : @Expression PluginBase).

(** What evaluate returns is empty or a Boolean. *)
Lemma evaluate_result context e w r w' :
  evaluate update context e w = (Return r, w') ->
  r = None \/ exists value, r = Some (Literal value).
Proof.
  unfold evaluate. destruct e as [[value|operands|operands|plugin|operand]|];
    cbn [Expression_evaluate Node_evaluate]; rewrite ?bind_apply.
  - unfold ret. intros [= <- _]. by left.
  - match goal with
    | |- context [accumulate ?op operands true w] =>
        destruct (accumulate op operands true w) as [[b|what] w1]; [|done]
    end.
    unfold ret. intros [= <- _]. right. by exists b.
  - match goal with
    | |- context [accumulate ?op operands false w] =>
        destruct (accumulate op operands false w) as [[b|what] w1]; [|done]
    end.
    unfold ret. intros [= <- _]. right. by exists b.
  - destruct (update plugin (intersections_pointer context) w)
      as [[b|what] w1]; [|done].
    unfold ret. intros [= <- _]. right. by exists b.
  - destruct (Expression_evaluate (Node_evaluate update context) operand w)
      as [[r0|what] w1]; [|done].
    unfold ret. intros [= <- _]. right. by eexists.
  - unfold ret. intros [= <- _]. by left.
Qed.

(** The temporary of a result converts to the truth value of the
    result, and its destruction leaves the heap as it was before. *)
Lemma temporary_released h r :
  r = None \/ (exists value, r = Some (Literal value)) ->
  heap_bool (temporary h r).2 (temporary h r).1 = Some (Expression_bool r)
  /\ Expression_dtor (size (temporary h r).2) (temporary h r).1
       (temporary h r).2
     = Some h.
Proof.
  intros [->|[value ->]]; cbn [temporary fst snd].
  - split; [done|]. by destruct (size h).
  - assert (h !! fresh (dom h) = None) as Hfresh
      by apply not_elem_of_dom, is_fresh.
    split; [cbn; by rewrite lookup_insert_eq|].
    rewrite map_size_insert_None by done. cbn [Expression_dtor].
    rewrite lookup_insert_eq. cbn.
    by rewrite delete_insert_eq, delete_id.
Qed.

Lemma return_Boolean_temporary value h w :
  return_Boolean value h w
  = Some (on_heap h (Return (make_Boolean value), w)).
Proof. reflexivity. Qed.

Lemma heap_accumulate_view fuel context combine :
  (forall d e h w,
     view fuel h d = Some e ->
     heap_evaluate update fuel context d h w
     = Some (on_heap h (evaluate update context e w))) ->
  forall h operands operands',
    Forall2 (fun d e => view fuel h d = Some e) operands operands' ->
    forall lhs w,
      heap_accumulate (heap_evaluate update fuel context) combine
        operands lhs h w
      = Some
          match
            accumulate
              (fun lhs rhs =>
                 let* r := evaluate update context rhs in
                 ret (combine lhs (Expression_bool r)))
              operands' lhs w
          with
          | (Return b, w') => (Return b, h, w')
          | (Throw what, w') => (Throw what, h, w')
          end.
Proof.
  intros IH h operands operands'.
  induction 1 as [|d e ds es Hview _ IHops]; intros lhs w; [done|].
  cbn [heap_accumulate accumulate]. rewrite (IH d e h w Hview), !bind_apply.
  destruct (evaluate update context e w) as [[r|what] w1] eqn:Hr; [|done].
  cbn [on_heap].
  destruct (temporary_released h r (evaluate_result _ _ _ _ _ Hr))
    as [-> ->].
  unfold ret at 1. by rewrite IHops.
Qed.

Lemma view_S fuel h (d : handle) :
  view (S fuel) h d
  = match d with
    | None => Some None
    | Some a =>
        match h !! a with
        | None => None
        | Some o =>
            match members o with
            | LiteralM value => Some (Some (Literal value))
            | AllM operands =>
                operands' ← mapM (view fuel h) operands;
                Some (Some (All operands'))
            | AnyM operands =>
                operands' ← mapM (view fuel h) operands;
                Some (Some (Any operands'))
            | ProcedureM plugin => Some (Some (Procedure plugin))
            end
        end
    end.
Proof. reflexivity. Qed.

(** Evaluation on the heap is evaluation on the tree that the handle
    stands for: the same result and the same world, and the heap left
    as it was but for the temporary of the result. *)
Lemma heap_evaluate_view context fuel : forall d e h w,
  view fuel h d = Some e ->
  heap_evaluate update fuel context d h w
  = Some (on_heap h (evaluate update context e w)).
Proof.
  induction fuel as [|fuel IH]; intros d e h w; [done|].
  rewrite view_S. destruct d as [a|]; [|by intros [= <-]].
  cbn [heap_evaluate]. destruct (h !! a) as [o|]; [|done].
  destruct (members o) as [value|operands|operands|plugin].
  - by intros [= <-].
  - intros (operands' & Hm & [= <-])%bind_Some. apply mapM_Some_1 in Hm.
    rewrite (heap_accumulate_view fuel context andb IH h _ _ Hm).
    unfold evaluate. cbn [Expression_evaluate Node_evaluate].
    rewrite bind_apply.
    match goal with
    | |- context [accumulate ?op operands' true w] =>
        by destruct (accumulate op operands' true w) as [[b|what] w1]
    end.
  - intros (operands' & Hm & [= <-])%bind_Some. apply mapM_Some_1 in Hm.
    rewrite (heap_accumulate_view fuel context orb IH h _ _ Hm).
    unfold evaluate. cbn [Expression_evaluate Node_evaluate].
    rewrite bind_apply.
    match goal with
    | |- context [accumulate ?op operands' false w] =>
        by destruct (accumulate op operands' false w) as [[b|what] w1]
    end.
  - intros [= <-]. unfold evaluate.
    cbn [Expression_evaluate Node_evaluate]. rewrite bind_apply.
    by destruct (update plugin (intersections_pointer context) w)
         as [[b|what] w1].
Qed.

(** C1. All::evaluate returns the Boolean of the logical AND (seeded
    at true) of the truth values of its operands, Any::evaluate the one
    of their logical OR (seeded at false); both evaluate every operand
    exactly once, front to back, without looking at the values found so
    far: the operands are run by [evaluate_each], which does not
    depend on them. This holds of the evaluation on the heap as well:
    for a handle to an All or Any node it has this outcome, returned in
    a new Boolean node, with the heap otherwise as it was. *)
Theorem All_Any_evaluate_every_operand context operands w :
  evaluate update context (Some (All operands)) w
  = (let* bs := evaluate_each update context operands in
     ret (make_Boolean (logical_and bs))) w
  /\ evaluate update context (Some (Any operands)) w
     = (let* bs := evaluate_each update context operands in
        ret (make_Boolean (logical_or bs))) w
  /\ (forall fuel h d,
        view fuel h d = Some (Some (All operands)) ->
        heap_evaluate update fuel context d h w
        = Some (on_heap h
                  ((let* bs := evaluate_each update context operands in
                    ret (make_Boolean (logical_and bs))) w)))
  /\ (forall fuel h d,
        view fuel h d = Some (Some (Any operands)) ->
        heap_evaluate update fuel context d h w
        = Some (on_heap h
                  ((let* bs := evaluate_each update context operands in
                    ret (make_Boolean (logical_or bs))) w))).
Proof.
  split; [apply All_evaluate|]. split; [apply Any_evaluate|].
  split; intros fuel h d Hview.
  - by rewrite (heap_evaluate_view context fuel d _ h w Hview), All_evaluate.
  - by rewrite (heap_evaluate_view context fuel d _ h w Hview), Any_evaluate.
Qed.

End HeapEvaluationProperties.

(** *** On the modules that log their updates *)

Example All_does_not_short_circuit :
  evaluate ex_update ex_context
    (Some (All [Some (Procedure (Constant 1 false));
                Some (Procedure (Constant 2 true))])) []
  = (Return (make_Boolean false), [1; 2]%nat).
Proof. reflexivity. Qed.

Example Any_does_not_short_circuit :
  evaluate ex_update ex_context
    (Some (Any [Some (Procedure (Constant 1 true));
                Some (Procedure (Constant 2 false))])) []
  = (Return (make_Boolean true), [1; 2]%nat).
Proof. reflexivity. Qed.

Example All_on_the_heap :
  heap_evaluate ex_update 1 ex_context (Some 3%positive) ex_heap_All []
  = Some (Return (Some 4%positive),
          <[4%positive := {| count := 1; members := LiteralM false |}]>
            ex_heap_All,
          [1; 2]%nat).
Proof. by vm_compute. Qed.

Lemma All_Any_evaluate_every_operand_witness :
  heap_evaluate ex_update 2 ex_context (Some 3%positive) ex_heap_All []
  = Some (on_heap ex_heap_All (Return (make_Boolean false), [1; 2]%nat)).
Proof.
  destruct (All_Any_evaluate_every_operand ex_update ex_context
              [Some (Procedure (Constant 1 false));
               Some (Procedure (Constant 2 true))] [])
    as (_ & _ & Hall & _).
  apply (Hall 2%nat ex_heap_All (Some 3%positive)). by vm_compute.
Defined.

Example Literal_evaluates_to_empty :
  evaluate ex_update ex_context (make_Boolean true) []
  = (Return None, []).
Proof. reflexivity. Qed.

(** C5, as the specification words it, fails: with no intersections in
    the context (the checked accessor would throw) a Procedure node is
    evaluated all the same, and a module that answers false yields the
    Boolean false, not an error. *)
Lemma Procedure_evaluate_unchecked_pointer :
  intersections ex_context
  = Throw "No intersections defined, but scenario execution requires this."
  /\ evaluate ex_update ex_context
       (Some (Procedure (AsksIntersections 7))) []
     = (Return (make_Boolean false), [7%nat]).
Proof. split; reflexivity. Qed.

Lemma collaborator_errors_propagate_witness :
  evaluate ex_update ex_context
    (Some (All ([Some (Procedure (Constant 1 false))]
                ++ Some (Procedure (Broken 2))
                   :: [Some (Procedure (Constant 3 true))]))) []
  = (Throw "update failed", [1; 2]%nat)
  /\ evaluate ex_update ex_context
       (Some (Not (Some (Procedure (Broken 2))))) []
     = (Throw "update failed", [2%nat]).
Proof.
  destruct (collaborator_errors_propagate ex_update ex_context)
    as (_ & _ & _ & _ & Hn & Hnot).
  split.
  - apply (Hn [Some (Procedure (Constant 1 false))]
              (Some (Procedure (Broken 2)))
              [Some (Procedure (Constant 3 true))]
              [] [false] [1%nat]); reflexivity.
  - apply Hnot. reflexivity.
Defined.

Lemma make_Predicate_unresolved_witness :
  ex_make_Predicate ex_context (Map [("Type", Scalar "Bogus")]) []
  = (Throw "Syntax error: malformed predicate.", [])
  /\ make_All ex_make_Predicate ex_context
       (Sequence ([Map [("Type", Scalar "Speed")]]
                  ++ Map [("Type", Scalar "Bogus")]
                     :: [Map [("Type", Scalar "Timeout")]])) []
     = (Throw "Syntax error: malformed predicate.", []).
Proof.
  destruct (make_Predicate_unresolved
              ex_loader ex_read_essential ex_configure ex_make_Predicate
              ex_context (Map [("Type", Scalar "Bogus")]) "Bogus" [])
    as [Hpredicate Hall].
  - reflexivity.
  - intros declaration Hin.
    apply elem_of_cons in Hin as [->|Hin]; [done|].
    apply elem_of_cons in Hin as [->|Hin]; [done|].
    by apply elem_of_nil in Hin.
  - split; [exact Hpredicate|].
    apply (Hall [Map [("Type", Scalar "Speed")]]
                (Map [("Type", Scalar "Bogus")])
                [Map [("Type", Scalar "Timeout")]]
                [] [Some (Procedure (Constant 0 true))] []);
      reflexivity.
Defined.

(** ** scenario_conditions *)

(** C7. The verdict of a tick is FAILED when the failure tree is true,
    whatever the success tree; else SUCCEEDED when the success tree is
    true; else RUNNING. No other verdict arises, and update returns the
    verdict of the truth values of the two trees. *)
Theorem verdict_reduction
    {ScenarioAPI EntityManager IntersectionManager World PluginBase : Type}
    (update : PluginBase -> option IntersectionManager -> M World bool)
    (context : @Context ScenarioAPI EntityManager IntersectionManager)
    (success failure : Expression) (w : World) :
  (forall s, reduce_verdict s true = FAILED)
  /\ reduce_verdict true false = SUCCEEDED
  /\ reduce_verdict false false = RUNNING
  /\ (forall s f, reduce_verdict s f = FAILED <-> f = true)
  /\ (forall s f, reduce_verdict s f = SUCCEEDED <-> f = false /\ s = true)
  /\ ConditionManager_update update context success failure w
     = match evaluate update context success w with
       | (Return s, w1) =>
           match evaluate update context failure w1 with
           | (Return f, w2) =>
               (Return (reduce_verdict (Expression_bool s)
                          (Expression_bool f)), w2)
           | (Throw what, w2) => (Throw what, w2)
           end
       | (Throw what, w1) => (Throw what, w1)
       end.
Proof.
  split; [done|]. split; [done|]. split; [done|].
  split; [intros [] []; cbn; split; congruence|].
  split; [intros [] []; cbn; split; (congruence || by intros [])|].
  unfold ConditionManager_update. rewrite bind_apply.
  destruct (evaluate update context success w) as [[s|what] w1]; [|done].
  rewrite bind_apply.
  by destruct (evaluate update context failure w1) as [[f|what] w2].
Qed.

(** ** scenario_intersection: the commands issued *)

Section IntersectionCommands.
Context {Color Arrow : Type} `{!Enumeration Color, !Enumeration Arrow}.
Context (ack : list Command -> Command -> bool).
Implicit Types (t : @Transition Color Arrow) (c : @Controller Color Arrow).
Implicit Types (ts : list (@Transition Color Arrow)) (log : list Command).

Lemma changeColor_issue t log :
  changeColor (Recorder ack) t log = issue ack (color_command t) log.
Proof.
  unfold changeColor, color_command.
  by destruct ((target_ t <? 0) || bool_decide (color_ t = Blank)).
Qed.

Lemma all_of_issue {A} (cmd : A -> Command) xs : forall log,
  exists issued,
    snd (all_of (fun x => issue ack (cmd x)) xs log) = log ++ issued
    /\ issued `prefix_of` map cmd xs
    /\ (fst (all_of (fun x => issue ack (cmd x)) xs log) = true ->
        issued = map cmd xs).
Proof.
  induction xs as [|x xs IH]; intros log; cbn [all_of].
  - exists []. by rewrite app_nil_r.
  - unfold issue at 1 3. destruct (ack log (cmd x)).
    + destruct (IH (log ++ [cmd x])) as (issued & Hlog & Hpre & Hall).
      exists (cmd x :: issued). rewrite Hlog, <- app_assoc.
      split; [done|]. split; [by apply prefix_cons|].
      intros Hb. cbn. by rewrite Hall.
    + exists [cmd x]. split; [done|]. split; [|done].
      apply prefix_cons, prefix_nil.
Qed.

Lemma changeArrow_issue t log :
  changeArrow (Recorder ack) t log
  = if 0 <=? target_ t
    then all_of (fun each => issue ack (arrow_command t each))
           (arrows_ t) (log ++ [ResetArrow (target_ t)])
    else (false, log ++ [ResetArrow (target_ t)]).
Proof. reflexivity. Qed.

Lemma Transition_call_issue t log :
  Transition_call (Recorder ack) t log
  = if ack log (color_command t)
    then changeArrow (Recorder ack) t (log ++ [color_command t])
    else (false, log ++ [color_command t]).
Proof.
  unfold Transition_call. rewrite changeColor_issue. unfold issue.
  by destruct (ack log (color_command t)).
Qed.

Lemma Transition_call_prefix t log :
  exists issued,
    snd (Transition_call (Recorder ack) t log) = log ++ issued
    /\ issued `prefix_of` commands_of t
    /\ (fst (Transition_call (Recorder ack) t log) = true ->
        issued = commands_of t /\ 0 <= target_ t).
Proof.
  rewrite Transition_call_issue. unfold commands_of.
  destruct (ack log (color_command t)).
  - rewrite changeArrow_issue. destruct (0 <=? target_ t) eqn:Hsign.
    + destruct (all_of_issue (arrow_command t) (arrows_ t)
                  ((log ++ [color_command t]) ++ [ResetArrow (target_ t)]))
        as (issued & Hlog & Hpre & Hall).
      exists (color_command t :: ResetArrow (target_ t) :: issued).
      split; [by rewrite Hlog, <- !app_assoc|].
      split; [by do 2 apply prefix_cons|].
      intros Hb. rewrite (Hall Hb). split; [done|]. lia.
    + exists [color_command t; ResetArrow (target_ t)].
      split; [by rewrite <- app_assoc|]. split; [|done].
      do 2 apply prefix_cons. apply prefix_nil.
  - exists [color_command t]. split; [done|]. split; [|done].
    apply prefix_cons, prefix_nil.
Qed.

Lemma Controller_call_prefix ts : forall log,
  exists issued,
    snd (all_of (Transition_call (Recorder ack)) ts log) = log ++ issued
    /\ issued `prefix_of` commands_of_all ts
    /\ (fst (all_of (Transition_call (Recorder ack)) ts log) = true ->
        issued = commands_of_all ts
        /\ Forall (fun t => 0 <= target_ t) ts).
Proof.
  induction ts as [|t ts IH]; intros log; cbn [all_of].
  - exists []. by rewrite app_nil_r.
  - destruct (Transition_call_prefix t log)
      as (issued1 & Hlog1 & Hpre1 & Hall1).
    destruct (Transition_call (Recorder ack) t log) as [b log1].
    cbn [fst snd] in *. subst log1. unfold commands_of_all.
    cbn [map concat]. destruct b.
    + destruct (Hall1 eq_refl) as [-> Hsign].
      destruct (IH (log ++ commands_of t))
        as (issued2 & Hlog2 & Hpre2 & Hall2).
      exists (commands_of t ++ issued2).
      split; [by rewrite Hlog2, <- app_assoc|].
      split; [by apply prefix_app|].
      intros Hb. destruct (Hall2 Hb) as [-> Hts]. split; [done|].
      by constructor.
    + exists issued1. split; [done|]. split; [|done].
      by apply prefix_app_r.
Qed.

Lemma all_of_issue_accepted {A} (cmd : A -> Command) xs :
  (forall issued x, ack issued (cmd x) = true) ->
  forall log,
    all_of (fun x => issue ack (cmd x)) xs log = (true, log ++ map cmd xs).
Proof.
  intros Hack. induction xs as [|x xs IH]; intros log; cbn [all_of].
  - by rewrite app_nil_r.
  - unfold issue at 1. rewrite Hack, IH. cbn. by rewrite <- app_assoc.
Qed.

Lemma color_command_no_arrow_reset t id : color_command t <> ResetArrow id.
Proof.
  unfold color_command.
  by destruct ((target_ t <? 0) || bool_decide (color_ t = Blank)).
Qed.

(** The answer to the arrow reset is not looked at: a simulator that
    accepts the color commands and the arrow-set commands gets the
    whole sequence, whatever it answers to the arrow resets. *)
Lemma Controller_call_accepted ts :
  (forall issued x, (forall id, x <> ResetArrow id) -> ack issued x = true) ->
  Forall (fun t => 0 <= target_ t) ts ->
  forall log,
    all_of (Transition_call (Recorder ack)) ts log
    = (true, log ++ commands_of_all ts).
Proof.
  intros Hack. induction 1 as [|t ts Hsign _ IH]; intros log; cbn [all_of].
  - by rewrite app_nil_r.
  - rewrite Transition_call_issue.
    rewrite Hack by (intros id; apply color_command_no_arrow_reset).
    rewrite changeArrow_issue. apply Z.leb_le in Hsign. rewrite Hsign.
    rewrite all_of_issue_accepted by (intros issued x; by apply Hack).
    rewrite IH. unfold commands_of_all, commands_of. cbn [map concat].
    by rewrite <- !app_assoc.
Qed.

(** C6, as the code has it. Applying a state issues an initial segment
    of the sequence that lists, for every triple in turn, its color
    command (a reset for a blank color or a negative target), its arrow
    reset and its arrow-set commands in the declared order. When the
    application reports success the whole sequence was issued and no
    target is negative; a simulator that accepts the color commands and
    the arrow-set commands, given triples without negative targets, gets
    the whole sequence and the report of success, whatever it answers
    to the arrow resets. When the
    application reaches a triple with a negative target, its color reset
    and its arrow reset are issued, none of its arrow-set commands, and
    the application ends there with failure. *)
Theorem Controller_commands_in_order c log :
  (exists issued,
     snd (Controller_call (Recorder ack) c log) = log ++ issued
     /\ issued `prefix_of` commands_of_all (transitions_ c))
  /\ (fst (Controller_call (Recorder ack) c log) = true ->
      snd (Controller_call (Recorder ack) c log)
      = log ++ commands_of_all (transitions_ c)
      /\ Forall (fun t => 0 <= target_ t) (transitions_ c))
  /\ ((forall issued x,
         (forall id, x <> ResetArrow id) -> ack issued x = true) ->
      Forall (fun t => 0 <= target_ t) (transitions_ c) ->
      Controller_call (Recorder ack) c log
      = (true, log ++ commands_of_all (transitions_ c)))
  /\ (forall before t after log1,
        transitions_ c = before ++ t :: after ->
        Controller_call (Recorder ack) {| transitions_ := before |} log
        = (true, log1) ->
        target_ t < 0 ->
        ack log1 (ResetColor (target_ t)) = true ->
        Controller_call (Recorder ack) c log
        = (false, log1 ++ [ResetColor (target_ t); ResetArrow (target_ t)])).
Proof.
  unfold Controller_call.
  destruct (Controller_call_prefix (transitions_ c) log)
    as (issued & Hlog & Hpre & Hall).
  split; [by exists issued|]. split.
  { intros Hb. destruct (Hall Hb) as [-> Hsign]. by rewrite Hlog. }
  split; [intros; by apply Controller_call_accepted|].
  intros before t after log1 -> Hbefore Hneg Hack. cbn in Hbefore.
  rewrite all_of_app, Hbefore. cbn [all_of].
  rewrite Transition_call_issue, changeArrow_issue. unfold color_command.
  apply Z.ltb_lt in Hneg as Hneg'. rewrite Hneg'. cbn [orb]. rewrite Hack.
  assert ((0 <=? target_ t) = false) as -> by lia.
  by rewrite <- app_assoc.
Qed.

(** C2, as the code has it. A refused color command ends the triple at
    once; a refused arrow-set command ends it after the arrows before
    it; a triple that reports failure ends the application, so the
    triples after it get no command; what was issued stays issued, and
    the application reports failure. Only the answer to the arrow reset
    is ignored. change_to (modelled from the specification) records the
    target state whatever the commands answered. *)
Theorem refused_command_ends_application :
  (forall t log,
     ack log (color_command t) = false ->
     Transition_call (Recorder ack) t log
     = (false, log ++ [color_command t]))
  /\ (forall t before a after log log2,
        arrows_ t = before ++ a :: after ->
        Transition_call (Recorder ack)
          {| target_ := target_ t; color_ := color_ t; arrows_ := before |}
          log
        = (true, log2) ->
        ack log2 (arrow_command t a) = false ->
        Transition_call (Recorder ack) t log
        = (false, log2 ++ [arrow_command t a]))
  /\ (forall ts t after log log1 log2,
        Controller_call (Recorder ack) {| transitions_ := ts |} log
        = (true, log1) ->
        Transition_call (Recorder ack) t log1 = (false, log2) ->
        Controller_call (Recorder ack)
          {| transitions_ := ts ++ t :: after |} log
        = (false, log2))
  /\ (forall t log,
        changeArrow (Recorder ack) t log
        = if 0 <=? target_ t
          then all_of
                 (fun each =>
                    setTrafficLightArrow (Recorder ack)
                      (target_ t) (lexical_cast each) false)
                 (arrows_ t) (log ++ [ResetArrow (target_ t)])
          else (false, log ++ [ResetArrow (target_ t)]))
  /\ (forall (i : @Intersection Color Arrow) the_state c log,
        change_to_ i !! the_state = Some c ->
        exists b i' log',
          change_to (Recorder ack) the_state (i, log)
          = (Return b, (i', log'))
          /\ (b, log') = Controller_call (Recorder ack) c log
          /\ current_state_ i' = the_state).
Proof.
  split; [|split; [|split; [|split]]].
  - intros t log Hack. by rewrite Transition_call_issue, Hack.
  - intros t before a after log log2 Harrows.
    rewrite !Transition_call_issue.
    change (color_command {| target_ := target_ t; color_ := color_ t;
                             arrows_ := before |})
      with (color_command t).
    destruct (ack log (color_command t)); [|done].
    rewrite !changeArrow_issue. cbn [target_ arrows_].
    destruct (0 <=? target_ t); [|done].
    rewrite Harrows, all_of_app.
    change (arrow_command {| target_ := target_ t; color_ := color_ t;
                             arrows_ := before |})
      with (arrow_command t).
    intros -> Hack. cbn [all_of]. unfold issue at 1. by rewrite Hack.
  - intros ts t after log log1 log2. unfold Controller_call.
    cbn [transitions_]. intros Hbefore Ht.
    rewrite all_of_app, Hbefore. cbn [all_of]. by rewrite Ht.
  - reflexivity.
  - intros i the_state c log Hstate. unfold change_to.
    rewrite Hstate.
    destruct (Controller_call (Recorder ack) c log) as [b log'] eqn:Hcall.
    by exists b,
      {| script_ := script_ i; ids_ := ids_ i; change_to_ := change_to_ i;
         current_state_ := the_state |}, log'.
Qed.

End IntersectionCommands.

(** *** On the concrete triples *)

Example RedToGreen_scenario :
  Controller_call (Recorder ex_accept_all)
    {| transitions_ :=
         [{| target_ := 1; color_ := Green; arrows_ := [Straight] |}] |} []
  = (true, [SetColor 1 "green"; ResetArrow 1; SetArrow 1 "straight"]).
Proof. reflexivity. Qed.

Example Controller_default_reports_failure :
  Controller_call (Recorder ex_accept_all)
    (Controller_default (Color := ExColor) (Arrow := ExArrow)) []
  = (false, [ResetColor (-1); ResetArrow (-1)]).
Proof. reflexivity. Qed.

(** C2, as the specification words it, fails: when the simulator
    refuses the first arrow of the first triple, the second arrow of
    that triple and the commands of the second triple are not
    issued. *)
Lemma refused_arrow_skips_remaining_commands :
  commands_of_all [ex_red_left_right; ex_green]
  = [SetColor 1 "red"; ResetArrow 1; SetArrow 1 "left"; SetArrow 1 "right";
     SetColor 2 "green"; ResetArrow 2]
  /\ Controller_call (Recorder (ex_refuse (SetArrow 1 "left")))
       {| transitions_ := [ex_red_left_right; ex_green] |} []
     = (false, [SetColor 1 "red"; ResetArrow 1; SetArrow 1 "left"]).
Proof. split; reflexivity. Qed.

Lemma refused_command_ends_application_witness :
  Transition_call (Recorder (ex_refuse (SetArrow 1 "left")))
    ex_red_left_right []
  = (false, [SetColor 1 "red"; ResetArrow 1] ++ [SetArrow 1 "left"])
  /\ Controller_call (Recorder (ex_refuse (SetColor 2 "green")))
       {| transitions_ := [ex_red_left_right] ++ ex_green :: [ex_negative] |}
       []
     = (false,
        [SetColor 1 "red"; ResetArrow 1; SetArrow 1 "left";
         SetArrow 1 "right"; SetColor 2 "green"]).
Proof.
  split.
  - destruct (refused_command_ends_application
                (Color := ExColor) (Arrow := ExArrow)
                (ex_refuse (SetArrow 1 "left")))
      as (_ & Harrow & _).
    apply (Harrow ex_red_left_right [] GoLeft [GoRight] []); reflexivity.
  - destruct (refused_command_ends_application
                (Color := ExColor) (Arrow := ExArrow)
                (ex_refuse (SetColor 2 "green")))
      as (_ & _ & Hnext & _).
    apply (Hnext [ex_red_left_right] ex_green [ex_negative] []
             [SetColor 1 "red"; ResetArrow 1; SetArrow 1 "left";
              SetArrow 1 "right"]); reflexivity.
Defined.

(** C6, as the specification words it, fails: a triple with a negative
    target and one declared arrow gets the color reset and the arrow
    reset, and no arrow-set command, from a simulator that accepts every
    command. *)
Lemma negative_target_gets_no_arrow :
  commands_of_all [ex_negative]
  = [ResetColor (-1); ResetArrow (-1); SetArrow (-1) "straight"]
  /\ Controller_call (Recorder ex_accept_all)
       {| transitions_ := [ex_negative] |} []
     = (false, [ResetColor (-1); ResetArrow (-1)]).
Proof. split; reflexivity. Qed.

Lemma Controller_commands_in_order_witness :
  Controller_call (Recorder ex_refuse_arrow_resets)
    {| transitions_ := [ex_red_left_right; ex_green] |} []
  = (true, [] ++ commands_of_all [ex_red_left_right; ex_green]).
Proof.
  destruct (Controller_commands_in_order ex_refuse_arrow_resets
              {| transitions_ := [ex_red_left_right; ex_green] |} [])
    as (_ & _ & Hall & _).
  apply Hall.
  - intros issued x Hx. destruct x as [id|id color|id|id arrow];
      [reflexivity | reflexivity | | reflexivity].
    by destruct (Hx id).
  - repeat constructor; cbn; lia.
Defined.

(** ** scenario_intersection: the deprecated tag Arrow *)

Section DeprecatedArrow.
Context {Color Arrow : Type} `{!Enumeration Color, !Enumeration Arrow}.
Context (decode_int : string -> option Z).
Context (ack : list Command -> Command -> bool).
Implicit Types (t : @Transition Color Arrow).
Implicit Types (ts : list (@Transition Color Arrow)) (log : Log).

Lemma Transition_ctor_scalar_arrow target color s :
  Transition_ctor (Color := Color) (Arrow := Arrow)
    decode_int target color (Scalar s)
  = Transition_ctor decode_int target color (Sequence [Scalar s]).
Proof.
  unfold Transition_ctor. destruct (as_int decode_int target); [|done].
  cbn [and_then].
  destruct (if IsDefined color
            then let+ s0 := as_string color in convert (T := Color) s0
            else Return Blank); [|done].
  cbn. destruct (convert (T := Arrow) s) as [value|]; [|done]. cbn.
  by destruct (decide (value <> Blank)).
Qed.

Lemma Transition_ctor_blank_arrow target color s t :
  convert (T := Arrow) s = Return Blank ->
  Transition_ctor decode_int target color (Scalar s) = Return t ->
  arrows_ t = [].
Proof.
  intros Hs. unfold Transition_ctor.
  destruct (as_int decode_int target); [|done]. cbn [and_then].
  destruct (if IsDefined color
            then let+ s0 := as_string color in convert (T := Color) s0
            else Return Blank); [|done].
  cbn. rewrite Hs. cbn.
  destruct (decide (Blank <> Blank)); [done|].
  by intros [= <-].
Qed.

Lemma emplace_traffic_light_singular each_singular each_plural s ts log :
  index each_singular "Arrow" = Return (Scalar s) ->
  index each_plural "Arrow" = Return Undefined ->
  index each_plural "Arrows" = Return (Sequence [Scalar s]) ->
  index each_singular "Id" = index each_plural "Id" ->
  index each_singular "Color" = index each_plural "Color" ->
  emplace_traffic_light decode_int ts each_singular log
  = (fst (emplace_traffic_light decode_int ts each_plural log),
     log ++ [deprecation_warning])
  /\ snd (emplace_traffic_light decode_int ts each_plural log) = log.
Proof.
  intros Harrow Hnone Harrows Hid Hcolor.
  unfold emplace_traffic_light, bind, lift, ret, RCLCPP_LOG.
  rewrite Harrow, Hnone, Harrows, Hid, Hcolor. cbn [IsDefined].
  destruct (index each_plural "Id") as [id|]; [|done].
  destruct (index each_plural "Color") as [color|]; [|done].
  rewrite Transition_ctor_scalar_arrow.
  by destruct (Transition_ctor decode_int id color (Sequence [Scalar s])).
Qed.

Lemma Controller_ctor_one_traffic_light each log :
  Controller_ctor (Color := Color) (Arrow := Arrow) decode_int
    (Map [("TrafficLight", Sequence [each])]) log
  = match emplace_traffic_light decode_int [] each log with
    | (Return ts, log') => (Return {| transitions_ := ts |}, log')
    | (Throw what, log') => (Throw what, log')
    end.
Proof.
  unfold Controller_ctor, bind, lift, ret. cbn [index find_key].
  destruct (decide ("TrafficLight" = "TrafficLight")); [|done].
  cbn [IsDefined elements accumulate]. unfold bind, ret.
  by destruct (emplace_traffic_light decode_int [] each log)
       as [[ts|what] log'].
Qed.

Lemma Transition_ctor_scalar_accepted id color s z col value :
  as_int decode_int id = Return z ->
  (IsDefined color = false /\ col = Blank
   \/ exists cs,
        as_string color = Return cs /\ convert (T := Color) cs = Return col) ->
  convert (T := Arrow) s = Return value ->
  Transition_ctor decode_int id color (Scalar s)
  = Return {| target_ := z; color_ := col;
              arrows_ := if decide (value <> Blank) then [value] else [] |}.
Proof.
  intros Hz Hcol Hvalue. unfold Transition_ctor. rewrite Hz. cbn [and_then].
  assert ((if IsDefined color
           then let+ s0 := as_string color in convert (T := Color) s0
           else Return Blank) = Return col) as ->.
  { destruct Hcol as [[-> ->]|(cs & Hcs & Hc)]; [done|].
    destruct color; try done; cbn in *; by rewrite ?Hcs; injection Hcs as <-. }
  cbn. by rewrite Hvalue.
Qed.

(** C9. A traffic light written with the deprecated key Arrow and a
    scalar value is read as the one written with the key Arrows and the
    one-element sequence of that value: the same Transition is added
    (or the same error raised), in the loop and in the Controller built
    from a one-entry document, and the only difference is the
    deprecation warning in the log. When the value converts to
    Arrow::Blank the Transition has no arrow, so that changeArrow issues
    the arrow reset and no arrow-set command. The traffic light with
    the deprecated key is accepted: when its Id is an integer, its
    Color is absent or converts to a color and the value of Arrow
    converts to an arrow, the loop adds the Transition of that id, that
    color and that arrow (no arrow for Blank) and logs the warning, the
    plural form adds the same Transition and logs nothing, the
    Controller of the one-entry document is built with that Transition,
    and changeArrow on it issues the arrow reset and, for a target that
    is not negative and an arrow that is not Blank, the one arrow-set
    command. *)
Theorem deprecated_Arrow_key each_singular each_plural s ts log :
  index each_singular "Arrow" = Return (Scalar s) ->
  index each_plural "Arrow" = Return Undefined ->
  index each_plural "Arrows" = Return (Sequence [Scalar s]) ->
  index each_singular "Id" = index each_plural "Id" ->
  index each_singular "Color" = index each_plural "Color" ->
  emplace_traffic_light decode_int ts each_singular log
  = (fst (emplace_traffic_light decode_int ts each_plural log),
     log ++ [deprecation_warning])
  /\ snd (emplace_traffic_light decode_int ts each_plural log) = log
  /\ Controller_ctor (Color := Color) (Arrow := Arrow) decode_int
       (Map [("TrafficLight", Sequence [each_singular])]) log
     = (fst (Controller_ctor (Color := Color) (Arrow := Arrow) decode_int
               (Map [("TrafficLight", Sequence [each_plural])]) log),
        log ++ [deprecation_warning])
  /\ snd (Controller_ctor (Color := Color) (Arrow := Arrow) decode_int
            (Map [("TrafficLight", Sequence [each_plural])]) log) = log
  /\ (convert (T := Arrow) s = Return Blank ->
      forall target color t issued,
        Transition_ctor decode_int target color (Scalar s) = Return t ->
        arrows_ t = []
        /\ snd (changeArrow (Recorder ack) t issued)
           = issued ++ [ResetArrow (target_ t)])
  /\ (forall id color z col value,
        index each_singular "Id" = Return id ->
        index each_singular "Color" = Return color ->
        as_int decode_int id = Return z ->
        (IsDefined color = false /\ col = Blank
         \/ exists cs,
              as_string color = Return cs
              /\ convert (T := Color) cs = Return col) ->
        convert (T := Arrow) s = Return value ->
        emplace_traffic_light decode_int ts each_singular log
        = (Return
             (ts ++ [{| target_ := z; color_ := col;
                        arrows_ := if decide (value <> Blank)
                                   then [value] else [] |}]),
           log ++ [deprecation_warning])
        /\ emplace_traffic_light decode_int ts each_plural log
           = (Return
                (ts ++ [{| target_ := z; color_ := col;
                           arrows_ := if decide (value <> Blank)
                                      then [value] else [] |}]),
              log)
        /\ Controller_ctor decode_int
             (Map [("TrafficLight", Sequence [each_singular])]) log
           = (Return
                {| transitions_ :=
                     [{| target_ := z; color_ := col;
                         arrows_ := if decide (value <> Blank)
                                    then [value] else [] |}] |},
              log ++ [deprecation_warning])
        /\ forall issued,
             snd (changeArrow (Recorder ack)
                    {| target_ := z; color_ := col;
                       arrows_ := if decide (value <> Blank)
                                  then [value] else [] |} issued)
             = issued
               ++ ResetArrow z
                  :: (if 0 <=? z
                      then if decide (value <> Blank)
                           then [SetArrow z (lexical_cast value)] else []
                      else [])).
Proof.
  intros Harrow Hnone Harrows Hid Hcolor.
  destruct (emplace_traffic_light_singular _ _ _ ts log
              Harrow Hnone Harrows Hid Hcolor) as [Hs Hp].
  split; [done|]. split; [done|].
  destruct (emplace_traffic_light_singular _ _ _ [] log
              Harrow Hnone Harrows Hid Hcolor) as [Hs0 Hp0].
  rewrite !Controller_ctor_one_traffic_light.
  assert (forall id color z col value,
            index each_singular "Id" = Return id ->
            index each_singular "Color" = Return color ->
            as_int decode_int id = Return z ->
            (IsDefined color = false /\ col = Blank
             \/ exists cs,
                  as_string color = Return cs
                  /\ convert (T := Color) cs = Return col) ->
            convert (T := Arrow) s = Return value ->
            forall ts0,
              emplace_traffic_light decode_int ts0 each_singular log
              = (Return
                   (ts0 ++ [{| target_ := z; color_ := col;
                               arrows_ := if decide (value <> Blank)
                                          then [value] else [] |}]),
                 log ++ [deprecation_warning])) as Haccepted.
  { intros id color z col value Hid' Hcolor' Hz Hcol Hvalue ts0.
    unfold emplace_traffic_light, bind, lift, ret, RCLCPP_LOG.
    rewrite Harrow. cbn [IsDefined]. rewrite Hid', Hcolor'.
    by rewrite (Transition_ctor_scalar_accepted id color s z col value). }
  split.
  { rewrite Hs0.
    by destruct (emplace_traffic_light decode_int [] each_plural log)
         as [[ts'|what] log']. }
  split.
  { destruct (emplace_traffic_light decode_int [] each_plural log)
      as [[ts'|what] log']; by cbn in *. }
  split.
  { clear Haccepted.
    assert (forall target color t issued,
              convert (T := Arrow) s = Return Blank ->
              Transition_ctor decode_int target color (Scalar s) = Return t ->
              arrows_ t = []
              /\ snd (changeArrow (Recorder ack) t issued)
                 = issued ++ [ResetArrow (target_ t)]) as Hblank.
    { intros target color t issued Hb Ht.
      pose proof (Transition_ctor_blank_arrow _ _ _ _ Hb Ht) as Hno.
      split; [done|]. unfold changeArrow. rewrite Hno. cbn.
      by destruct (0 <=? target_ t). }
    eauto. }
  intros id color z col value Hid' Hcolor' Hz Hcol Hvalue.
  pose proof (Haccepted id color z col value Hid' Hcolor' Hz Hcol Hvalue)
    as Hbuilt.
  split; [apply Hbuilt|]. split.
  { rewrite Hbuilt in Hs.
    destruct (emplace_traffic_light decode_int ts each_plural log)
      as [r log']. cbn in *. by injection Hs as <-; subst log'. }
  split; [by rewrite (Hbuilt [])|].
  intros issued. unfold changeArrow. cbn.
  destruct (0 <=? z); [|done].
  destruct (decide (value <> Blank)); cbn; [|done].
  destruct (ack _ _); cbn; by rewrite <- app_assoc.
Qed.

End DeprecatedArrow.

Example Controller_ctor_plural :
  ex_Controller_ctor (Map [("TrafficLight", Sequence [ex_plural])]) []
  = (Return
       {| transitions_ :=
            [{| target_ := 1; color_ := Green; arrows_ := [Straight] |}] |},
     []).
Proof. reflexivity. Qed.

Lemma deprecated_Arrow_key_witness :
  ex_Controller_ctor (Map [("TrafficLight", Sequence [ex_singular])]) []
  = (Return
       {| transitions_ :=
            [{| target_ := 1; color_ := Green;
                arrows_ := if decide (Straight <> Blank)
                           then [Straight] else [] |}] |},
     [] ++ [deprecation_warning])
  /\ ex_Controller_ctor (Map [("TrafficLight", Sequence [ex_singular])]) []
     = (fst (ex_Controller_ctor
               (Map [("TrafficLight", Sequence [ex_plural])]) []),
        [] ++ [deprecation_warning]).
Proof.
  destruct (deprecated_Arrow_key (Color := ExColor) (Arrow := ExArrow)
              ex_decode_int ex_accept_all
              ex_singular ex_plural "Straight" [] []
              eq_refl eq_refl eq_refl eq_refl eq_refl)
    as (_ & _ & Hsame & _ & _ & Haccepted).
  split; [|exact Hsame].
  assert (IsDefined (Scalar "Green") = false /\ Green = Blank
          \/ exists cs,
               as_string (Scalar "Green") = Return cs
               /\ convert (T := ExColor) cs = Return Green) as Hcolor
    by (right; by exists "Green").
  exact (proj1 (proj2 (proj2
    (Haccepted (Scalar "1") (Scalar "Green") 1 Green Straight
       eq_refl eq_refl eq_refl Hcolor eq_refl)))).
Defined.

(** ** Expression handles and their reference counts *)

Section ReferenceCountingProperties.
Context {PluginBase : Type}.
Implicit Types (h : gmap address (@Object PluginBase)).
Implicit Types (o : @Object PluginBase) (m : @Members PluginBase).
Implicit Types (d this rhs : handle) (live : list handle).

Lemma references_app a l1 l2 :
  references a (l1 ++ l2) = (references a l1 + references a l2)%nat.
Proof. unfold references. by rewrite filter_app, length_app. Qed.

Lemma references_cons a d l :
  references a (d :: l)
  = ((if decide (d = Some a) then 1 else 0) + references a l)%nat.
Proof.
  unfold references. rewrite filter_cons. by destruct (decide (d = Some a)).
Qed.

Lemma references_Permutation a l1 l2 :
  l1 ≡ₚ l2 -> references a l1 = references a l2.
Proof. unfold references. by intros ->. Qed.

Lemma references_pos a l : Some a ∈ l <-> (0 < references a l)%nat.
Proof.
  induction l as [|d l IH]; [cbn; split; [by intros ?%elem_of_nil | lia]|].
  rewrite references_cons, elem_of_cons.
  destruct (decide (d = Some a)) as [->|Hne]; [split; [lia | by left]|].
  rewrite <- IH. split; [intros [?|?]; [congruence | done] | by right].
Qed.

Lemma heap_handles_insert_fresh h a o :
  h !! a = None ->
  heap_handles (<[a := o]> h) ≡ₚ operands_of (members o) ++ heap_handles h.
Proof.
  intros Hfresh. unfold heap_handles.
  by rewrite (map_to_list_insert h a o Hfresh).
Qed.

Lemma heap_handles_delete h a o :
  h !! a = Some o ->
  heap_handles h ≡ₚ operands_of (members o) ++ heap_handles (delete a h).
Proof.
  intros Ho. unfold heap_handles.
  by rewrite <- (map_to_list_delete h a o Ho).
Qed.

Lemma heap_handles_insert_same h a o o' :
  h !! a = Some o ->
  members o' = members o ->
  heap_handles (<[a := o']> h) ≡ₚ heap_handles h.
Proof.
  intros Ho Hm. rewrite <- (insert_delete_eq h a o').
  rewrite heap_handles_insert_fresh by apply lookup_delete_eq.
  by rewrite Hm, <- heap_handles_delete.
Qed.


Lemma counted_Permutation h live1 live2 :
  live1 ≡ₚ live2 -> counted h live1 -> counted h live2.
Proof.
  intros Hp [Hclosed Hcount]. split.
  - intros a Ha. apply Hclosed. by rewrite Hp.
  - intros a o Ho.
    rewrite <- (references_Permutation a _ _ (Permutation_app_tail _ Hp)).
    by apply Hcount.
Qed.

Lemma counted_None h live :
  counted h (None :: live) <-> counted h live.
Proof.
  unfold counted. cbn [app]. split; intros [Hclosed Hcount]; split.
  - intros a Ha. apply Hclosed. by right.
  - intros a o Ho. specialize (Hcount a o Ho).
    by rewrite references_cons, decide_False in Hcount.
  - intros a [?|Ha]%elem_of_cons; [done | by apply Hclosed].
  - intros a o Ho. rewrite references_cons, decide_False by done.
    by apply Hcount.
Qed.

Lemma counted_empty : counted (PluginBase := PluginBase) ∅ [].
Proof.
  split.
  - intros a. unfold heap_handles. rewrite map_to_list_empty. cbn.
    by intros ?%elem_of_nil.
  - intros a o. by rewrite lookup_empty.
Qed.

Lemma counted_lookup h live a :
  counted h live -> Some a ∈ live -> is_Some (h !! a).
Proof. intros [Hclosed _] Ha. apply Hclosed, elem_of_app. by left. Qed.

Lemma Expression_copy_counted h live d :
  counted h live ->
  d ∈ live ->
  (forall a o, d = Some a -> h !! a = Some o -> count o + 1 < size_max) ->
  exists h',
    Expression_copy d h = Some (d, h')
    /\ counted h' (d :: live)
    /\ dom h' = dom h
    /\ (forall a, members <$> h' !! a = members <$> h !! a).
Proof.
  intros Hc Hd Hmax. destruct d as [a|]; cbn.
  2:{ exists h. split; [done|]. split; [by apply counted_None | done]. }
  destruct (counted_lookup _ _ _ Hc Hd) as [o Ho]. rewrite Ho.
  exists (<[a := increment o]> h). split; [done|].
  assert (heap_handles (<[a := increment o]> h) ≡ₚ heap_handles h) as Hhh
    by by apply (heap_handles_insert_same h a o).
  destruct Hc as [Hclosed Hcount]. split; [split|split].
  - intros b Hb. rewrite lookup_insert_is_Some.
    destruct (decide (a = b)) as [|Hne]; [by left | right].
    split; [done|]. apply Hclosed. rewrite Hhh in Hb. cbn in Hb.
    apply elem_of_cons in Hb as [[= <-]|Hb]; done.
  - intros b ob. cbn [app]. rewrite references_cons.
    rewrite (references_Permutation b _ _ (Permutation_app_head live Hhh)).
    destruct (decide (a = b)) as [<-|Hne].
    + rewrite lookup_insert_eq. intros [= <-]. rewrite decide_True by done.
      destruct (Hcount a o Ho) as [Hrefs Hbound].
      specialize (Hmax a o eq_refl Ho). cbn [count increment].
      rewrite Z.mod_small by lia. lia.
    + rewrite lookup_insert_ne by done. intros Hob.
      rewrite decide_False by congruence. by apply Hcount.
  - apply dom_insert_lookup_L. by exists o.
  - intros b. destruct (decide (a = b)) as [<-|Hne].
    + by rewrite lookup_insert_eq, Ho.
    + by rewrite lookup_insert_ne.
Qed.

Lemma counted_delete_last h live a o :
  counted h (Some a :: live) ->
  h !! a = Some o ->
  count o = 1 ->
  counted (delete a h) (operands_of (members o) ++ live).
Proof.
  intros [Hclosed Hcount] Ho Hone.
  pose proof (heap_handles_delete h a o Ho) as Hhh.
  assert (live ++ heap_handles h
          ≡ₚ (operands_of (members o) ++ live)
             ++ heap_handles (delete a h)) as Hall.
  { rewrite Hhh, <- !app_assoc.
    by rewrite (Permutation_app_swap_app live). }
  assert (references a (live ++ heap_handles h) = 0%nat) as Hzero.
  { destruct (Hcount a o Ho) as [Hrefs _]. cbn [app] in Hrefs.
    rewrite references_cons, decide_True in Hrefs by done. lia. }
  split.
  - intros b Hb. rewrite <- Hall in Hb. rewrite lookup_delete_is_Some.
    split.
    + intros <-. apply references_pos in Hb. lia.
    + apply Hclosed. by right.
  - intros b ob. rewrite lookup_delete_Some. intros [Hne Hob].
    destruct (Hcount b ob Hob) as [Hrefs Hbound]. cbn [app] in Hrefs.
    rewrite references_cons, decide_False in Hrefs by congruence.
    by rewrite <- (references_Permutation b _ _ Hall).
Qed.

Lemma size_dom_subseteq h h' :
  dom h' ⊆ dom h -> (size h' <= size h)%nat.
Proof. intros Hsub. rewrite <- !size_dom. by apply subseteq_size. Qed.

Lemma for_each_dtor_counted fuel :
  (forall d h live,
     counted h (d :: live) ->
     (size h <= fuel)%nat ->
     exists h',
       Expression_dtor fuel d h = Some h'
       /\ counted h' live /\ dom h' ⊆ dom h) ->
  forall operands h live,
    counted h (operands ++ live) ->
    (size h <= fuel)%nat ->
    exists h',
      for_each (Expression_dtor fuel) operands h = Some h'
      /\ counted h' live /\ dom h' ⊆ dom h.
Proof.
  intros IH. induction operands as [|x xs IHxs]; intros h live Hc Hsize.
  - by exists h.
  - destruct (IH x h (xs ++ live) Hc Hsize) as (h1 & Hx & Hc1 & Hdom1).
    destruct (IHxs h1 live Hc1) as (h2 & Hxs & Hc2 & Hdom2).
    { pose proof (size_dom_subseteq _ _ Hdom1). lia. }
    exists h2. cbn. rewrite Hx. split; [done|]. split; [done|].
    set_solver.
Qed.


Lemma count_decrement h live a o :
  counted h (Some a :: live) ->
  h !! a = Some o ->
  count o = Z.of_nat (1 + references a (live ++ heap_handles h))
  /\ count (decrement o) = count o - 1.
Proof.
  intros [_ Hcount] Ho. destruct (Hcount a o Ho) as [Hrefs Hb].
  cbn [app] in Hrefs. rewrite references_cons, decide_True in Hrefs by done.
  split; [done|]. cbn. rewrite Z.mod_small; lia.
Qed.

Lemma counted_decrement h live a o :
  counted h (Some a :: live) ->
  h !! a = Some o ->
  count o - 1 <> 0 ->
  counted (<[a := decrement o]> h) live.
Proof.
  intros Hc Ho Hzero.
  destruct (count_decrement h live a o Hc Ho) as [Hrefs Hdec].
  destruct Hc as [Hclosed Hcount].
  assert (heap_handles (<[a := decrement o]> h) ≡ₚ heap_handles h)
    as Hhh by by apply (heap_handles_insert_same h a o).
  split.
  - intros b Hb. rewrite lookup_insert_is_Some.
    destruct (decide (a = b)) as [|Hne]; [by left | right].
    split; [done|]. apply Hclosed. right.
    by rewrite (Permutation_app_head live Hhh) in Hb.
  - intros b ob.
    rewrite (references_Permutation b _ _ (Permutation_app_head live Hhh)).
    destruct (decide (a = b)) as [<-|Hne].
    + rewrite lookup_insert_eq. intros [= <-]. rewrite Hdec.
      destruct (Hcount a o Ho) as [_ Hb]. lia.
    + rewrite lookup_insert_ne by done. intros Hob.
      destruct (Hcount b ob Hob) as [Hrefs' Hb]. cbn [app] in Hrefs'.
      by rewrite references_cons, decide_False in Hrefs' by congruence.
Qed.

Lemma Expression_dtor_counted fuel :
  forall d h live,
    counted h (d :: live) ->
    (size h <= fuel)%nat ->
    exists h',
      Expression_dtor fuel d h = Some h'
      /\ counted h' live
      /\ dom h' ⊆ dom h
      /\ (forall a,
            d = Some a ->
            h' !! a = None
            <-> references a (live ++ heap_handles h) = 0%nat).
Proof.
  induction fuel as [|fuel IH]; intros d h live Hc Hsize.
  all: destruct d as [a|];
    [|exists h; split; [done|]; split; [by apply counted_None | done]].
  all: destruct (counted_lookup h (Some a :: live) a Hc) as [o Ho];
    [by left|].
  all: destruct (count_decrement h live a o Hc Ho) as [Hrefs Hdec].
  all: cbn [Expression_dtor]; rewrite Ho, Hdec.
  all: destruct (count o - 1 =? 0) eqn:Hzero.
  all: try (apply Z.eqb_neq in Hzero; exists (<[a := decrement o]> h);
            split; [done|]; split; [by apply counted_decrement|];
            split; [rewrite dom_insert_lookup_L; [done | by exists o]|];
            intros ? [= <-]; rewrite lookup_insert_eq; split; [done | lia]).
  - assert (size h <> 0)%nat as Hne; [|lia].
    intros ->%map_size_empty_iff. by rewrite lookup_empty in Ho.
  - apply Z.eqb_eq in Hzero.
    assert (count o = 1) as Hone by lia.
    pose proof (counted_delete_last h live a o Hc Ho Hone) as Hc'.
    assert (size (delete a h) <= fuel)%nat as Hsize'.
    { rewrite map_size_delete, Ho. cbn. lia. }
    destruct (for_each_dtor_counted fuel) with
      (operands := operands_of (members o)) (h := delete a h) (live := live)
      as (h' & Hfor & Hc'' & Hdom); [|done|done|].
    { intros d' h0 live0 Hc0 Hs0.
      destruct (IH d' h0 live0 Hc0 Hs0) as (h1 & ? & ? & ? & _).
      by exists h1. }
    rewrite dom_delete_L in Hdom.
    exists h'. split; [done|]. split; [done|]. split.
    + intros b Hb. by apply Hdom, elem_of_difference in Hb as [? _].
    + intros ? [= <-]. split; [lia|]. intros _.
      apply not_elem_of_dom. intros Ha.
      apply Hdom, elem_of_difference in Ha as [_ Ha].
      by apply Ha, elem_of_singleton.
Qed.

Lemma Expression_assign_counted fuel h live this rhs :
  counted h (this :: live) ->
  rhs ∈ this :: live ->
  (forall a o, rhs = Some a -> h !! a = Some o -> count o + 1 < size_max) ->
  (size h <= fuel)%nat ->
  exists h',
    Expression_assign fuel this rhs h = Some (rhs, h')
    /\ counted h' (rhs :: live)
    /\ dom h' ⊆ dom h.
Proof.
  intros Hc Hrhs Hmax Hsize.
  destruct (Expression_copy_counted h (this :: live) rhs Hc Hrhs Hmax)
    as (h1 & Hcopy & Hc1 & Hdom1 & _).
  destruct (Expression_dtor_counted fuel this h1 (rhs :: live))
    as (h2 & Hdtor & Hc2 & Hdom2 & _).
  { eapply counted_Permutation; [|exact Hc1]. apply perm_swap. }
  { by rewrite <- size_dom, Hdom1, size_dom. }
  exists h2. unfold Expression_assign. rewrite Hcopy. cbn.
  rewrite Hdtor. split; [done|]. split; [done|]. by rewrite <- Hdom1.
Qed.

Lemma Expression_make_counted h live m :
  counted h (operands_of m ++ live) ->
  exists a h',
    Expression_make m h = Some (Some a, h')
    /\ h !! a = None
    /\ h' = <[a := {| count := 1; members := m |}]> h
    /\ counted h' (Some a :: live).
Proof.
  intros [Hclosed Hcount].
  set (a := fresh (dom h)).
  assert (h !! a = None) as Hfresh
    by apply not_elem_of_dom, is_fresh.
  exists a, (<[a := {| count := 1; members := m |}]> h).
  split; [done|]. split; [done|]. split; [done|].
  pose proof (heap_handles_insert_fresh h a
                {| count := 1; members := m |} Hfresh) as Hhh.
  cbn [members] in Hhh.
  assert (live ++ heap_handles (<[a := {| count := 1; members := m |}]> h)
          ≡ₚ (operands_of m ++ live) ++ heap_handles h) as Hall.
  { rewrite Hhh, <- !app_assoc.
    by rewrite (Permutation_app_swap_app live). }
  assert (references a ((operands_of m ++ live) ++ heap_handles h) = 0%nat)
    as Hzero.
  { destruct (references a ((operands_of m ++ live) ++ heap_handles h))
      eqn:E; [done|].
    assert (Some a ∈ (operands_of m ++ live) ++ heap_handles h) as Hin
      by (apply references_pos; lia).
    apply Hclosed in Hin as [? Hin]. congruence. }
  split.
  - intros b. cbn [app]. rewrite Hall, lookup_insert_is_Some.
    intros [[= <-]|Hb]%elem_of_cons; [by left|].
    destruct (decide (a = b)) as [|Hne]; [by left | right].
    split; [done | by apply Hclosed].
  - intros b ob. cbn [app].
    rewrite references_cons, (references_Permutation b _ _ Hall).
    destruct (decide (a = b)) as [<-|Hne].
    + rewrite lookup_insert_eq. intros [= <-]. cbn [count].
      rewrite decide_True, Hzero by done. unfold size_max. lia.
    + rewrite lookup_insert_ne by done. intros Hob.
      rewrite decide_False by congruence. by apply Hcount.
Qed.

Lemma view_members fuel h h' :
  (forall a, members <$> h' !! a = members <$> h !! a) ->
  forall d, view fuel h' d = view fuel h d.
Proof.
  intros Hm. induction fuel as [|fuel IH]; intros d; [done|].
  cbn [view]. destruct d as [a|]; [|done].
  specialize (Hm a).
  destruct (h' !! a) as [o'|], (h !! a) as [o|]; try done.
  cbn in Hm. injection Hm as ->.
  assert (forall operands,
            mapM (view fuel h') operands = mapM (view fuel h) operands)
    as Hops.
  { intros operands. induction operands as [|x xs IHxs]; [done|].
    cbn. by rewrite IH, IHxs. }
  destruct (members o); by rewrite ?Hops.
Qed.

Lemma reachable_counted h live : reachable h live -> counted h live.
Proof.
  induction 1 as [|h live live' _ IH Hp|h live _ IH|h live m a h' _ IH Hmake
                  |h live d d' h' _ IH Hd Hmax Hcopy
                  |h live this rhs this' fuel h' _ IH Hrhs Hmax Hsize Hassign
                  |h live d fuel h' _ IH Hsize Hdtor].
  - apply counted_empty.
  - by eapply counted_Permutation.
  - by apply counted_None.
  - destruct (Expression_make_counted h live m IH)
      as (a0 & h0 & Hmake0 & _ & _ & Hc).
    rewrite Hmake in Hmake0. by injection Hmake0 as -> ->.
  - destruct (Expression_copy_counted h live d IH Hd Hmax)
      as (h0 & Hcopy0 & Hc & _).
    rewrite Hcopy in Hcopy0. by injection Hcopy0 as -> ->.
  - destruct (Expression_assign_counted fuel h live this rhs
                IH Hrhs Hmax Hsize) as (h0 & Hassign0 & Hc & _).
    rewrite Hassign in Hassign0. by injection Hassign0 as -> ->.
  - destruct (Expression_dtor_counted fuel d h live IH Hsize)
      as (h0 & Hdtor0 & Hc & _).
    rewrite Hdtor in Hdtor0. by injection Hdtor0 as ->.
Qed.

(** A handle returned by value without copy elision is copied and the
    local destroyed: the heap is left as it was. *)
Lemma Expression_copy_dtor fuel h live d :
  counted h live ->
  d ∈ live ->
  (forall a o, d = Some a -> h !! a = Some o -> count o + 1 < size_max) ->
  exists h1,
    Expression_copy d h = Some (d, h1)
    /\ Expression_dtor fuel d h1 = Some h.
Proof.
  intros Hc Hd Hmax. destruct d as [a|]; [|by exists h; destruct fuel].
  destruct (counted_lookup _ _ _ Hc Hd) as [o Ho].
  exists (<[a := increment o]> h). cbn [Expression_copy]. rewrite Ho.
  split; [done|].
  destruct Hc as [_ Hcount]. destruct (Hcount a o Ho) as [_ Hb].
  specialize (Hmax a o eq_refl Ho).
  assert (decrement (increment o) = o) as Hback.
  { destruct o as [c m]. unfold decrement, increment. cbn in *.
    rewrite (Z.mod_small (c + 1)) by lia.
    replace (c + 1 - 1) with c by lia. by rewrite Z.mod_small by lia. }
  destruct fuel; cbn [Expression_dtor]; rewrite lookup_insert_eq, Hback.
  all: assert ((count o =? 0) = false) as -> by lia.
  all: by rewrite insert_insert_eq, insert_id.
Qed.

Lemma Expression_make_copy_Procedure h source o plugin :
  h !! source = Some o ->
  members o = ProcedureM plugin ->
  exists a h',
    Expression_make_copy source h = Some (Some a, h')
    /\ h !! a = None
    /\ h' = <[a := {| count := 1; members := ProcedureM plugin |}]> h.
Proof.
  intros Ho Hm. unfold Expression_make_copy. rewrite Ho, Hm. cbn.
  exists (fresh (dom h)), (<[fresh (dom h) :=
                             {| count := 1; members := ProcedureM plugin |}]> h).
  split; [done|]. split; [|done]. apply not_elem_of_dom, is_fresh.
Qed.

(** C3. In every state that make, copy, assignment and destruction of
    handles lead to from the empty heap, the count of every node is the
    number of handles that point to it (as long as no count overflows
    std::size_t). Copying a handle or assigning one makes it point to
    the node of the source: no node is allocated and none is changed
    but for its count, and the copy stands for the same expression tree
    as the source. The destruction of a handle ends (given fuel for the
    size of the heap) and frees the node it points to exactly when no
    other handle points to it. For a Procedure node, the copy of a
    handle to it and the node that its copy constructor builds stand
    for a Procedure with the same plugin, so that evaluating through
    either updates that plugin. *)
Theorem copies_share_the_node
    {ScenarioAPI EntityManager IntersectionManager World : Type}
    (update : PluginBase -> option IntersectionManager -> M World bool)
    (context : @Context ScenarioAPI EntityManager IntersectionManager)
    h live :
  (reachable h live -> counted h live)
  /\ (forall d,
        counted h live ->
        d ∈ live ->
        (forall a o,
           d = Some a -> h !! a = Some o -> count o + 1 < size_max) ->
        exists h',
          Expression_copy d h = Some (d, h')
          /\ dom h' = dom h
          /\ (forall a, members <$> h' !! a = members <$> h !! a)
          /\ counted h' (d :: live)
          /\ forall fuel, view fuel h' d = view fuel h d)
  /\ (forall fuel this rhs,
        counted h (this :: live) ->
        rhs ∈ this :: live ->
        (forall a o,
           rhs = Some a -> h !! a = Some o -> count o + 1 < size_max) ->
        (size h <= fuel)%nat ->
        exists h',
          Expression_assign fuel this rhs h = Some (rhs, h')
          /\ dom h' ⊆ dom h
          /\ counted h' (rhs :: live))
  /\ (forall fuel d,
        counted h (d :: live) ->
        (size h <= fuel)%nat ->
        exists h',
          Expression_dtor fuel d h = Some h'
          /\ counted h' live
          /\ forall a,
               d = Some a ->
               h' !! a = None
               <-> references a (live ++ heap_handles h) = 0%nat)
  /\ (forall m,
        counted h (operands_of m ++ live) ->
        exists a h',
          Expression_make m h = Some (Some a, h')
          /\ h !! a = None
          /\ counted h' (Some a :: live))
  /\ (forall a o plugin,
        h !! a = Some o ->
        members o = ProcedureM plugin ->
        (forall d' h',
           Expression_copy (Some a) h = Some (d', h') ->
           view 1 h' d' = Some (Some (Procedure plugin))
           /\ view 1 h' (Some a) = Some (Some (Procedure plugin)))
        /\ (exists a' h',
              Expression_make_copy a h = Some (Some a', h')
              /\ a' <> a
              /\ view 1 h' (Some a') = Some (Some (Procedure plugin))
              /\ view 1 h' (Some a) = Some (Some (Procedure plugin)))
        /\ forall fuel h0 d0 w,
             view fuel h0 d0 = Some (Some (Procedure plugin)) ->
             heap_evaluate update fuel context d0 h0 w
             = Some (on_heap h0
                       match
                         update plugin (intersections_pointer context) w
                       with
                       | (Return b, w') => (Return (make_Boolean b), w')
                       | (Throw what, w') => (Throw what, w')
                       end)).
Proof.
  split; [exact (reachable_counted h live)|].
  split; [|split; [|split; [|split]]].
  - intros d Hc Hd Hmax.
    destruct (Expression_copy_counted h live d Hc Hd Hmax)
      as (h' & Hcopy & Hc' & Hdom & Hm).
    exists h'. repeat (split; [done|]). intros fuel.
    by apply view_members.
  - intros fuel this rhs Hc Hrhs Hmax Hsize.
    destruct (Expression_assign_counted fuel h live this rhs
                Hc Hrhs Hmax Hsize) as (h' & ? & ? & ?).
    by exists h'.
  - intros fuel d Hc Hsize.
    destruct (Expression_dtor_counted fuel d h live Hc Hsize)
      as (h' & ? & ? & _ & ?).
    by exists h'.
  - intros m Hc.
    destruct (Expression_make_counted h live m Hc) as (a & h' & ? & ? & _ & ?).
    by exists a, h'.
  - intros a o plugin Ho Hm. split; [|split].
    3:{ intros fuel h0 d0 w Hview.
        by rewrite (heap_evaluate_view update context fuel d0 _ h0 w Hview). }
    + intros d' h'. cbn. rewrite Ho. intros [= <- <-].
      by rewrite lookup_insert_eq; cbn; rewrite Hm.
    + destruct (Expression_make_copy_Procedure h a o plugin Ho Hm)
        as (a' & h' & Hmake & Hfresh & ->).
      exists a', (<[a' := {| count := 1; members := ProcedureM plugin |}]> h).
      assert (a' <> a) as Hne by congruence.
      split; [done|]. split; [done|]. cbn.
      by rewrite lookup_insert_eq, lookup_insert_ne, Ho, Hm.
Qed.

End ReferenceCountingProperties.

(** *** On the concrete heap *)

Lemma ex_heap_reachable : reachable ex_heap [Some 1%positive].
Proof.
  apply (reach_make ∅ [] (ProcedureM (Constant 7 true)));
    [apply reach_empty | by vm_compute].
Qed.

Lemma ex_heap_counted : counted ex_heap [Some 1%positive].
Proof. apply reachable_counted, ex_heap_reachable. Qed.

Example make_copy_destroy :
  Expression_make (ProcedureM (Constant 7 true)) ∅
  = Some (Some 1%positive, ex_heap)
  /\ Expression_copy (Some 1%positive) ex_heap
     = Some (Some 1%positive,
             <[1%positive :=
                 {| count := 2; members := ProcedureM (Constant 7 true) |}]> ∅)
  /\ Expression_dtor 0 (Some 1%positive)
       (<[1%positive :=
            {| count := 2; members := ProcedureM (Constant 7 true) |}]> ∅)
     = Some ex_heap
  /\ Expression_dtor 1 (Some 1%positive) ex_heap = Some ∅.
Proof. repeat split; by vm_compute. Qed.

(** Deleting an All node destroys the handles of its operands vector,
    and with them the nodes that no other handle points to. *)
Example dtor_cascades :
  Expression_dtor 2 (Some 2%positive)
    (<[2%positive := {| count := 1; members := AllM [Some 1%positive] |}]>
       ex_heap)
  = Some ∅.
Proof. by vm_compute. Qed.

Lemma copies_share_the_node_witness :
  (exists h',
     Expression_copy (Some 1%positive) ex_heap = Some (Some 1%positive, h')
     /\ dom h' = dom ex_heap
     /\ counted h' [Some 1%positive; Some 1%positive])
  /\ (exists h',
        Expression_dtor 1 (Some 1%positive) ex_heap = Some h'
        /\ counted h' []
        /\ h' !! 1%positive = None).
Proof.
  split.
  - destruct (copies_share_the_node ex_update ex_context ex_heap
                [Some 1%positive]) as (_ & Hcopy & _).
    destruct (Hcopy (Some 1%positive)) as (h' & ? & ? & _ & ? & _).
    + exact ex_heap_counted.
    + by left.
    + intros a o [= <-] Ho. vm_compute in Ho. by injection Ho as <-.
    + by exists h'.
  - destruct (copies_share_the_node ex_update ex_context ex_heap [])
      as (_ & _ & _ & Hdtor & _).
    destruct (Hdtor 1%nat (Some 1%positive)) as (h' & ? & ? & Hfree).
    + exact ex_heap_counted.
    + vm_compute. lia.
    + exists h'. split; [done|]. split; [done|].
      by apply (Hfree 1%positive).
Defined.

(** ** The empty Expression *)

(** C10. For the empty handle of the default constructor, evaluate
    returns the empty handle and the boolean conversion is false, on the
    heap as on trees; nothing is read through the null pointer and
    nothing changes: the world and the heap are left as they were, also
    by the copy that evaluate returns and by its destruction. None of
    this depends on the context, the world, the heap or the fuel. *)
Theorem empty_Expression_is_inert
    {ScenarioAPI EntityManager IntersectionManager World PluginBase : Type}
    (update : PluginBase -> option IntersectionManager -> M World bool)
    (context : @Context ScenarioAPI EntityManager IntersectionManager)
    (w : World) (h : gmap address (@Object PluginBase)) (fuel : nat) :
  heap_evaluate update fuel context Expression_default h w
  = Some (Return Expression_default, h, w)
  /\ heap_bool h Expression_default = Some false
  /\ Expression_copy Expression_default h = Some (Expression_default, h)
  /\ Expression_dtor fuel Expression_default h = Some h
  /\ view (S fuel) h Expression_default = Some None
  /\ evaluate update context None w = (Return None, w)
  /\ Expression_bool (None : @Expression PluginBase) = false.
Proof. repeat split; by destruct fuel. Qed.

(** * Part III: further properties of the code *)

(** ** scenario_expression: values and the order of the updates *)

Section EvaluationProperties.
Context {ScenarioAPI EntityManager IntersectionManager : Type}.
Context {World PluginBase : Type}.
Context (update : PluginBase -> option IntersectionManager -> M World bool).
Implicit Types context : @Context ScenarioAPI EntityManager IntersectionManager.
Implicit Types (e x r : @Expression PluginBase) (w : World).
Implicit Types (h : gmap address (@Object PluginBase)).

(** Induction on expression trees, through the operands vectors. *)
Lemma Node_nested_ind (P : @Node PluginBase -> Prop) :
  (forall value, P (Literal value)) ->
  (forall operands,
     Forall (fun e => forall data, e = Some data -> P data) operands ->
     P (All operands)) ->
  (forall operands,
     Forall (fun e => forall data, e = Some data -> P data) operands ->
     P (Any operands)) ->
  (forall plugin, P (Procedure plugin)) ->
  (forall operand,
     (forall data, operand = Some data -> P data) -> P (Not operand)) ->
  forall n, P n.
Proof.
  intros HLiteral HAll HAny HProcedure HNot. fix IH 1.
  intros [value|operands|operands|plugin|operand].
  - apply HLiteral.
  - apply HAll. induction operands as [|[data|] operands IHoperands].
    + apply Forall_nil_2.
    + apply Forall_cons_2; [|exact IHoperands]. intros ? [= <-]. apply IH.
    + apply Forall_cons_2; [|exact IHoperands]. intros ? [=].
  - apply HAny. induction operands as [|[data|] operands IHoperands].
    + apply Forall_nil_2.
    + apply Forall_cons_2; [|exact IHoperands]. intros ? [= <-]. apply IH.
    + apply Forall_cons_2; [|exact IHoperands]. intros ? [=].
  - apply HProcedure.
  - apply HNot. destruct operand as [data|].
    + intros ? [= <-]. apply IH.
    + intros ? [=].
Qed.

Lemma evaluate_value context r w :
  r = None \/ (exists value, r = Some (Literal value)) ->
  evaluate update context r w = (Return None, w).
Proof. by intros [->|[value ->]]. Qed.

(** X1. Whatever evaluate returns is the empty Expression or a Boolean,
    never a handle to an All, Any or Procedure node. Evaluating such a
    value again, in any context and world, calls no module and returns
    the empty Expression, whose truth value is false: Literal::evaluate
    returns a copy of the Expression base of the node, and the [data]
    of that base is null. So the truth value of a Boolean true is lost
    when it is evaluated once more. *)
Theorem evaluate_value_again context e w r w' :
  evaluate update context e w = (Return r, w') ->
  (r = None \/ exists value, r = Some (Literal value))
  /\ forall context2 w2, exists r2,
       evaluate update context2 r w2 = (Return r2, w2)
       /\ r2 = None
       /\ Expression_bool r2 = false.
Proof.
  intros He. pose proof (evaluate_result update context e w r w' He) as Hr.
  split; [done|]. intros context2 w2. exists None.
  split; [by apply evaluate_value | done].
Qed.

Lemma evaluate_each_app context xs ys w :
  evaluate_each update context (xs ++ ys) w
  = (let* bs := evaluate_each update context xs in
     let* cs := evaluate_each update context ys in
     ret (bs ++ cs)) w.
Proof.
  revert w. induction xs as [|x xs IH]; intros w; cbn [app evaluate_each].
  - rewrite bind_apply. unfold ret at 1. rewrite bind_apply.
    by destruct (evaluate_each update context ys w) as [[cs|what] w1].
  - rewrite !bind_apply.
    destruct (evaluate update context x w) as [[r|what] w1]; [|done].
    rewrite !bind_apply, IH, !bind_apply.
    destruct (evaluate_each update context xs w1) as [[bs|what] w2]; [|done].
    unfold ret, bind.
    by destruct (evaluate_each update context ys w2) as [[cs|what] w3].
Qed.

Lemma logical_and_app bs cs :
  logical_and (bs ++ cs) = logical_and bs && logical_and cs.
Proof.
  unfold logical_and. induction bs as [|b bs IH]; [done|].
  cbn. by rewrite IH, andb_assoc.
Qed.

Lemma logical_or_app bs cs :
  logical_or (bs ++ cs) = logical_or bs || logical_or cs.
Proof.
  unfold logical_or. induction bs as [|b bs IH]; [done|].
  cbn. by rewrite IH, orb_assoc.
Qed.

(** X2. An operand that is a Boolean literal (of either value) or the
    empty Expression counts as false: an All that has one returns the
    Boolean false whenever it returns, and an Any behaves as if the
    operand were not there. *)
Theorem literal_operand_counts_as_false context before x after w :
  (x = None \/ exists value, x = Some (Literal value)) ->
  (forall r w',
     evaluate update context (Some (All (before ++ x :: after))) w
     = (Return r, w') ->
     r = make_Boolean false)
  /\ evaluate update context (Some (Any (before ++ x :: after))) w
     = evaluate update context (Some (Any (before ++ after))) w.
Proof.
  intros Hx.
  assert (forall w0, evaluate_each update context (x :: after) w0
                     = (let* cs := evaluate_each update context after in
                        ret (false :: cs)) w0) as Hcons.
  { intros w0. cbn [evaluate_each]. rewrite bind_apply.
    rewrite evaluate_value by done. reflexivity. }
  split.
  - intros r w'. rewrite All_evaluate, bind_apply, evaluate_each_app.
    rewrite bind_apply.
    destruct (evaluate_each update context before w) as [[bs|what] w1];
      [|done].
    rewrite bind_apply, Hcons, bind_apply.
    destruct (evaluate_each update context after w1) as [[cs|what] w2];
      [|done].
    unfold ret. intros [= <- _]. rewrite logical_and_app. cbn.
    by rewrite andb_false_r.
  - rewrite !Any_evaluate, !bind_apply, !evaluate_each_app, !bind_apply.
    destruct (evaluate_each update context before w) as [[bs|what] w1];
      [|done].
    rewrite !bind_apply, Hcons, bind_apply.
    destruct (evaluate_each update context after w1) as [[cs|what] w2];
      [|done].
    unfold ret. by rewrite !logical_or_app.
Qed.

Lemma update_each_app context ps qs w :
  update_each update context (ps ++ qs) w
  = (let* _ := update_each update context ps in
     update_each update context qs) w.
Proof.
  revert w. induction ps as [|p ps IH]; intros w; [done|].
  cbn [app update_each]. rewrite !bind_apply.
  destruct (update p (intersections_pointer context) w) as [[b|what] w1];
    [|done].
  by rewrite IH.
Qed.

Lemma evaluate_each_updates context operands :
  Forall
    (fun e =>
       forall data,
         e = Some data ->
         forall w,
           (let* _ := evaluate update context (Some data) in ret tt) w
           = update_each update context (plugins_of_node data) w)
    operands ->
  forall w,
    (let* _ := evaluate_each update context operands in ret tt) w
    = update_each update context (concat (map plugins_of operands)) w.
Proof.
  induction 1 as [|x xs Hx _ IH]; intros w; [done|].
  cbn [evaluate_each map concat]. rewrite update_each_app, !bind_apply.
  assert ((let* _ := evaluate update context x in ret tt) w
          = update_each update context (plugins_of x) w) as Hhead.
  { destruct x as [data|]; [by apply Hx | done]. }
  rewrite bind_apply in Hhead. rewrite <- Hhead.
  destruct (evaluate update context x w) as [[r|what] w1]; [|done].
  cbv beta iota delta [ret]. rewrite <- IH. unfold bind, ret.
  by destruct (evaluate_each update context xs w1) as [[bs|what] w2].
Qed.

(** X3. The effect of an evaluation: the modules of the tree are
    updated in the order of a depth-first walk from the left, each
    Procedure node once, whatever the values returned on the way, up to
    the first update that throws; its exception is the outcome of the
    evaluation, and the updates made before it stay. *)
Theorem evaluate_updates_depth_first context e w :
  (let* _ := evaluate update context e in ret tt) w
  = update_each update context (plugins_of e) w.
Proof.
  destruct e as [n|]; [|done]. revert w. cbn [plugins_of].
  induction n as [value|operands IH|operands IH|plugin|operand IH]
    using Node_nested_ind; intros w.
  - done.
  - rewrite bind_apply, All_evaluate, bind_apply.
    pose proof (evaluate_each_updates context operands IH w) as Heach.
    rewrite bind_apply in Heach. cbn [plugins_of_node].
    change (map _ operands) with (map plugins_of operands).
    rewrite <- Heach.
    by destruct (evaluate_each update context operands w) as [[bs|what] w1].
  - rewrite bind_apply, Any_evaluate, bind_apply.
    pose proof (evaluate_each_updates context operands IH w) as Heach.
    rewrite bind_apply in Heach. cbn [plugins_of_node].
    change (map _ operands) with (map plugins_of operands).
    rewrite <- Heach.
    by destruct (evaluate_each update context operands w) as [[bs|what] w1].
  - cbn [plugins_of_node update_each]. rewrite !bind_apply.
    unfold evaluate. cbn [Expression_evaluate Node_evaluate].
    rewrite bind_apply.
    by destruct (update plugin (intersections_pointer context) w)
         as [[b|what] w1].
  - rewrite bind_apply, Not_evaluate, bind_apply. cbn [plugins_of_node].
    destruct operand as [data|]; [|done].
    rewrite <- (IH data eq_refl w), bind_apply.
    by destruct (evaluate update context (Some data) w) as [[r|what] w1].
Qed.

(** X4. Evaluation on the heap leaves no garbage. For a handle that
    stands for an expression tree, evaluate returns, or leaves by the
    exception of a module; after an exception the heap is as it was
    before the call, and after a return it holds one node more at most,
    the Boolean that the result points to: the destruction of the
    result gives back the heap as it was before the call. *)
Theorem heap_evaluate_releases_temporaries context fuel d e h w :
  view fuel h d = Some e ->
  exists outcome h' w',
    heap_evaluate update fuel context d h w = Some (outcome, h', w')
    /\ match outcome with
       | Return r =>
           Expression_dtor (size h') r h' = Some h
           /\ (r = None /\ h' = h
               \/ exists value,
                    h !! fresh (dom h) = None
                    /\ r = Some (fresh (dom h))
                    /\ h' = <[fresh (dom h) :=
                                {| count := 1; members := LiteralM value |}]> h)
       | Throw what => h' = h
       end.
Proof.
  intros Hview. rewrite (heap_evaluate_view update context fuel d e h w Hview).
  destruct (evaluate update context e w) as [[r|what] w1] eqn:He.
  - pose proof (evaluate_result update context e w r w1 He) as Hr.
    destruct (temporary_released h r Hr) as [_ Hdtor].
    exists (Return (temporary h r).1), (temporary h r).2, w1.
    split; [done|]. split; [done|].
    destruct Hr as [->|[value ->]]; [by left|]. right. exists value.
    split; [apply not_elem_of_dom, is_fresh | done].
  - by exists (Throw what), h, w1.
Qed.

End EvaluationProperties.

(** ** scenario_expression: construction *)

Section ConstructionProperties.
Context {ScenarioAPI EntityManager IntersectionManager : Type}.
Context {World PluginBase : Type}.
Context (update : PluginBase -> option IntersectionManager -> M World bool).
Context (loader : ClassLoader World PluginBase).
Context (read_essential : YAML -> string -> Result string).
Context (configure :
  PluginBase -> YAML -> option ScenarioAPI -> M World bool).
Context (read :
  @Context ScenarioAPI EntityManager IntersectionManager ->
  YAML -> M World (@Expression PluginBase)).
Implicit Types context : @Context ScenarioAPI EntityManager IntersectionManager.
Implicit Types (w : World) (node : YAML) (items : list YAML).

(** X5. A node that is there and is not a sequence (a scalar, a map,
    null) is no error for the constructors of All and Any: they read
    nothing and build a node without operands, and so does the empty
    sequence. Such an All evaluates to the Boolean true and such an Any
    to the Boolean false, without updating any module. The invalid node
    of an absent key is not accepted: IsSequence throws on it, and so
    do the constructors, which read nothing and build no node. *)
Theorem make_All_Any_without_operands context node w :
  IsSequence node = Return false \/ node = Sequence [] ->
  make_All read context node w = (Return (Some (All [])), w)
  /\ make_Any read context node w = (Return (Some (Any [])), w)
  /\ (forall context2 w2,
        evaluate update context2 (Some (All [])) w2
        = (Return (make_Boolean true), w2)
        /\ evaluate update context2 (Some (Any [])) w2
           = (Return (make_Boolean false), w2))
  /\ (node <> Undefined
      /\ exists what,
           IsSequence Undefined = Throw what
           /\ make_All read context Undefined w = (Throw what, w)
           /\ make_Any read context Undefined w = (Throw what, w)).
Proof.
  intros Hnode.
  assert (read_operands read context node w = (Return [], w)) as Hops.
  { unfold read_operands. rewrite bind_apply. unfold lift.
    by destruct Hnode as [->| ->]. }
  unfold make_All, make_Any. rewrite !bind_apply, Hops.
  split; [done|]. split; [done|]. split; [done|]. split.
  - by destruct Hnode as [Hno| ->]; [intros ->|].
  - by eexists.
Qed.

Lemma accumulate_read_each context items : forall operands w,
  accumulate
    (fun operands each =>
       let* e := read context each in
       ret (operands ++ [e]))
    items operands w
  = (let* es := read_each read context items in ret (operands ++ es)) w.
Proof.
  induction items as [|each rest IH]; intros operands w.
  - cbn. unfold ret. by rewrite app_nil_r.
  - cbn [accumulate read_each]. rewrite !bind_apply.
    destruct (read context each w) as [[e|what] w1]; [|done].
    cbv beta iota delta [ret]. rewrite IH. unfold bind, ret.
    destruct (read_each read context rest w1) as [[es|what] w2]; [|done].
    by rewrite <- app_assoc.
Qed.

Lemma read_each_length context items : forall w operands w',
  read_each read context items w = (Return operands, w') ->
  length operands = length items.
Proof.
  induction items as [|each rest IH]; intros w operands w'; cbn.
  - unfold ret. by intros [= <- _].
  - unfold bind, ret.
    destruct (read context each w) as [[e|what] w1]; [|done].
    destruct (read_each read context rest w1) as [[es|what] w2] eqn:E;
      [|done].
    intros [= <- _]. cbn. f_equal. eauto.
Qed.

(** X6. The constructors of All and Any read the items of a sequence
    front to back, each once, and keep the results in that order: the
    operands vector is the list of what [read] returned, as long as the
    sequence. *)
Theorem read_operands_in_order context items w :
  read_operands read context (Sequence items) w
  = read_each read context items w
  /\ make_All read context (Sequence items) w
     = (let* es := read_each read context items in ret (Some (All es))) w
  /\ make_Any read context (Sequence items) w
     = (let* es := read_each read context items in ret (Some (Any es))) w
  /\ forall operands w',
       read_operands read context (Sequence items) w = (Return operands, w') ->
       length operands = length items.
Proof.
  assert (read_operands read context (Sequence items) w
          = read_each read context items w) as Hops.
  { unfold read_operands. rewrite (bind_apply (lift _)).
    cbn [lift IsSequence elements].
    rewrite accumulate_read_each. unfold bind, ret.
    by destruct (read_each read context items w) as [[es|what] w1]. }
  split; [done|]. unfold make_All, make_Any. rewrite !bind_apply, Hops.
  split; [done|]. split; [done|].
  intros operands w'. apply read_each_length.
Qed.

(** X7. Procedure::load creates the instance of the first declared
    class whose name is the one asked for: the classes declared before
    it are passed over, whatever is declared after it (a second class
    of that name too) is not looked at, and no other instance is
    created. *)
Theorem load_first_match before declaration after name :
  getDeclaredClasses loader = before ++ declaration :: after ->
  (forall d, d ∈ before -> getName loader d <> name) ->
  getName loader declaration = name ->
  load loader name = createSharedInstance loader declaration.
Proof.
  unfold load. intros -> Hbefore Hname.
  induction before as [|d before IH]; cbn [app load_from].
  - by rewrite decide_True.
  - rewrite decide_False by (apply Hbefore; left).
    apply IH. intros d' Hd'. apply Hbefore. by right.
Qed.

(** X8. The constructor of Predicate does not look at what configure
    returns: when the Type is read and the class is loaded, the node is
    built with the loaded module even if configure answers false, and
    configure has been called once, with the node and the unchecked api
    pointer of the context. A loader that returns a null instance gives
    an exception and no node. *)
Theorem Predicate_ignores_the_answer_of_configure context node type w :
  read_essential node "Type" = Return type ->
  (forall p w1 b w2,
     load loader (type +:+ "Condition") w = (Return (Some p), w1) ->
     configure p node (api_pointer context) w1 = (Return b, w2) ->
     make_Predicate loader read_essential configure context node w
     = (Return (Some (Procedure p)), w2))
  /\ (forall w1,
        load loader (type +:+ "Condition") w = (Return None, w1) ->
        exists what,
          make_Predicate loader read_essential configure context node w
          = (Throw what, w1)).
Proof.
  intros Htype. split.
  - intros p w1 b w2 Hload Hconfigure.
    unfold make_Predicate, Predicate_ctor, try_catch, bind, lift, ret.
    by rewrite Htype, Hload, Hconfigure.
  - intros w1 Hload. eexists.
    unfold make_Predicate, Predicate_ctor, try_catch, bind, lift, ret, throw.
    by rewrite Htype, Hload.
Qed.

(** X9. The Context keeps what was defined last for each collaborator:
    after define the checked accessor returns that collaborator and the
    pointer is the one given; defining one collaborator leaves the other
    two as they were; and a checked accessor throws exactly when the
    pointer is null. *)
Theorem Context_define_then_get context :
  (forall x, api (define_api (Some x) context) = Return x)
  /\ (forall x, entities (define_entities (Some x) context) = Return x)
  /\ (forall x,
        intersections (define_intersections (Some x) context) = Return x)
  /\ (forall p q, api_pointer (define_api p (define_api q context)) = p)
  /\ (forall p q,
        entities_pointer (define_entities p (define_entities q context)) = p)
  /\ (forall p q,
        intersections_pointer
          (define_intersections p (define_intersections q context))
        = p)
  /\ (forall p,
        entities (define_api p context) = entities context
        /\ intersections (define_api p context) = intersections context)
  /\ (forall p,
        api (define_entities p context) = api context
        /\ intersections (define_entities p context) = intersections context)
  /\ (forall p,
        api (define_intersections p context) = api context
        /\ entities (define_intersections p context) = entities context)
  /\ ((exists what, api context = Throw what) <-> api_pointer context = None)
  /\ ((exists what, entities context = Throw what)
      <-> entities_pointer context = None)
  /\ ((exists what, intersections context = Throw what)
      <-> intersections_pointer context = None).
Proof.
  destruct context as [[a|] [e|] [i|]]; cbn; repeat split; try done;
    try (by eexists); by intros [what Hthrow].
Qed.

End ConstructionProperties.

(** ** scenario_intersection: construction and edge cases *)

Section IntersectionProperties.
Context {Color Arrow : Type} `{!Enumeration Color, !Enumeration Arrow}.
Context (decode_int : string -> option Z).
Implicit Types (t : @Transition Color Arrow) (c : @Controller Color Arrow).
Implicit Types (ts : list (@Transition Color Arrow)).

Lemma emplace_arrows_filter each : forall arrows_ r,
  emplace_arrows each arrows_ = Return r ->
  exists values,
    Forall2
      (fun e value =>
         exists s,
           as_string e = Return s /\ convert (T := Arrow) s = Return value)
      each values
    /\ r = arrows_ ++ filter (fun value => value <> Blank) values.
Proof.
  induction each as [|e rest IH]; intros arrows_ r; cbn [emplace_arrows].
  - intros [= <-]. exists []. split; [constructor|]. by rewrite app_nil_r.
  - destruct (as_string e) as [s|] eqn:Hs; [|done]. cbn [and_then].
    destruct (convert (T := Arrow) s) as [value|] eqn:Hvalue; [|done].
    cbn [and_then].
    destruct (decide (value <> Blank)) as [Hne|Heq]; intros Hrest.
    + destruct (IH _ _ Hrest) as (values & Hall & ->).
      exists (value :: values). split; [constructor; eauto|].
      rewrite filter_cons, decide_True by done. by rewrite <- app_assoc.
    + destruct (IH _ _ Hrest) as (values & Hall & ->).
      exists (value :: values). split; [constructor; eauto|].
      by rewrite filter_cons, decide_False by done.
Qed.

(** X10. What the constructor of Transition keeps of the arrows: the
    arrows of a sequence in the order written, duplicates included, but
    for those that convert to Arrow::Blank, which are dropped; no arrow
    for an absent or null node. So arrows_ never holds Blank, and
    changeArrow never sends it. The color of a Transition built without
    a Color node is Color::Blank. *)
Theorem Transition_ctor_keeps_no_Blank_arrow target color arrows t :
  Transition_ctor decode_int target color arrows = Return t ->
  ~ Blank ∈ arrows_ t
  /\ as_int decode_int target = Return (target_ t)
  /\ (IsDefined color = false -> color_ t = Blank)
  /\ (IsDefined arrows = false \/ IsNull arrows = true -> arrows_ t = [])
  /\ (forall items,
        arrows = Sequence items ->
        exists values,
          Forall2
            (fun e value =>
               exists s,
                 as_string e = Return s
                 /\ convert (T := Arrow) s = Return value)
            items values
          /\ arrows_ t = filter (fun value => value <> Blank) values).
Proof.
  unfold Transition_ctor.
  destruct (as_int decode_int target) as [z|]; [|done]. cbn [and_then].
  destruct (if IsDefined color
            then let+ s := as_string color in convert (T := Color) s
            else Return Blank) as [col|] eqn:Hcolor; [|done].
  cbn [and_then].
  destruct (if IsDefined arrows && negb (IsNull arrows)
            then
              if IsScalar arrows
              then
                let+ s := as_string arrows in
                let+ value := convert (T := Arrow) s in
                Return (if decide (value <> Blank) then [value] else [])
              else emplace_arrows (elements arrows) []
            else Return []) as [arr|] eqn:Harrows; [|done].
  cbn [and_then]. intros [= <-]. cbn [target_ color_ arrows_].
  split; [|split; [done|split; [|split]]].
  - destruct arrows as [| |s|items|entries]; cbn in Harrows.
    + injection Harrows as <-. apply not_elem_of_nil.
    + injection Harrows as <-. apply not_elem_of_nil.
    + destruct (convert (T := Arrow) s) as [value|]; [|done].
      cbn in Harrows. injection Harrows as <-.
      destruct (decide (value <> Blank)) as [Hne|_];
        [|apply not_elem_of_nil].
      intros Heq%list_elem_of_singleton. by apply Hne.
    + destruct (emplace_arrows_filter _ _ _ Harrows) as (values & _ & ->).
      cbn [app]. by intros [Hb _]%list_elem_of_filter.
    + destruct (emplace_arrows_filter _ _ _ Harrows) as (values & _ & ->).
      cbn [app]. by intros [Hb _]%list_elem_of_filter.
  - intros Hno. rewrite Hno in Hcolor. by injection Hcolor as <-.
  - intros [Hno|Hnull].
    + rewrite Hno in Harrows. by injection Harrows as <-.
    + rewrite Hnull, andb_false_r in Harrows. by injection Harrows as <-.
  - intros items ->. cbn in Harrows.
    by destruct (emplace_arrows_filter _ _ _ Harrows) as (values & ? & ->);
      exists values.
Qed.

(** X11. A traffic light with neither color nor arrows (both absent,
    or the arrows null) resets: applying its Transition sends the color
    reset and, if that is accepted, the arrow reset, and nothing else;
    it reports success exactly when the color reset is accepted and the
    id is not negative. *)
Theorem Transition_without_color_and_arrows
    (ack : list Command -> Command -> bool) target arrows z issued :
  as_int decode_int target = Return z ->
  arrows = Undefined \/ arrows = Null ->
  exists t,
    Transition_ctor (Color := Color) (Arrow := Arrow)
      decode_int target Undefined arrows = Return t
    /\ t = {| target_ := z; color_ := Blank; arrows_ := [] |}
    /\ Transition_call (Recorder ack) t issued
       = if ack issued (ResetColor z)
         then (0 <=? z, issued ++ [ResetColor z; ResetArrow z])
         else (false, issued ++ [ResetColor z]).
Proof.
  intros Hz Harrows. eexists. split; [|split; [reflexivity|]].
  - unfold Transition_ctor. rewrite Hz. by destruct Harrows as [->| ->].
  - unfold Transition_call, changeColor, changeArrow. cbn.
    rewrite bool_decide_eq_true_2, orb_true_r by done.
    unfold issue. destruct (ack issued (ResetColor z)); [|done].
    rewrite <- app_assoc. by destruct (0 <=? z).
Qed.

Lemma Transition_call_negative {Simulator} (simulator : ScenarioAPI Simulator)
    t (s : Simulator) :
  target_ t < 0 -> fst (Transition_call simulator t s) = false.
Proof.
  intros Hneg. unfold Transition_call.
  destruct (changeColor simulator t s) as [[] s1]; [|done].
  unfold changeArrow.
  destruct (resetTrafficLightArrow simulator (target_ t) false s1) as [b s2].
  by assert ((0 <=? target_ t) = false) as -> by lia.
Qed.

(** X12. A Controller that holds a Transition with a negative target
    never reports success, whatever the simulator answers. The
    Controller of the default constructor is one: it holds the one
    Transition of target -1 without color and arrows, so that applying
    it sends the color reset for -1 and, if that is accepted, the arrow
    reset for -1, and reports failure. *)
Theorem negative_target_never_succeeds {Simulator}
    (simulator : ScenarioAPI Simulator) c (s : Simulator)
    (ack : list Command -> Command -> bool) issued :
  ((exists t, t ∈ transitions_ c /\ target_ t < 0) ->
   fst (Controller_call simulator c s) = false)
  /\ fst (Controller_call simulator
            (Controller_default (Color := Color) (Arrow := Arrow)) s)
     = false
  /\ Controller_call (Recorder ack)
       (Controller_default (Color := Color) (Arrow := Arrow)) issued
     = (false,
        issued ++ ResetColor (-1)
                  :: (if ack issued (ResetColor (-1))
                      then [ResetArrow (-1)] else [])).
Proof.
  assert (forall ts s0,
            (exists t, t ∈ ts /\ target_ t < 0) ->
            fst (all_of (Transition_call simulator) ts s0) = false) as Hall.
  { induction ts as [|t0 ts IH]; intros s0 (t & Hin & Hneg).
    - by apply elem_of_nil in Hin.
    - cbn [all_of].
      destruct (Transition_call simulator t0 s0) as [b s1] eqn:Hcall.
      destruct b; [|done].
      apply elem_of_cons in Hin as [->|Hin]; [|apply IH; eauto].
      pose proof (Transition_call_negative simulator t0 s0 Hneg) as Hf.
      by rewrite Hcall in Hf. }
  split; [apply Hall|]. split.
  - apply Hall. exists Transition_default. split; [by left | done].
  - unfold Controller_call, Controller_default. cbn [transitions_ all_of].
    unfold Transition_call, changeColor, changeArrow. cbn.
    unfold issue. destruct (ack issued (ResetColor (-1))); [|done].
    by rewrite <- app_assoc.
Qed.

(** X13. A node without the key TrafficLight is no error for the
    constructor of Controller: it logs an error and builds a Controller
    without Transition. Applying that Controller sends no command to
    the simulator and reports success. *)
Theorem Controller_without_TrafficLight {Simulator}
    (simulator : ScenarioAPI Simulator) node log (s : Simulator) :
  index node "TrafficLight" = Return Undefined ->
  Controller_ctor (Color := Color) (Arrow := Arrow) decode_int node log
  = (Return {| transitions_ := [] |},
     log ++ [(ERROR,
              "Each element of node 'Control' requires hash 'TrafficLight'.")])
  /\ Controller_call simulator
       ({| transitions_ := [] |} : @Controller Color Arrow) s
     = (true, s).
Proof.
  intros Hno. split; [|done].
  unfold Controller_ctor, bind, lift, ret, RCLCPP_LOG. by rewrite Hno.
Qed.

Lemma emplace_traffic_light_log ts each log ts' log' :
  emplace_traffic_light decode_int ts each log = (Return ts', log') ->
  (exists t, ts' = ts ++ [t])
  /\ log' = log ++ (if uses_deprecated_Arrow each
                    then [deprecation_warning] else []).
Proof.
  unfold emplace_traffic_light, uses_deprecated_Arrow, bind, lift, ret,
    RCLCPP_LOG.
  destruct (index each "Arrow") as [arrow|]; [|done].
  destruct (IsDefined arrow).
  - destruct (index each "Id") as [id|]; [|done].
    destruct (index each "Color") as [color|]; [|done].
    destruct (Transition_ctor decode_int id color arrow) as [t|]; [|done].
    intros [= <- <-]. split; [by exists t | done].
  - destruct (index each "Id") as [id|]; [|done].
    destruct (index each "Color") as [color|]; [|done].
    destruct (index each "Arrows") as [arrows|]; [|done].
    destruct (Transition_ctor decode_int id color arrows) as [t|]; [|done].
    intros [= <- <-]. split; [by exists t | by rewrite app_nil_r].
Qed.

Lemma accumulate_emplace_traffic_light items : forall ts log ts' log',
  accumulate (emplace_traffic_light decode_int) items ts log
  = (Return ts', log') ->
  length ts' = (length ts + length items)%nat
  /\ log' = log ++ map (fun _ => deprecation_warning)
                     (filter (fun each => uses_deprecated_Arrow each) items).
Proof.
  induction items as [|each rest IH]; intros ts log ts' log';
    cbn [accumulate].
  - unfold ret. intros [= <- <-]. split; [cbn; lia | by rewrite app_nil_r].
  - rewrite bind_apply.
    destruct (emplace_traffic_light decode_int ts each log)
      as [[ts1|what] log1] eqn:Heach; [|done].
    destruct (emplace_traffic_light_log _ _ _ _ _ Heach) as [[t ->] ->].
    intros (Hlen & ->)%IH. rewrite length_app in Hlen. cbn in Hlen.
    split; [cbn; lia|]. rewrite filter_cons.
    destruct (uses_deprecated_Arrow each); cbn;
      by rewrite <- ?app_assoc, ?app_nil_r.
Qed.

(** X14. A Controller built from a sequence of traffic lights holds
    one Transition for each of them, and the construction logs one
    deprecation warning for each traffic light written with the key
    Arrow, and nothing else. *)
Theorem Controller_ctor_one_Transition_each node items log c log' :
  index node "TrafficLight" = Return (Sequence items) ->
  Controller_ctor (Color := Color) (Arrow := Arrow) decode_int node log
  = (Return c, log') ->
  length (transitions_ c) = length items
  /\ log' = log ++ map (fun _ => deprecation_warning)
                     (filter (fun each => uses_deprecated_Arrow each) items).
Proof.
  intros Hnode. unfold Controller_ctor, bind, lift, ret. rewrite Hnode.
  cbn [IsDefined elements].
  destruct (accumulate (emplace_traffic_light decode_int) items [] log)
    as [[ts|what] log1] eqn:Hacc; [|done].
  intros [= <- <-]. cbn [transitions_].
  by apply accumulate_emplace_traffic_light in Hacc.
Qed.

(** X15. When a traffic light has the deprecated key Arrow, the key
    Arrows is not read: two traffic lights that agree on Id, Color and
    Arrow give the same Transition and the same log, whatever either
    has under Arrows. *)
Theorem deprecated_Arrow_hides_Arrows each1 each2 arrow ts log :
  index each1 "Arrow" = Return arrow ->
  index each2 "Arrow" = Return arrow ->
  IsDefined arrow = true ->
  index each1 "Id" = index each2 "Id" ->
  index each1 "Color" = index each2 "Color" ->
  emplace_traffic_light (Color := Color) (Arrow := Arrow)
    decode_int ts each1 log
  = emplace_traffic_light decode_int ts each2 log.
Proof.
  intros H1 H2 Hdef Hid Hcolor.
  unfold emplace_traffic_light, bind, lift.
  by rewrite H1, H2, Hdef, Hid, Hcolor.
Qed.

(** X24. A traffic light whose Id is absent or is no integer ends
    the construction of the Controller with the exception of the
    conversion: no Controller is built, the traffic lights after it are
    not read, and what was logged up to there stays in the log,
    including the deprecation warning of that traffic light. *)
Theorem traffic_light_without_Id_ends_construction
    node before entries after log ts log1 what :
  index node "TrafficLight"
  = Return (Sequence (before ++ Map entries :: after)) ->
  accumulate
    (emplace_traffic_light (Color := Color) (Arrow := Arrow) decode_int)
    before [] log
  = (Return ts, log1) ->
  as_int decode_int (find_key "Id" entries) = Throw what ->
  Controller_ctor (Color := Color) (Arrow := Arrow) decode_int node log
  = (Throw what,
     log1 ++ (if IsDefined (find_key "Arrow" entries)
              then [deprecation_warning] else [])).
Proof.
  intros Hnode Hbefore Hid. unfold Controller_ctor.
  rewrite bind_apply. unfold lift at 1. rewrite Hnode.
  cbn [IsDefined elements]. rewrite bind_apply, accumulate_app, bind_apply.
  rewrite Hbefore. cbn [accumulate]. rewrite bind_apply.
  assert (emplace_traffic_light (Color := Color) (Arrow := Arrow)
            decode_int ts (Map entries) log1
          = (Throw what,
             log1 ++ (if IsDefined (find_key "Arrow" entries)
                      then [deprecation_warning] else []))) as ->; [|done].
  unfold emplace_traffic_light, bind, lift, ret, RCLCPP_LOG.
  cbn [index]. unfold Transition_ctor. rewrite Hid. cbn [and_then].
  destruct (IsDefined (find_key "Arrow" entries)); [done|].
  by rewrite app_nil_r.
Qed.

End IntersectionProperties.

(** ** Expression handles: assignment to itself, leaks, cycles *)

Section HeapProperties.
Context {PluginBase : Type}.
Implicit Types (h : gmap address (@Object PluginBase)).
Implicit Types (o : @Object PluginBase) (m : @Members PluginBase).
Implicit Types (d this rhs : handle) (live : list handle).

Lemma decrement_increment o :
  0 <= count o < size_max -> decrement (increment o) = o.
Proof.
  destruct o as [c m]. unfold decrement, increment. cbn. intros Hc.
  f_equal. destruct (decide (c + 1 < size_max)) as [Hlt|Hge].
  - rewrite (Z.mod_small (c + 1)) by lia.
    replace (c + 1 - 1) with c by lia. by rewrite Z.mod_small by lia.
  - assert (c = size_max - 1) as -> by lia. reflexivity.
Qed.

(** X16. Assigning an Expression to itself, or to another handle of
    the same node, changes nothing: the copy made first keeps the node
    alive while the old handle is released, and the count comes back to
    what it was, also at the largest value of std::size_t. *)
Theorem self_assignment_changes_nothing fuel h live d :
  counted h live ->
  d ∈ live ->
  Expression_assign fuel d d h = Some (d, h).
Proof.
  intros Hc Hd. unfold Expression_assign.
  destruct d as [a|]; [|by destruct fuel].
  destruct (counted_lookup _ _ _ Hc Hd) as [o Ho].
  cbn [Expression_copy]. rewrite Ho. cbn [Expression_swap].
  destruct Hc as [_ Hcount]. destruct (Hcount a o Ho) as [_ Hbound].
  assert (Expression_dtor fuel (Some a) (<[a := increment o]> h) = Some h)
    as ->; [|done].
  destruct fuel; cbn [Expression_dtor];
    rewrite lookup_insert_eq, decrement_increment by lia.
  all: assert ((count o =? 0) = false) as -> by lia.
  all: by rewrite insert_insert_eq, insert_id.
Qed.

Lemma keeps_members_refl h : keeps_members h h.
Proof. intros a o Ho. by exists o. Qed.

Lemma keeps_members_trans h1 h2 h3 :
  keeps_members h1 h2 -> keeps_members h2 h3 -> keeps_members h1 h3.
Proof.
  intros H12 H23 a o3 Ho3.
  destruct (H23 a o3 Ho3) as (o2 & Ho2 & Hm2).
  destruct (H12 a o2 Ho2) as (o1 & Ho1 & Hm1).
  exists o1. split; [done | congruence].
Qed.

Lemma keeps_members_insert h a o o' :
  h !! a = Some o ->
  members o' = members o ->
  keeps_members h (<[a := o']> h).
Proof.
  intros Ho Hm b ob. destruct (decide (a = b)) as [<-|Hne].
  - rewrite lookup_insert_eq. intros [= <-]. by exists o.
  - rewrite lookup_insert_ne by done. intros Hb. by exists ob.
Qed.

Lemma keeps_members_delete h a : keeps_members h (delete a h).
Proof.
  intros b ob [_ Hb]%lookup_delete_Some. by exists ob.
Qed.

Lemma Expression_copy_keeps_members d d' h h' :
  Expression_copy d h = Some (d', h') -> keeps_members h h'.
Proof.
  destruct d as [a|]; cbn; [|intros [= _ <-]; apply keeps_members_refl].
  destruct (h !! a) as [o|] eqn:Ho; [|done]. intros [= _ <-].
  by apply (keeps_members_insert h a o).
Qed.

Lemma for_each_keeps_members (f : handle -> gmap address (@Object PluginBase)
                                   -> option (gmap address Object)) :
  (forall d h h', f d h = Some h' -> keeps_members h h') ->
  forall operands h h',
    for_each f operands h = Some h' -> keeps_members h h'.
Proof.
  intros Hf. induction operands as [|x xs IH]; intros h h'; cbn.
  - intros [= <-]. apply keeps_members_refl.
  - destruct (f x h) as [h1|] eqn:Hx; [|done]. intros Hxs.
    eapply keeps_members_trans; eauto.
Qed.

Lemma Expression_dtor_keeps_members fuel : forall d h h',
  Expression_dtor fuel d h = Some h' -> keeps_members h h'.
Proof.
  induction fuel as [|fuel IH]; intros d h h'.
  all: destruct d as [a|]; cbn [Expression_dtor];
    [|intros [= <-]; apply keeps_members_refl].
  all: destruct (h !! a) as [o|] eqn:Ho; [|done].
  all: destruct (count (decrement o) =? 0).
  all: try (intros [= <-]; by apply (keeps_members_insert h a o)).
  intros Hfor. eapply keeps_members_trans; [apply keeps_members_delete|].
  eapply for_each_keeps_members; [|exact Hfor]. exact IH.
Qed.

Lemma layered_keeps_members h h' :
  keeps_members h h' -> layered h -> layered h'.
Proof.
  intros Hk [rank Hrank]. exists rank. intros a o' b Ho' Hb.
  destruct (Hk a o' Ho') as (o & Ho & Hm). rewrite Hm in Hb. eauto.
Qed.

Lemma elem_of_heap_handles h d :
  d ∈ heap_handles h
  <-> exists a o, h !! a = Some o /\ d ∈ operands_of (members o).
Proof.
  unfold heap_handles. rewrite list_elem_of_bind. split.
  - intros ([a o] & Hd & Hao%elem_of_map_to_list). by exists a, o.
  - intros (a & o & Ho & Hd). exists (a, o).
    split; [done | by apply elem_of_map_to_list].
Qed.

Lemma layered_insert_fresh h live m a :
  counted h (operands_of m ++ live) ->
  h !! a = None ->
  layered h ->
  layered (<[a := {| count := 1; members := m |}]> h).
Proof.
  intros [Hclosed _] Hfresh [rank Hrank].
  assert (forall b, Some b ∈ operands_of m -> b <> a) as Hops.
  { intros b Hb ->.
    destruct (Hclosed a) as [o Ho]; [|congruence].
    rewrite <- app_assoc. apply elem_of_app. by left. }
  exists (fun x =>
            if decide (x = a)
            then S (max_list (map (rank_of rank) (operands_of m)))
            else rank x).
  intros a1 o1 b. destruct (decide (a = a1)) as [<-|Hne].
  - rewrite lookup_insert_eq. intros [= <-]. cbn [members]. intros Hb.
    rewrite decide_False by by apply Hops.
    rewrite decide_True by done.
    apply Nat.lt_succ_r, max_list_elem_of_le.
    apply (list_elem_of_fmap_2 (rank_of rank) _ _ Hb).
  - rewrite lookup_insert_ne by done. intros Ho1 Hb.
    assert (b <> a) as Hba.
    { intros ->. destruct (Hclosed a) as [o Ho]; [|congruence].
      apply elem_of_app. right.
      apply elem_of_heap_handles. by exists a1, o1. }
    rewrite !decide_False by done. eauto.
Qed.

Lemma reachable_layered h live : reachable h live -> layered h.
Proof.
  induction 1 as [|h live live' _ IH Hp|h live _ IH|h live m a h' Hr IH Hmake
                  |h live d d' h' _ IH Hd Hmax Hcopy
                  |h live this rhs this' fuel h' _ IH Hrhs Hmax Hsize Hassign
                  |h live d fuel h' _ IH Hsize Hdtor].
  - exists (fun _ => 0%nat). intros a o b. by rewrite lookup_empty.
  - done.
  - done.
  - pose proof (reachable_counted _ _ Hr) as Hc.
    destruct (Expression_make_counted h live m Hc)
      as (a0 & h0 & Hmake0 & Hfresh & -> & _).
    rewrite Hmake in Hmake0. injection Hmake0 as -> ->.
    by apply (layered_insert_fresh h live).
  - eapply layered_keeps_members; [|exact IH].
    by eapply Expression_copy_keeps_members.
  - unfold Expression_assign in Hassign.
    destruct (Expression_copy rhs h) as [[e h1]|] eqn:Hcopy; [|done].
    cbn [Expression_swap] in Hassign.
    destruct (Expression_dtor fuel this h1) as [h2|] eqn:Hdtor; [|done].
    injection Hassign as _ <-.
    eapply layered_keeps_members; [|exact IH].
    eapply keeps_members_trans.
    + by eapply Expression_copy_keeps_members.
    + by eapply Expression_dtor_keeps_members.
  - eapply layered_keeps_members; [|exact IH].
    by eapply Expression_dtor_keeps_members.
Qed.

Lemma counted_layered_empty h :
  counted h [] -> layered h -> h = ∅.
Proof.
  intros [_ Hcount] [rank Hrank]. apply map_empty. intros a.
  set (bound := max_list (map rank (map fst (map_to_list h)))).
  assert (forall b ob, h !! b = Some ob -> (rank b <= bound)%nat) as Hbound.
  { intros b ob Hb. apply max_list_elem_of_le.
    apply (list_elem_of_fmap_2 rank).
    apply (list_elem_of_fmap_2 fst _ (b, ob)).
    by apply elem_of_map_to_list. }
  assert (forall n b ob,
            h !! b = Some ob -> (bound - rank b < n)%nat -> False) as Hnone.
  { induction n as [|n IH]; intros b ob Hb Hn; [lia|].
    destruct (Hcount b ob Hb) as [Hrefs Hpos]. cbn [app] in Hrefs.
    assert (Some b ∈ heap_handles h) as Hin
      by (apply references_pos; lia).
    apply elem_of_heap_handles in Hin as (a1 & o1 & Ho1 & Hin).
    pose proof (Hrank a1 o1 b Ho1 Hin) as Hlt.
    pose proof (Hbound a1 o1 Ho1) as Hle.
    apply (IH a1 o1 Ho1). lia. }
  destruct (h !! a) as [o|] eqn:Ho; [|done].
  exfalso. apply (Hnone (S (bound - rank a)) a o Ho). lia.
Qed.

(** X17. No node is leaked. In a state that make, copy, assignment
    and destruction lead to from the empty heap, once every handle
    outside the heap has been destroyed (or is null) the heap is empty:
    every node has been deleted. *)
Theorem no_handle_no_node h live :
  reachable h live ->
  (forall d, d ∈ live -> d = None) ->
  h = ∅.
Proof.
  intros Hr Hnull. apply counted_layered_empty; [|by eapply reachable_layered].
  pose proof (reachable_counted _ _ Hr) as Hc. clear Hr.
  induction live as [|d live IH]; [done|].
  rewrite (Hnull d) in Hc by by left.
  apply IH; [|by apply counted_None].
  intros d' Hd'. apply Hnull. by right.
Qed.

End HeapProperties.

(** ** Expression handles: evaluation in the states that arise, and
    the copy of a node *)

Section ReachableStates.
Context {ScenarioAPI EntityManager IntersectionManager : Type}.
Context {World PluginBase : Type}.
Context (update : PluginBase -> option IntersectionManager -> M World bool).
Implicit Types context : @Context ScenarioAPI EntityManager IntersectionManager.
Implicit Types (h : gmap address (@Object PluginBase)) (w : World).
Implicit Types (o : @Object PluginBase) (m : @Members PluginBase).
Implicit Types (d : handle) (live : list handle).

Lemma view_S_mono fuel h : forall d e,
  view fuel h d = Some e -> view (S fuel) h d = Some e.
Proof.
  induction fuel as [|fuel IH]; intros d e; [done|].
  rewrite (view_S (S fuel)), view_S. destruct d as [a|]; [|done].
  destruct (h !! a) as [o|]; [|done].
  destruct (members o) as [value|operands|operands|plugin]; try done.
  all: intros (operands' & Hm & [= <-])%bind_Some.
  all: apply bind_Some; exists operands'; split; [|done].
  all: apply mapM_Some; apply mapM_Some in Hm.
  all: eapply Forall2_impl; [exact Hm|]; cbn; eauto.
Qed.

Lemma view_le fuel fuel' h d e :
  (fuel <= fuel')%nat -> view fuel h d = Some e -> view fuel' h d = Some e.
Proof. induction 1; [done|]. intros He. apply view_S_mono. eauto. Qed.

Lemma view_layered h (rank : address -> nat) :
  (forall a o b,
     h !! a = Some o ->
     Some b ∈ operands_of (members o) ->
     is_Some (h !! b) /\ (rank b < rank a)%nat) ->
  forall fuel d,
    match d with
    | Some a => is_Some (h !! a) /\ (rank a + 2 <= fuel)%nat
    | None => (1 <= fuel)%nat
    end ->
    is_Some (view fuel h d).
Proof.
  intros Hrank. induction fuel as [|fuel IH]; intros d Hd.
  - destruct d as [a|]; lia.
  - rewrite view_S. destruct d as [a|]; [|done].
    destruct Hd as [[o Ho] Hfuel]. rewrite Ho.
    assert (forall operands,
              (forall x, x ∈ operands -> x ∈ operands_of (members o)) ->
              is_Some (mapM (view fuel h) operands)) as Hops.
    { intros operands Hsub. apply mapM_is_Some, Forall_forall.
      intros x Hx. cbn. apply IH. destruct x as [b|]; [|lia].
      destruct (Hrank a o b Ho (Hsub _ Hx)). split; [done | lia]. }
    destruct (members o) as [value|operands|operands|plugin];
      cbn [operands_of] in Hops; try done.
    + destruct (Hops operands (fun _ Hx => Hx)) as [operands' Hsome].
      eexists. apply bind_Some. exists operands'. by split; [exact Hsome|].
    + destruct (Hops operands (fun _ Hx => Hx)) as [operands' Hsome].
      eexists. apply bind_Some. exists operands'. by split; [exact Hsome|].
Qed.

(** X18. In every state that make, copy, assignment and destruction
    lead to from the empty heap, a handle that is alive stands for a
    finite expression tree (the operands lead to no cycle and to no
    deleted node), and evaluate on it runs to its end: with fuel from
    some bound on, it gives what the evaluation of that tree gives, and
    leaves the heap as it was but for the temporary of the result. *)
Theorem reachable_handles_evaluate context h live d w :
  reachable h live ->
  d ∈ live ->
  exists fuel e,
    forall fuel',
      (fuel <= fuel')%nat ->
      view fuel' h d = Some e
      /\ heap_evaluate update fuel' context d h w
         = Some (on_heap h (evaluate update context e w)).
Proof.
  intros Hr Hd. pose proof (reachable_counted _ _ Hr) as [Hclosed _].
  destruct (reachable_layered _ _ Hr) as [rank Hrank].
  destruct (view_layered h rank) with (fuel := (rank_of rank d + 2)%nat)
                                      (d := d) as [e He].
  - intros a o b Ho Hb. split; [|eauto].
    apply Hclosed, elem_of_app. right. apply elem_of_heap_handles. eauto.
  - destruct d as [a|]; [|lia]. split; [|cbn; lia].
    apply Hclosed, elem_of_app. by left.
  - exists (rank_of rank d + 2)%nat, e. intros fuel' Hle.
    pose proof (view_le _ _ _ _ _ Hle He) as He'. split; [done|].
    by apply heap_evaluate_view.
Qed.

Lemma Expression_copy_counted_heap h live d :
  counted h live ->
  d ∈ live ++ heap_handles h ->
  (forall a o, d = Some a -> h !! a = Some o -> count o + 1 < size_max) ->
  exists h',
    Expression_copy d h = Some (d, h')
    /\ counted h' (d :: live)
    /\ heap_handles h' ≡ₚ heap_handles h
    /\ (forall a, members <$> h' !! a = members <$> h !! a)
    /\ (forall a o',
          h' !! a = Some o' ->
          exists o, h !! a = Some o /\ count o' <= count o + 1).
Proof.
  intros Hc Hd Hmax. destruct d as [a|]; cbn.
  2:{ exists h. split; [done|]. split; [by apply counted_None|].
      split; [done|]. split; [done|]. intros a o' Ho'. exists o'.
      split; [done | lia]. }
  destruct Hc as [Hclosed Hcount]. destruct (Hclosed a Hd) as [o Ho].
  rewrite Ho. exists (<[a := increment o]> h). split; [done|].
  assert (heap_handles (<[a := increment o]> h) ≡ₚ heap_handles h) as Hhh
    by by apply (heap_handles_insert_same h a o).
  destruct (Hcount a o Ho) as [Hrefs Hbound].
  specialize (Hmax a o eq_refl Ho).
  split; [split|split; [done|split]].
  - intros b Hb. rewrite lookup_insert_is_Some.
    destruct (decide (a = b)) as [|Hne]; [by left | right].
    split; [done|]. apply Hclosed. rewrite Hhh in Hb. cbn in Hb.
    apply elem_of_cons in Hb as [[= <-]|Hb]; done.
  - intros b ob. cbn [app]. rewrite references_cons.
    rewrite (references_Permutation b _ _ (Permutation_app_head live Hhh)).
    destruct (decide (a = b)) as [<-|Hne].
    + rewrite lookup_insert_eq. intros [= <-]. rewrite decide_True by done.
      cbn [count increment]. rewrite Z.mod_small by lia. lia.
    + rewrite lookup_insert_ne by done. intros Hob.
      rewrite decide_False by congruence. by apply Hcount.
  - intros b. destruct (decide (a = b)) as [<-|Hne].
    + by rewrite lookup_insert_eq, Ho.
    + by rewrite lookup_insert_ne.
  - intros b ob'. destruct (decide (a = b)) as [<-|Hne].
    + rewrite lookup_insert_eq. intros [= <-]. exists o. split; [done|].
      cbn [count increment]. rewrite Z.mod_small by lia. lia.
    + rewrite lookup_insert_ne by done. intros Hob. exists ob'.
      split; [done | lia].
Qed.

Lemma copy_operands_counted operands : forall h live,
  counted h live ->
  (forall x, x ∈ operands -> x ∈ live ++ heap_handles h) ->
  (forall a o,
     h !! a = Some o -> count o + Z.of_nat (length operands) < size_max) ->
  exists h',
    copy_operands operands h = Some (operands, h')
    /\ counted h' (operands ++ live)
    /\ heap_handles h' ≡ₚ heap_handles h
    /\ (forall a, members <$> h' !! a = members <$> h !! a).
Proof.
  induction operands as [|x xs IH]; intros h live Hc Hin Hmax.
  - by exists h.
  - destruct (Expression_copy_counted_heap h live x Hc)
      as (h1 & Hcopy & Hc1 & Hhh1 & Hm1 & Hb1).
    { apply Hin. by left. }
    { intros a o _ Ho. specialize (Hmax a o Ho). cbn [length] in Hmax. lia. }
    destruct (IH h1 (x :: live) Hc1) as (h2 & Hcopies & Hc2 & Hhh2 & Hm2).
    { intros x' Hx'. rewrite Hhh1. cbn [app]. right. apply Hin. by right. }
    { intros a o1 Ho1. destruct (Hb1 a o1 Ho1) as (o & Ho & Hle).
      specialize (Hmax a o Ho). cbn [length] in Hmax. lia. }
    exists h2. cbn [copy_operands]. rewrite Hcopy, Hcopies.
    split; [done|]. split.
    + eapply counted_Permutation; [|exact Hc2].
      by rewrite <- Permutation_middle.
    + split; [by rewrite Hhh2|]. intros a. by rewrite Hm2.
Qed.

Lemma Members_copy_counted h live a o :
  counted h live ->
  h !! a = Some o ->
  (forall b ob,
     h !! b = Some ob ->
     count ob + Z.of_nat (length (operands_of (members o))) < size_max) ->
  exists h',
    Members_copy (members o) h = Some (members o, h')
    /\ counted h' (operands_of (members o) ++ live)
    /\ heap_handles h' ≡ₚ heap_handles h
    /\ (forall b, members <$> h' !! b = members <$> h !! b).
Proof.
  intros Hc Ho Hmax.
  destruct (copy_operands_counted (operands_of (members o)) h live Hc)
    as (h' & Hcopies & Hc' & Hhh & Hm); [|done|].
  { intros x Hx. apply elem_of_app. right. apply elem_of_heap_handles.
    by exists a, o. }
  destruct (members o) as [value|operands|operands|plugin];
    cbn [operands_of Members_copy] in *.
  - injection Hcopies as <-. by exists h.
  - exists h'. by rewrite Hcopies.
  - exists h'. by rewrite Hcopies.
  - injection Hcopies as <-. by exists h.
Qed.

Lemma view_insert_fresh h a' o' :
  h !! a' = None ->
  (forall b, Some b ∈ heap_handles h -> is_Some (h !! b)) ->
  forall fuel d,
    (forall b, d = Some b -> is_Some (h !! b)) ->
    view fuel (<[a' := o']> h) d = view fuel h d.
Proof.
  intros Hfresh Hclosed. induction fuel as [|fuel IH]; intros d Hd; [done|].
  rewrite !view_S. destruct d as [b|]; [|done].
  destruct (Hd b eq_refl) as [o Ho].
  assert (a' <> b) as Hne by congruence.
  rewrite lookup_insert_ne by done. rewrite Ho.
  assert (forall operands,
            (forall x, x ∈ operands -> x ∈ operands_of (members o)) ->
            mapM (view fuel (<[a' := o']> h)) operands
            = mapM (view fuel h) operands) as Hops.
  { intros operands Hsub. apply Forall_mapM_ext, Forall_forall.
    intros x Hx. apply IH. intros c ->.
    apply Hclosed, elem_of_heap_handles. exists b, o.
    split; [done | by apply Hsub]. }
  destruct (members o) as [value|operands|operands|plugin];
    cbn [operands_of] in Hops; try done;
    (f_equal; by apply Hops).
Qed.

(** X19. The copy constructors of the node classes are shallow.
    Expression::make of a copy of a node builds one new node with the
    members of the old one: a Literal with the same value, a Procedure
    with the same plugin, an All or Any whose operands are handles to
    the same nodes as the operands of the old one. No operand is
    copied; the count of each node goes up by the number of times it
    is an operand of the node copied, so that the counts are again the
    numbers of handles; and the new handle stands for the same tree as
    a handle to the old node. *)
Theorem copy_of_a_node_shares_its_operands h live a o :
  counted h live ->
  h !! a = Some o ->
  (forall b ob,
     h !! b = Some ob ->
     count ob + Z.of_nat (length (operands_of (members o))) < size_max) ->
  exists a' h',
    Expression_make_copy a h = Some (Some a', h')
    /\ h !! a' = None
    /\ h' !! a' = Some {| count := 1; members := members o |}
    /\ counted h' (Some a' :: live)
    /\ (forall b ob,
          h !! b = Some ob ->
          exists ob',
            h' !! b = Some ob'
            /\ members ob' = members ob
            /\ count ob'
               = count ob
                 + Z.of_nat (references b (operands_of (members o))))
    /\ forall fuel, view fuel h' (Some a') = view fuel h (Some a).
Proof.
  intros Hc Ho Hmax.
  destruct (Members_copy_counted h live a o Hc Ho Hmax)
    as (h1 & Hcopy & Hc1 & Hhh & Hm).
  destruct (Expression_make_counted h1 live (members o) Hc1)
    as (a' & h' & Hmake & Hfresh1 & -> & Hc').
  assert (h !! a' = None) as Hfresh.
  { specialize (Hm a'). rewrite Hfresh1 in Hm.
    by destruct (h !! a'). }
  exists a', (<[a' := {| count := 1; members := members o |}]> h1).
  split; [unfold Expression_make_copy; by rewrite Ho, Hcopy|].
  split; [done|]. split; [by rewrite lookup_insert_eq|]. split; [done|].
  split.
  - intros b ob Hb. specialize (Hm b). rewrite Hb in Hm.
    destruct (h1 !! b) as [ob1|] eqn:Hb1; [|done]. cbn in Hm.
    injection Hm as Hm. exists ob1.
    assert (a' <> b) as Hne by congruence.
    rewrite lookup_insert_ne by done. split; [done|]. split; [done|].
    destruct Hc as [_ Hcount], Hc1 as [_ Hcount1].
    destruct (Hcount b ob Hb) as [-> _].
    destruct (Hcount1 b ob1 Hb1) as [-> _].
    rewrite <- app_assoc, !references_app.
    rewrite (references_Permutation b _ _ Hhh). lia.
  - intros fuel.
    rewrite <- (view_members fuel h h1 Hm (Some a)).
    destruct fuel as [|fuel]; [done|]. rewrite !view_S.
    rewrite lookup_insert_eq. cbn [members].
    specialize (Hm a). rewrite Ho in Hm.
    destruct (h1 !! a) as [o1|] eqn:Ho1; [|done]. cbn in Hm.
    injection Hm as Hm. rewrite Hm.
    destruct Hc1 as [Hclosed1 _].
    assert (forall operands,
              (forall x, x ∈ operands -> x ∈ operands_of (members o)) ->
              mapM (view fuel
                      (<[a' := {| count := 1; members := members o |}]> h1))
                operands
              = mapM (view fuel h1) operands) as Hops.
    { intros operands Hsub. apply Forall_mapM_ext, Forall_forall.
      intros x Hx. apply view_insert_fresh; [done| |].
      - intros b Hb. apply Hclosed1, elem_of_app. by right.
      - intros b ->. apply Hclosed1, elem_of_app. left.
        apply elem_of_app. left. by apply Hsub. }
    destruct (members o) as [value|operands|operands|plugin];
      cbn [operands_of] in Hops; try done;
    (f_equal; by apply Hops).
Qed.

End ReachableStates.

(** ** scenario_expression: property() *)

Section PropertyProperties.
Context {API : Type}.
Context (plugin_property : address -> ConditionBase API -> ptree).
Implicit Types (h : gmap address (@Object address)).
Implicit Types (s : gmap address (ConditionBase API)).
Implicit Types (c : ConditionBase API) (d : handle) (t : ptree).

Lemma names_only_refl s : names_only s s.
Proof. intros p. destruct (s !! p); [by left | done]. Qed.

Lemma names_only_trans s1 s2 s3 :
  names_only s1 s2 -> names_only s2 s3 -> names_only s1 s3.
Proof.
  intros H12 H23 p. specialize (H12 p). specialize (H23 p).
  destruct (s1 !! p) as [c1|], (s2 !! p) as [c2|], (s3 !! p) as [c3|];
    try done.
  destruct H12 as [E12|(Hno1 & Hyes2 & E12)];
    destruct H23 as [E23|(Hno2 & Hyes3 & E23)].
  - left. congruence.
  - right. by rewrite <- E12.
  - right. by rewrite E23.
  - done.
Qed.

Lemma names_only_named s s' p c :
  names_only s s' ->
  s !! p = Some c ->
  name_ c <> "" ->
  s' !! p = Some c.
Proof.
  intros Hn Hp Hname. specialize (Hn p). rewrite Hp in Hn.
  destruct (s' !! p) as [c'|]; [|done].
  by destruct Hn as [->|[? _]].
Qed.

Lemma names_only_type s s' p c :
  names_only s s' ->
  s !! p = Some c ->
  exists c', s' !! p = Some c' /\ type_ c' = type_ c.
Proof.
  intros Hn Hp. specialize (Hn p). rewrite Hp in Hn.
  destruct (s' !! p) as [c'|]; [|done]. exists c'. split; [done|].
  by destruct Hn as [->|(_ & _ & ->)].
Qed.

Lemma names_only_data_type h s s' d type :
  names_only s s' ->
  data_type h s d = Some type ->
  data_type h s' d = Some type.
Proof.
  intros Hn. unfold data_type. destruct d as [a|]; [|done]. cbn.
  destruct (h !! a) as [o|]; [|done]. cbn.
  destruct (members o) as [value|operands|operands|plugin]; try done. cbn.
  destruct (s !! plugin) as [c|] eqn:Hc; [|done]. cbn. intros [= <-].
  destruct (names_only_type _ _ _ _ Hn Hc) as (c' & -> & Htype). cbn.
  unfold ConditionBase_getType. by rewrite Htype.
Qed.

Lemma append_not_empty (a b : string) : b <> "" -> a +:+ b <> "".
Proof. intros Hb. destruct a; [done|]. discriminate. Qed.

Lemma new_name_not_empty (prefix type number : string) :
  prefix +:+ type +:+ "(" +:+ number +:+ ")" <> "".
Proof. do 2 apply append_not_empty. discriminate. Qed.

Lemma Procedure_property_settles plugin prefix occurrence s t s' :
  Procedure_property plugin_property plugin prefix occurrence s
  = Some (t, s') ->
  names_only s s'
  /\ forall s'',
       names_only s' s'' ->
       forall prefix2 occurrence2,
         Procedure_property plugin_property plugin prefix2 occurrence2 s''
         = Some (t, s'').
Proof.
  unfold Procedure_property.
  destruct (s !! plugin) as [c|] eqn:Hc; [|done]. cbn.
  unfold ConditionBase_getName.
  destruct (decide (name_ c = "")) as [Hno|Hyes]; intros [= <- <-].
  - split.
    + intros p. destruct (decide (plugin = p)) as [<-|Hne].
      * rewrite Hc, lookup_insert_eq. right. split; [done|].
        split; [apply new_name_not_empty | done].
      * rewrite lookup_insert_ne by done.
        destruct (s !! p); [by left | done].
    + intros s'' Hn prefix2 occurrence2.
      rewrite (names_only_named _ s'' plugin _ Hn (lookup_insert_eq _ _ _));
        [|apply new_name_not_empty].
      cbn. rewrite decide_False; [done|]. apply new_name_not_empty.
  - split; [apply names_only_refl|].
    intros s'' Hn prefix2 occurrence2.
    rewrite (names_only_named _ s'' plugin c Hn Hc Hyes). cbn.
    by rewrite decide_False.
Qed.

Lemma property_operands_settles h
    (operand_property :
       string -> Z -> handle -> gmap address (ConditionBase API) ->
       option (ptree * gmap address (ConditionBase API))) :
  (forall prefix occurrence d s t s',
     operand_property prefix occurrence d s = Some (t, s') ->
     names_only s s'
     /\ forall s'',
          names_only s' s'' ->
          forall prefix2 occurrence2,
            operand_property prefix2 occurrence2 d s'' = Some (t, s'')) ->
  forall operands prefix occurrences result s t s',
    property_operands h operand_property prefix operands occurrences result s
    = Some (t, s') ->
    names_only s s'
    /\ forall s'',
         names_only s' s'' ->
         forall prefix2,
           property_operands h operand_property prefix2 operands occurrences
             result s''
           = Some (t, s'').
Proof.
  intros Hoperand.
  induction operands as [|each rest IH];
    intros prefix occurrences result s t s'; cbn [property_operands].
  - intros [= <- <-]. split; [apply names_only_refl | done].
  - destruct (data_type h s each) as [type|] eqn:Htype; [|done]. cbn.
    destruct (operand_property prefix (default 0 (occurrences !! type))
                each s) as [[property1 s1]|] eqn:Heach; [|done].
    cbn. intros Hrest.
    destruct (Hoperand _ _ _ _ _ _ Heach) as [Hn1 Hagain1].
    destruct (IH _ _ _ _ _ _ Hrest) as [Hn2 Hagain2].
    split; [by eapply names_only_trans|].
    intros s'' Hn prefix2.
    assert (names_only s1 s'') as Hn1'' by by eapply names_only_trans.
    assert (names_only s s'') as Hn'' by by eapply names_only_trans.
    rewrite (names_only_data_type h s s'' each type Hn'' Htype). cbn.
    rewrite (Hagain1 s'' Hn1''). cbn. by apply Hagain2.
Qed.

Lemma property_settles fuel h : forall prefix occurrence d s t s',
  property plugin_property fuel h prefix occurrence d s = Some (t, s') ->
  names_only s s'
  /\ forall s'',
       names_only s' s'' ->
       forall prefix2 occurrence2,
         property plugin_property fuel h prefix2 occurrence2 d s''
         = Some (t, s'').
Proof.
  induction fuel as [|fuel IH]; intros prefix occurrence d s t s'.
  all: destruct d as [a|]; cbn [property];
    [|intros [= <- <-]; split; [apply names_only_refl | done]].
  all: destruct (h !! a) as [o|]; [|done].
  all: destruct (members o) as [value|operands|operands|plugin]; try done.
  all: try (intros [= <- <-]; split; [apply names_only_refl | done]).
  all: try apply Procedure_property_settles.
  all: unfold N_ary_property.
  all: destruct operands as [|each rest];
    [intros [= <- <-]; split; [apply names_only_refl | done]|].
  all: intros Hloop;
    destruct (property_operands_settles h _ IH _ _ _ _ _ _ _ Hloop)
      as [Hn Hagain].
  all: split; [done|]; intros s'' Hn'' prefix2 occurrence2.
  all: by apply Hagain.
Qed.

(** X20. property() names a plugin once. A call of property changes
    the plugins only by giving a name to those that had none; once it
    has returned, another call on the same Expression, whatever prefix
    and occurrence it is given, renames nothing and returns the same
    tree: the names given at the first call stay. *)
Theorem property_names_once fuel h prefix occurrence d s t s' :
  property plugin_property fuel h prefix occurrence d s = Some (t, s') ->
  names_only s s'
  /\ forall prefix2 occurrence2,
       property plugin_property fuel h prefix2 occurrence2 d s'
       = Some (t, s').
Proof.
  intros Hp. destruct (property_settles fuel h _ _ _ _ _ _ Hp) as [Hn Hagain].
  split; [done|]. apply Hagain, names_only_refl.
Qed.

Lemma get_child_empty t : get_child "" t = Return t.
Proof. reflexivity. Qed.

Lemma push_property_keys property result :
  ptree_data result = "" ->
  Forall (fun entry => entry.1 = "") (ptree_children result) ->
  ptree_data (push_property property result) = ""
  /\ Forall (fun entry => entry.1 = "")
       (ptree_children (push_property property result)).
Proof.
  intros Hdata Hkeys. unfold push_property.
  destruct (get_child "Name" property) as [child|what].
  - destruct result as [data children]. cbn in *.
    split; [done|]. apply Forall_app. split; [done|]. by constructor.
  - rewrite get_child_empty. revert result Hdata Hkeys.
    induction (ptree_children property) as [|entry entries IH];
      intros result Hdata Hkeys; [done|].
    cbn [foldl]. apply IH; destruct result as [data children]; cbn in *;
      [done|].
    apply Forall_app. split; [done|]. by constructor.
Qed.

Lemma property_operands_keys h operand_property operands :
  forall prefix occurrences result s t s',
    ptree_data result = "" ->
    Forall (fun entry => entry.1 = "") (ptree_children result) ->
    property_operands (API := API) h operand_property prefix operands
      occurrences result s
    = Some (t, s') ->
    ptree_data t = ""
    /\ Forall (fun entry => entry.1 = "") (ptree_children t).
Proof.
  induction operands as [|each rest IH];
    intros prefix occurrences result s t s' Hdata Hkeys;
    cbn [property_operands].
  - by intros [= <- <-].
  - destruct (data_type h s each) as [type|]; [|done]. cbn.
    destruct (operand_property prefix (default 0 (occurrences !! type))
                each s) as [[property1 s1]|]; [|done].
    cbn. apply IH; by apply push_property_keys.
Qed.

Lemma find_child_no_key key children :
  Forall (fun entry : string * ptree => entry.1 = "") children ->
  key <> "" ->
  find_child key children = None.
Proof.
  intros Hkeys Hkey. induction Hkeys as [|[k child] rest Hk _ IH]; [done|].
  cbn in *. subst k. by rewrite decide_False by done.
Qed.

(** X21. The tree that property returns for an All or an Any node,
    for a Literal and for the empty Expression has no data and only
    children with the empty key: it never has a child Name. So where
    such a node is an operand of an All or Any, the loop of the
    enclosing node does not keep its tree as one child but pushes its
    children one by one: in the tree of properties the nesting of All
    and Any is not kept. *)
Theorem logical_property_is_spliced fuel h prefix occurrence d s t s' :
  (forall a o plugin, d = Some a -> h !! a = Some o ->
                      members o <> ProcedureM plugin) ->
  property plugin_property fuel h prefix occurrence d s = Some (t, s') ->
  ptree_data t = ""
  /\ Forall (fun entry => entry.1 = "") (ptree_children t)
  /\ (exists what, get_child "Name" t = Throw what)
  /\ forall result,
       push_property t result
       = foldl (fun result each => push_back ("", each.2) result)
           result (ptree_children t).
Proof.
  intros Hlogical Hp.
  assert (ptree_data t = ""
          /\ Forall (fun entry => entry.1 = "") (ptree_children t))
    as [Hdata Hkeys].
  { destruct d as [a|].
    2:{ destruct fuel; cbn in Hp; injection Hp as <- <-.
        all: split; [done|]; by repeat constructor. }
    assert (forall NAME operands fuel',
              N_ary_property h (property plugin_property fuel' h) NAME
                operands prefix occurrence s = Some (t, s') ->
              ptree_data t = ""
              /\ Forall (fun entry => entry.1 = "") (ptree_children t))
      as Hnary.
    { intros NAME operands fuel'. unfold N_ary_property.
      destruct operands as [|each rest].
      - intros [= <- <-]. split; [done|]. by repeat constructor.
      - by apply property_operands_keys. }
    destruct fuel as [|fuel]; cbn [property] in Hp.
    all: destruct (h !! a) as [o|] eqn:Ho; [|done].
    all: specialize (Hlogical a o).
    all: destruct (members o) as [value|operands|operands|plugin];
      try done.
    all: try (injection Hp as <- <-; split; [done|]; by repeat constructor).
    all: try by eapply Hnary.
    all: by destruct (Hlogical plugin eq_refl Ho). }
  assert (get_child "Name" t = Throw "No such node") as Hname.
  { unfold get_child. rewrite decide_False by done.
    by rewrite find_child_no_key. }
  split; [done|]. split; [done|]. split; [by eexists|].
  intros result. unfold push_property. by rewrite Hname, get_child_empty.
Qed.

Lemma names_only_data_type_eq h s s' d :
  names_only s s' -> data_type h s' d = data_type h s d.
Proof.
  intros Hn. unfold data_type. destruct d as [a|]; [|done]. cbn.
  destruct (h !! a) as [o|]; [|done]. cbn.
  destruct (members o) as [value|operands|operands|plugin]; try done. cbn.
  specialize (Hn plugin).
  destruct (s !! plugin) as [c|], (s' !! plugin) as [c'|]; try done. cbn.
  unfold ConditionBase_getType. by destruct Hn as [->|(_ & _ & ->)].
Qed.

Lemma occurrences_after_names_only h s s' operands occurrences :
  names_only s s' ->
  occurrences_after h s' operands occurrences
  = occurrences_after h s operands occurrences.
Proof.
  intros Hn. unfold occurrences_after. revert occurrences.
  induction operands as [|each rest IH]; intros occurrences; [done|].
  cbn [foldl]. by rewrite (names_only_data_type_eq h s s' each Hn), IH.
Qed.

Lemma occurrences_after_count h s type operands : forall occurrences,
  0 <= default 0 (occurrences !! type) < size_max ->
  default 0 (occurrences_after h s operands occurrences !! type)
  = (default 0 (occurrences !! type)
     + Z.of_nat
         (length (filter (fun x => data_type h s x = Some type) operands)))
    mod size_max.
Proof.
  unfold occurrences_after.
  induction operands as [|each rest IH]; intros occurrences Hbound.
  - cbn. rewrite Z.add_0_r. by rewrite Z.mod_small.
  - cbn [foldl]. rewrite filter_cons.
    assert (0 < size_max) as Hmax by done.
    destruct (data_type h s each) as [type'|] eqn:Htype.
    + destruct (decide (type' = type)) as [->|Hne].
      * rewrite decide_True by done. rewrite IH.
        -- rewrite lookup_insert_eq. cbn [default length]. unfold id.
           rewrite Zplus_mod_idemp_l. f_equal. lia.
        -- rewrite lookup_insert_eq. cbn. by apply Z.mod_pos_bound.
      * rewrite decide_False by congruence. rewrite IH.
        -- by rewrite lookup_insert_ne.
        -- by rewrite lookup_insert_ne.
    + rewrite decide_False by done. by apply IH.
Qed.

Lemma property_operands_app h
    (operand_property :
       string -> Z -> handle -> gmap address (ConditionBase API) ->
       option (ptree * gmap address (ConditionBase API))) :
  (forall prefix occurrence d s t s',
     operand_property prefix occurrence d s = Some (t, s') ->
     names_only s s') ->
  forall prefix before rest occurrences result s t s',
    property_operands h operand_property prefix (before ++ rest)
      occurrences result s
    = Some (t, s') ->
    exists t1 s1,
      property_operands h operand_property prefix before occurrences result s
      = Some (t1, s1)
      /\ names_only s s1
      /\ property_operands h operand_property prefix rest
           (occurrences_after h s before occurrences) t1 s1
         = Some (t, s').
Proof.
  intros Hoperand prefix.
  induction before as [|each before IH];
    intros rest occurrences result s t s'; cbn [app property_operands].
  - intros Hrest. exists result, s. split; [done|].
    split; [apply names_only_refl | done].
  - unfold occurrences_after. cbn [foldl].
    destruct (data_type h s each) as [type|] eqn:Htype; [|done]. cbn.
    destruct (operand_property prefix (default 0 (occurrences !! type))
                each s) as [[property1 sa]|] eqn:Heach; [|done].
    cbn. intros Hloop.
    pose proof (Hoperand _ _ _ _ _ _ Heach) as Hna.
    destruct (IH _ _ _ _ _ _ Hloop) as (t1 & s1 & Hbefore & Hn1 & Hrest).
    exists t1, s1. split; [done|].
    split; [by eapply names_only_trans|].
    by rewrite (occurrences_after_names_only h s sa) in Hrest.
Qed.

(** X22. The occurrence that an operand of an All or Any node is
    given is the number of the operands before it that have its type,
    and the prefix is that of the node followed by NAME(occurrence)/.
    So a plugin without name that is the operand itself gets the name
    prefix NAME(occurrence)/Type(k), where k counts the operands of
    type Type before it, and keeps it to the end of the call. *)
Theorem occurrence_counts_operands_of_the_type
    fuel h prefix occurrence a o NAME before each after type s t s' :
  h !! a = Some o ->
  members o = AllM (before ++ each :: after) /\ NAME = "All"
  \/ members o = AnyM (before ++ each :: after) /\ NAME = "Any" ->
  property plugin_property (S fuel) h prefix occurrence (Some a) s
  = Some (t, s') ->
  data_type h s each = Some type ->
  Z.of_nat (length before) < size_max ->
  exists t1 s1 t2 s2,
    property_operands h (property plugin_property fuel h)
      (prefix +:+ NAME +:+ "(" +:+ to_string occurrence +:+ ")/")
      before ∅ ptree_default s
    = Some (t1, s1)
    /\ property plugin_property fuel h
         (prefix +:+ NAME +:+ "(" +:+ to_string occurrence +:+ ")/")
         (Z.of_nat
            (length
               (filter (fun x => data_type h s x = Some type) before)))
         each s1
       = Some (t2, s2)
    /\ names_only s2 s'
    /\ forall b ob plugin c,
         each = Some b ->
         h !! b = Some ob ->
         members ob = ProcedureM plugin ->
         s1 !! plugin = Some c ->
         name_ c = "" ->
         exists c',
           s' !! plugin = Some c'
           /\ name_ c'
              = (prefix +:+ NAME +:+ "(" +:+ to_string occurrence +:+ ")/")
                +:+ type +:+ "("
                +:+ to_string
                      (Z.of_nat
                         (length
                            (filter
                               (fun x => data_type h s x = Some type)
                               before)))
                +:+ ")".
Proof.
  intros Ho Hm Hp Htype Hlen.
  set (prefix' := prefix +:+ NAME +:+ "(" +:+ to_string occurrence +:+ ")/").
  set (k := Z.of_nat
              (length (filter (fun x => data_type h s x = Some type) before))).
  assert (property_operands h (property plugin_property fuel h) prefix'
            (before ++ each :: after) ∅ ptree_default s
          = Some (t, s')) as Hloop.
  { cbn [property] in Hp. rewrite Ho in Hp. unfold N_ary_property in Hp.
    destruct Hm as [[Hm ->]|[Hm ->]]; rewrite Hm in Hp;
      by destruct before. }
  clear Hp.
  assert (forall prefix0 occurrence0 d0 s0 t0 s0',
            property plugin_property fuel h prefix0 occurrence0 d0 s0
            = Some (t0, s0') ->
            names_only s0 s0') as Hnames.
  { intros ? ? ? ? ? ? Hcall.
    by destruct (property_settles fuel h _ _ _ _ _ _ Hcall). }
  destruct (property_operands_app h _ Hnames _ _ _ _ _ _ _ _ Hloop)
    as (t1 & s1 & Hbefore & Hn1 & Hrest).
  cbn [property_operands] in Hrest.
  rewrite (names_only_data_type h s s1 each type Hn1 Htype) in Hrest.
  cbn in Hrest.
  assert (default 0 (occurrences_after h s before ∅ !! type) = k) as Hk.
  { rewrite occurrences_after_count by (rewrite lookup_empty; done).
    rewrite lookup_empty. cbn [default]. rewrite Z.add_0_l.
    apply Z.mod_small. unfold k.
    pose proof (length_filter
                  (fun x => data_type h s x = Some type) before).
    lia. }
  rewrite Hk in Hrest.
  destruct (property plugin_property fuel h prefix' k each s1)
    as [[t2 s2]|] eqn:Heach; [|done].
  cbn in Hrest.
  destruct (property_operands_settles h _ (property_settles fuel h)
              _ _ _ _ _ _ _ Hrest) as [Hn2 _].
  exists t1, s1, t2, s2. split; [done|]. split; [done|]. split; [done|].
  intros b ob plugin c -> Hb Hmb Hc Hname.
  assert (type_ c = type) as Hty.
  { unfold data_type in Htype. cbn in Htype. rewrite Hb in Htype.
    cbn in Htype. rewrite Hmb in Htype. cbn in Htype.
    destruct (s !! plugin) as [c0|] eqn:Hc0; [|done]. cbn in Htype.
    injection Htype as <-.
    destruct (names_only_type _ _ _ _ Hn1 Hc0) as (c1 & Hc1 & Heq).
    rewrite Hc in Hc1. by injection Hc1 as <-. }
  assert (Procedure_property plugin_property plugin prefix' k s1
          = Some (t2, s2)) as Hcall.
  { destruct fuel; cbn [property] in Heach; by rewrite Hb, Hmb in Heach. }
  unfold Procedure_property in Hcall. rewrite Hc in Hcall. cbn in Hcall.
  rewrite decide_True in Hcall by done. injection Hcall as _ <-.
  eexists. split.
  - apply (names_only_named _ s' plugin _ Hn2 (lookup_insert_eq _ _ _)).
    apply new_name_not_empty.
  - cbn. unfold ConditionBase_getType. by rewrite Hty.
Qed.

(** X23. A condition built by ConditionBase(type, occurrence) has the
    type given and no name, whatever the occurrence. rename gives it
    the new name and changes nothing else, and the last rename wins.
    The first property call on a Procedure node of such a plugin names
    it prefix Type(occurrence) with the prefix and the occurrence of
    that call; the type of the node, which is the type of the plugin,
    is not changed by it. *)
Theorem ConditionBase_is_named_by_property
    type occurrence0 plugin prefix occurrence s c :
  c = ConditionBase_ctor (API := API) type occurrence0 ->
  s !! plugin = Some c ->
  ConditionBase_getType c = type
  /\ ConditionBase_getName c = ""
  /\ ConditionBase_getResult c = false
  /\ (forall name name2,
        ConditionBase_getName (ConditionBase_rename name c).2 = name
        /\ (ConditionBase_rename name c).1 = name
        /\ ConditionBase_getType (ConditionBase_rename name c).2 = type
        /\ ConditionBase_getResult (ConditionBase_rename name c).2 = false
        /\ (ConditionBase_rename name2 (ConditionBase_rename name c).2).2
           = (ConditionBase_rename name2 c).2)
  /\ exists t s',
       Procedure_property plugin_property plugin prefix occurrence s
       = Some (t, s')
       /\ s' = <[plugin :=
                  (ConditionBase_rename
                     (prefix +:+ type +:+ "(" +:+ to_string occurrence
                      +:+ ")") c).2]> s
       /\ Members_type s' (ProcedureM plugin) = Some type
       /\ Members_type s (ProcedureM plugin) = Some type.
Proof.
  intros -> Hc. split; [done|]. split; [done|]. split; [done|].
  split; [by intros|]. eexists _, _. split.
  { unfold Procedure_property. rewrite Hc. reflexivity. }
  split; [reflexivity|]. split.
  - cbn. by rewrite lookup_insert_eq.
  - cbn. by rewrite Hc.
Qed.

Lemma property_operands_null h operand_property operands :
  None ∈ operands ->
  forall prefix occurrences result s,
    property_operands (API := API) h operand_property prefix operands
      occurrences result s
    = None.
Proof.
  induction operands as [|each rest IH]; intros Hin prefix occurrences result s.
  - by apply elem_of_nil in Hin.
  - cbn [property_operands].
    destruct (data_type h s each) as [type|] eqn:Htype; [|done]. cbn.
    destruct (operand_property prefix (default 0 (occurrences !! type))
                each s) as [[property1 s1]|]; [|done].
    cbn. apply IH. apply elem_of_cons in Hin as [<-|Hin]; [done | done].
Qed.

(** X25. property() of an All or Any node reads the type of every
    operand through its [data] pointer, without a test: when an operand
    is the empty Expression (which evaluate accepts, and counts as
    false) the call goes through a null pointer and has no defined
    result, whatever the other operands are. *)
Theorem property_of_an_empty_operand
    fuel h prefix occurrence a o operands s :
  h !! a = Some o ->
  members o = AllM operands \/ members o = AnyM operands ->
  None ∈ operands ->
  property plugin_property fuel h prefix occurrence (Some a) s = None.
Proof.
  intros Ho Hm Hin. destruct fuel as [|fuel]; cbn [property]; rewrite Ho.
  all: destruct Hm as [-> | ->]; try done.
  all: unfold N_ary_property; destruct operands as [|each rest];
    [by apply elem_of_nil in Hin|].
  all: by apply property_operands_null.
Qed.

Lemma names_only_present s s' p :
  names_only s s' -> is_Some (s !! p) -> is_Some (s' !! p).
Proof.
  intros Hn [c Hc]. specialize (Hn p). rewrite Hc in Hn.
  by destruct (s' !! p).
Qed.

Lemma property_operands_defined h
    (operand_property :
       string -> Z -> handle -> gmap address (ConditionBase API) ->
       option (ptree * gmap address (ConditionBase API)))
    (good : gmap address (ConditionBase API) -> Prop) operands :
  (forall s s', good s -> names_only s s' -> good s') ->
  (forall each s,
     each ∈ operands -> good s -> is_Some (data_type h s each)) ->
  (forall each prefix occurrence s,
     each ∈ operands ->
     good s ->
     exists t s',
       operand_property prefix occurrence each s = Some (t, s')
       /\ names_only s s') ->
  forall prefix occurrences result s,
    good s ->
    is_Some
      (property_operands h operand_property prefix operands occurrences
         result s).
Proof.
  intros Hgood. induction operands as [|each rest IH];
    intros Htype Hoperand prefix occurrences result s Hs;
    cbn [property_operands]; [done|].
  destruct (Htype each s) as [type ->]; [by left | done|]. cbn.
  destruct (Hoperand each prefix (default 0 (occurrences !! type)) s)
    as (t & s1 & -> & Hn); [by left | done|].
  cbn. apply IH; [| |by eapply Hgood].
  - intros each' s0 Hin. apply Htype. by right.
  - intros each' prefix' occurrence' s0 Hin. apply Hoperand. by right.
Qed.

(** X26. When property() returns. If the operands lead to no cycle,
    no operand of a node is the empty Expression or points to a deleted
    node, and every Procedure node has its plugin, then property on a
    handle (empty or to a node) returns a tree, for every prefix and
    occurrence, given fuel for the depth of the node. *)
Theorem property_is_defined
    h s (rank : address -> nat) fuel d prefix occurrence :
  (forall a o x,
     h !! a = Some o ->
     x ∈ operands_of (members o) ->
     exists b, x = Some b /\ is_Some (h !! b) /\ (rank b < rank a)%nat) ->
  (forall a o plugin,
     h !! a = Some o -> members o = ProcedureM plugin ->
     is_Some (s !! plugin)) ->
  (forall a, d = Some a -> is_Some (h !! a) /\ (rank a < fuel)%nat) ->
  exists t s', property plugin_property fuel h prefix occurrence d s
               = Some (t, s').
Proof.
  intros Hrank Hplugins Hd.
  set (good := fun s0 : gmap address (ConditionBase API) =>
                 forall a o plugin,
                   h !! a = Some o -> members o = ProcedureM plugin ->
                   is_Some (s0 !! plugin)).
  assert (forall s0 s1, good s0 -> names_only s0 s1 -> good s1) as Hgood.
  { intros s0 s1 Hs0 Hn a o plugin Ho Hm.
    eapply names_only_present; [exact Hn|]. by eapply Hs0. }
  assert (forall fuel0 d0 prefix0 occurrence0 s0,
            good s0 ->
            (forall a, d0 = Some a ->
                       is_Some (h !! a) /\ (rank a < fuel0)%nat) ->
            exists t s',
              property plugin_property fuel0 h prefix0 occurrence0 d0 s0
              = Some (t, s')
              /\ names_only s0 s') as Hall.
  { clear d Hd s Hplugins fuel prefix occurrence.
    induction fuel0 as [|fuel IH]; intros d prefix occurrence s Hs Hd.
    { destruct d as [a|]; [destruct (Hd a eq_refl); lia|].
      eexists _, _. split; [reflexivity | apply names_only_refl]. }
    assert (forall call : option (ptree * gmap address (ConditionBase API)),
              is_Some call ->
              (forall t s', call = Some (t, s') -> names_only s s') ->
              exists t s', call = Some (t, s') /\ names_only s s') as Hsome.
    { intros call [[t s'] ->] Hn. exists t, s'. split; [done|].
      by apply (Hn t s'). }
    destruct d as [a|];
      [|eexists _, _; split; [reflexivity | apply names_only_refl]].
    destruct (Hd a eq_refl) as [[o Ho] Hfuel]. apply Hsome.
    2:{ intros t s' Hcall.
        by destruct (property_settles (S fuel) h _ _ _ _ _ _ Hcall). }
    cbn [property]. rewrite Ho.
    assert (forall NAME operands,
              (forall x, x ∈ operands -> x ∈ operands_of (members o)) ->
              is_Some
                (N_ary_property h (property plugin_property fuel h) NAME
                   operands prefix occurrence s)) as Hnary.
    { intros NAME operands Hsub. unfold N_ary_property.
      destruct operands as [|each rest]; [done|].
      apply (property_operands_defined h _ good); [done| | |done].
      - intros x s0 Hx Hs0.
        destruct (Hrank a o x Ho (Hsub _ Hx)) as (b & -> & [ob Hb] & _).
        unfold data_type. cbn. rewrite Hb. cbn.
        destruct (members ob) as [value|ops|ops|plugin] eqn:Hm; try done.
        cbn. by destruct (Hs0 b ob plugin Hb Hm) as [c ->].
      - intros x prefix0 occurrence0 s0 Hx Hs0. apply IH; [done|].
        intros b ->.
        destruct (Hrank a o (Some b) Ho (Hsub _ Hx))
          as (b' & [= <-] & Hb & Hlt).
        split; [done | lia]. }
    destruct (members o) as [value|operands|operands|plugin] eqn:Hm;
      cbn [operands_of] in Hnary; try done.
    - by apply Hnary.
    - by apply Hnary.
    - unfold Procedure_property.
      destruct (Hs a o plugin Ho Hm) as [c ->]. cbn.
      by destruct (decide (ConditionBase_getName c = "")). }
  destruct (Hall fuel d prefix occurrence s Hplugins Hd) as (t & s' & Hp & _).
  by exists t, s'.
Qed.

End PropertyProperties.

(** ** On the concrete instances *)

Lemma evaluate_value_again_witness :
  exists r2,
    evaluate ex_update ex_context (make_Boolean true) [7%nat]
    = (Return r2, [7%nat])
    /\ r2 = None
    /\ Expression_bool r2 = false.
Proof.
  destruct (evaluate_value_again ex_update ex_context (Some (All [])) []
              (make_Boolean true) [] eq_refl) as [_ Hagain].
  exact (Hagain ex_context [7%nat]).
Defined.

Example Boolean_operand_of_All :
  evaluate ex_update ex_context (Some (All [make_Boolean true])) []
  = (Return (make_Boolean false), []).
Proof. reflexivity. Qed.

Lemma literal_operand_counts_as_false_witness :
  evaluate ex_update ex_context
    (Some (Any ([Some (Procedure (Constant 1 true))]
                ++ make_Boolean true :: []))) []
  = evaluate ex_update ex_context
      (Some (Any ([Some (Procedure (Constant 1 true))] ++ []))) [].
Proof.
  apply (literal_operand_counts_as_false ex_update ex_context
           [Some (Procedure (Constant 1 true))] (make_Boolean true) [] []).
  right. by exists true.
Defined.

Example updates_depth_first :
  plugins_of
    (Some (All [Some (Any [Some (Procedure (Constant 1 true));
                           Some (Procedure (Constant 2 false))]);
                Some (Procedure (Constant 3 true))]))
  = [Constant 1 true; Constant 2 false; Constant 3 true]
  /\ evaluate ex_update ex_context
       (Some (All [Some (Any [Some (Procedure (Constant 1 true));
                              Some (Procedure (Constant 2 false))]);
                   Some (Procedure (Constant 3 true))])) []
     = (Return (make_Boolean true), [1; 2; 3]%nat).
Proof. split; reflexivity. Qed.

Lemma heap_evaluate_releases_temporaries_witness :
  exists outcome h' w',
    heap_evaluate ex_update 2 ex_context (Some 3%positive) ex_heap_All []
    = Some (outcome, h', w')
    /\ match outcome with
       | Return r =>
           Expression_dtor (size h') r h' = Some ex_heap_All
           /\ (r = None /\ h' = ex_heap_All
               \/ exists value,
                    ex_heap_All !! fresh (dom ex_heap_All) = None
                    /\ r = Some (fresh (dom ex_heap_All))
                    /\ h' = <[fresh (dom ex_heap_All) :=
                                {| count := 1; members := LiteralM value |}]>
                              ex_heap_All)
       | Throw what => h' = ex_heap_All
       end.
Proof.
  apply (heap_evaluate_releases_temporaries ex_update ex_context 2%nat
           (Some 3%positive)
           (Some (All [Some (Procedure (Constant 1 false));
                       Some (Procedure (Constant 2 true))]))).
  by vm_compute.
Defined.

Lemma make_All_Any_without_operands_witness :
  make_All ex_make_Predicate ex_context (Map [("Type", Scalar "Speed")]) []
  = (Return (Some (All [])), [])
  /\ exists what,
       make_All ex_make_Predicate ex_context Undefined [] = (Throw what, []).
Proof.
  destruct (make_All_Any_without_operands ex_update ex_make_Predicate
              ex_context (Map [("Type", Scalar "Speed")]) [])
    as (Hmap & _ & _ & _ & what & _ & Hall & _); [by left|].
  split; [exact Hmap | by exists what].
Defined.

Lemma load_first_match_witness :
  load ex_loader "TimeoutCondition"
  = createSharedInstance ex_loader "TimeoutCondition".
Proof.
  apply (load_first_match ex_loader ["SpeedCondition"] "TimeoutCondition" []).
  - reflexivity.
  - by intros d ->%list_elem_of_singleton.
  - reflexivity.
Defined.

Lemma Predicate_ignores_the_answer_of_configure_witness :
  make_Predicate ex_loader ex_read_essential ex_configure_false ex_context
    (Map [("Type", Scalar "Speed")]) []
  = (Return (Some (Procedure (Constant 0 true))), []).
Proof.
  destruct (Predicate_ignores_the_answer_of_configure
              ex_loader ex_read_essential ex_configure_false ex_context
              (Map [("Type", Scalar "Speed")]) "Speed" [] eq_refl)
    as [Hbuilt _].
  by apply (Hbuilt (Constant 0 true) [] false []).
Defined.

Lemma Transition_ctor_keeps_no_Blank_arrow_witness :
  exists values,
    Forall2
      (fun e value =>
         exists s,
           as_string e = Return s /\ convert (T := ExArrow) s = Return value)
      [Scalar "Left"; Scalar "Blank"; Scalar "Left"] values
    /\ [GoLeft; GoLeft] = filter (fun value => value <> Blank) values.
Proof.
  assert (Transition_ctor ex_decode_int (Scalar "1") (Scalar "Red")
            (Sequence [Scalar "Left"; Scalar "Blank"; Scalar "Left"])
          = Return {| target_ := 1; color_ := Red;
                      arrows_ := [GoLeft; GoLeft] |}) as Ht
    by reflexivity.
  destruct (Transition_ctor_keeps_no_Blank_arrow ex_decode_int _ _ _ _ Ht)
    as (_ & _ & _ & _ & Hsequence).
  exact (Hsequence _ eq_refl).
Defined.

Lemma Transition_without_color_and_arrows_witness :
  exists t : @Transition ExColor ExArrow,
    Transition_ctor ex_decode_int (Scalar "2") Undefined Null = Return t
    /\ t = {| target_ := 2; color_ := Blank; arrows_ := [] |}
    /\ Transition_call (Recorder ex_accept_all) t []
       = if ex_accept_all [] (ResetColor 2)
         then (0 <=? 2, [] ++ [ResetColor 2; ResetArrow 2])
         else (false, [] ++ [ResetColor 2]).
Proof.
  apply (Transition_without_color_and_arrows
           (Color := ExColor) (Arrow := ExArrow) ex_decode_int ex_accept_all
           (Scalar "2") Null 2 []).
  - reflexivity.
  - by right.
Defined.

Lemma Controller_without_TrafficLight_witness :
  ex_Controller_ctor (Map [("Control", Null)]) []
  = (Return {| transitions_ := [] |},
     [] ++ [(ERROR,
             "Each element of node 'Control' requires hash 'TrafficLight'.")])
  /\ Controller_call (Recorder ex_accept_all)
       ({| transitions_ := [] |} : @Controller ExColor ExArrow) []
     = (true, []).
Proof.
  apply (Controller_without_TrafficLight
           (Color := ExColor) (Arrow := ExArrow) ex_decode_int
           (Recorder ex_accept_all) (Map [("Control", Null)]) [] []).
  reflexivity.
Defined.

Lemma Controller_ctor_one_Transition_each_witness :
  length
    (transitions_
       ({| transitions_ :=
             [{| target_ := 1; color_ := Green; arrows_ := [Straight] |};
              {| target_ := 1; color_ := Green; arrows_ := [Straight] |}] |}
        : @Controller ExColor ExArrow))
  = length [ex_singular; ex_plural]
  /\ [deprecation_warning]
     = [] ++ map (fun _ => deprecation_warning)
               (filter (fun each => uses_deprecated_Arrow each)
                  [ex_singular; ex_plural]).
Proof.
  apply (Controller_ctor_one_Transition_each
           (Color := ExColor) (Arrow := ExArrow) ex_decode_int
           (Map [("TrafficLight", Sequence [ex_singular; ex_plural])])
           [ex_singular; ex_plural] []); reflexivity.
Defined.

Lemma deprecated_Arrow_hides_Arrows_witness :
  emplace_traffic_light (Color := ExColor) (Arrow := ExArrow)
    ex_decode_int [] ex_both_keys []
  = emplace_traffic_light ex_decode_int [] ex_singular [].
Proof.
  apply (deprecated_Arrow_hides_Arrows
           (Color := ExColor) (Arrow := ExArrow) ex_decode_int
           ex_both_keys ex_singular (Scalar "Straight") [] []);
    reflexivity.
Defined.

Lemma self_assignment_changes_nothing_witness :
  Expression_assign 1 (Some 1%positive) (Some 1%positive) ex_heap
  = Some (Some 1%positive, ex_heap).
Proof.
  apply (self_assignment_changes_nothing 1%nat ex_heap [Some 1%positive]).
  - exact ex_heap_counted.
  - by left.
Defined.

Lemma no_handle_no_node_witness :
  exists h',
    Expression_dtor 1 (Some 1%positive) ex_heap = Some h' /\ h' = ∅.
Proof.
  exists ∅. split; [by vm_compute|].
  apply (no_handle_no_node (PluginBase := ExPlugin) ∅ []).
  - apply (reach_dtor ex_heap [] (Some 1%positive) 1%nat).
    + exact ex_heap_reachable.
    + vm_compute. lia.
    + by vm_compute.
  - intros d Hd. by apply elem_of_nil in Hd.
Defined.

Lemma reachable_handles_evaluate_witness :
  exists fuel e,
    forall fuel',
      (fuel <= fuel')%nat ->
      view fuel' ex_heap (Some 1%positive) = Some e
      /\ heap_evaluate ex_update fuel' ex_context (Some 1%positive) ex_heap []
         = Some (on_heap ex_heap (evaluate ex_update ex_context e [])).
Proof.
  apply (reachable_handles_evaluate ex_update ex_context ex_heap
           [Some 1%positive]).
  - exact ex_heap_reachable.
  - by left.
Defined.

Lemma ex_heap_All_reachable : reachable ex_heap_All [Some 3%positive].
Proof.
  apply (reach_make
           (<[2%positive :=
                {| count := 1; members := ProcedureM (Constant 2 true) |}]>
              (<[1%positive :=
                   {| count := 1;
                      members := ProcedureM (Constant 1 false) |}]> ∅))
           [] (AllM [Some 1%positive; Some 2%positive]));
    [|by vm_compute].
  apply (reach_permute _ [Some 2%positive; Some 1%positive]);
    [|apply perm_swap].
  apply (reach_make
           (<[1%positive :=
                {| count := 1; members := ProcedureM (Constant 1 false) |}]> ∅)
           [Some 1%positive] (ProcedureM (Constant 2 true)));
    [|by vm_compute].
  apply (reach_make ∅ [] (ProcedureM (Constant 1 false)));
    [apply reach_empty | by vm_compute].
Qed.

Lemma copy_of_a_node_shares_its_operands_witness :
  exists a' h',
    Expression_make_copy 3%positive ex_heap_All = Some (Some a', h')
    /\ ex_heap_All !! a' = None
    /\ h' !! a'
       = Some {| count := 1;
                 members := AllM [Some 1%positive; Some 2%positive] |}
    /\ counted h' [Some a'; Some 3%positive].
Proof.
  destruct (copy_of_a_node_shares_its_operands ex_heap_All [Some 3%positive]
              3%positive
              {| count := 1;
                 members := AllM [Some 1%positive; Some 2%positive] |})
    as (a' & h' & Hcopy & Hfresh & Hnew & Hcounted & _).
  - exact (reachable_counted _ _ ex_heap_All_reachable).
  - reflexivity.
  - intros b ob Hb. unfold ex_heap_All in Hb.
    repeat (apply lookup_insert_Some in Hb as [[_ <-]|[_ Hb]]; [done|]).
    by rewrite lookup_empty in Hb.
  - by exists a', h'.
Defined.

Lemma property_names_once_witness :
  exists t s',
    property ex_plugin_property 1 ex_nodes "" 0 (Some 3%positive) ex_plugins
    = Some (t, s')
    /\ property ex_plugin_property 1 ex_nodes "Other/" 7 (Some 3%positive) s'
       = Some (t, s').
Proof.
  eexists _, _. split; [by vm_compute|].
  apply (property_names_once ex_plugin_property 1%nat ex_nodes "" 0
           (Some 3%positive) ex_plugins).
  by vm_compute.
Defined.

Example property_of_All :
  fst <$> property ex_plugin_property 1 ex_nodes "" 0 (Some 3%positive)
            ex_plugins
  = Some
      (PTree ""
         [("", PTree "" [("Name", PTree "All(0)/Speed(0)" [])]);
          ("", PTree "" [("Name", PTree "All(0)/Speed(1)" [])])]).
Proof. by vm_compute. Qed.

Lemma logical_property_is_spliced_witness :
  exists t s',
    property ex_plugin_property 1 ex_nodes "" 0 (Some 3%positive) ex_plugins
    = Some (t, s')
    /\ exists what, get_child "Name" t = Throw what.
Proof.
  eexists _, _. split; [by vm_compute|].
  eapply (logical_property_is_spliced ex_plugin_property 1%nat ex_nodes "" 0
            (Some 3%positive) ex_plugins).
  - intros a o plugin [= <-] Ho. vm_compute in Ho. by injection Ho as <-.
  - by vm_compute.
Defined.

Lemma occurrence_counts_operands_of_the_type_witness :
  exists t s' c',
    property ex_plugin_property 1 ex_nodes "" 0 (Some 3%positive) ex_plugins
    = Some (t, s')
    /\ s' !! 2%positive = Some c'
    /\ name_ c' = "All(0)/Speed(1)".
Proof.
  assert (exists t s',
            property ex_plugin_property 1 ex_nodes "" 0 (Some 3%positive)
              ex_plugins
            = Some (t, s')) as (t & s' & Hp)
    by (eexists _, _; by vm_compute).
  destruct (occurrence_counts_operands_of_the_type ex_plugin_property
              0%nat ex_nodes "" 0 3%positive
              {| count := 1;
                 members := AllM ([Some 1%positive]
                                  ++ Some 2%positive :: []) |}
              "All" [Some 1%positive] (Some 2%positive) [] "Speed"
              ex_plugins t s')
    as (t1 & s1 & t2 & s2 & Hbefore & _ & _ & Hname).
  - reflexivity.
  - by left.
  - exact Hp.
  - reflexivity.
  - done.
  - vm_compute in Hbefore. injection Hbefore as _ <-.
    destruct (Hname 2%positive
                {| count := 1; members := ProcedureM 2%positive |}
                2%positive (ConditionBase_ctor "Speed" 0))
      as (c' & Hc' & Hn); try reflexivity.
    by exists t, s', c'.
Defined.

Lemma ConditionBase_is_named_by_property_witness :
  exists t s',
    Procedure_property ex_plugin_property 1%positive "All(0)/" 3 ex_plugins
    = Some (t, s')
    /\ s' = <[1%positive :=
               (ConditionBase_rename
                  ("All(0)/" +:+ "Speed" +:+ "(" +:+ to_string 3 +:+ ")")
                  (ConditionBase_ctor "Speed" 5)).2]> ex_plugins
    /\ Members_type s' (ProcedureM 1%positive) = Some "Speed"
    /\ Members_type ex_plugins (ProcedureM 1%positive) = Some "Speed".
Proof.
  destruct (ConditionBase_is_named_by_property ex_plugin_property
              "Speed" 5 1%positive "All(0)/" 3 ex_plugins
              (ConditionBase_ctor "Speed" 5) eq_refl)
    as (_ & _ & _ & _ & Hnamed).
  - reflexivity.
  - exact Hnamed.
Defined.

Lemma traffic_light_without_Id_ends_construction_witness :
  ex_Controller_ctor
    (Map [("TrafficLight",
           Sequence ([ex_plural]
                     ++ Map [("Color", Scalar "Red");
                             ("Arrow", Scalar "Left")]
                        :: [ex_singular]))]) []
  = (Throw "bad conversion",
     [] ++ (if IsDefined
                 (find_key "Arrow"
                    [("Color", Scalar "Red"); ("Arrow", Scalar "Left")])
            then [deprecation_warning] else [])).
Proof.
  apply (traffic_light_without_Id_ends_construction
           (Color := ExColor) (Arrow := ExArrow) ex_decode_int
           (Map [("TrafficLight",
                  Sequence ([ex_plural]
                            ++ Map [("Color", Scalar "Red");
                                    ("Arrow", Scalar "Left")]
                               :: [ex_singular]))])
           [ex_plural] [("Color", Scalar "Red"); ("Arrow", Scalar "Left")]
           [ex_singular] []
           [{| target_ := 1; color_ := Green; arrows_ := [Straight] |}] []);
    reflexivity.
Defined.

Lemma property_of_an_empty_operand_witness :
  property ex_plugin_property 1
    (<[4%positive :=
         {| count := 1; members := AnyM [Some 1%positive; None] |}]> ex_nodes)
    "" 0 (Some 4%positive) ex_plugins
  = None.
Proof.
  apply (property_of_an_empty_operand ex_plugin_property 1%nat _ "" 0
           4%positive
           {| count := 1; members := AnyM [Some 1%positive; None] |}
           [Some 1%positive; None]).
  - reflexivity.
  - by right.
  - right. by left.
Defined.

Lemma property_is_defined_witness :
  exists t s',
    property ex_plugin_property 2 ex_nodes "Success/" 0 (Some 3%positive)
      ex_plugins
    = Some (t, s').
Proof.
  apply (property_is_defined ex_plugin_property ex_nodes ex_plugins
           (fun a => if decide (a = 3%positive) then 1%nat else 0%nat)).
  - intros a o x Ha Hx. unfold ex_nodes in Ha.
    apply lookup_insert_Some in Ha as [[<- <-]|[_ Ha]].
    { cbn in Hx. apply elem_of_cons in Hx as [->|Hx].
      - exists 1%positive. split; [done|]. split; [by eexists; vm_compute | vm_compute; lia].
      - apply list_elem_of_singleton in Hx as ->.
        exists 2%positive. split; [done|]. split; [by eexists; vm_compute | vm_compute; lia]. }
    apply lookup_insert_Some in Ha as [[_ <-]|[_ Ha]];
      [by apply elem_of_nil in Hx|].
    apply lookup_insert_Some in Ha as [[_ <-]|[_ Ha]];
      [by apply elem_of_nil in Hx|].
    by rewrite lookup_empty in Ha.
  - intros a o plugin Ha Hm. unfold ex_nodes in Ha.
    apply lookup_insert_Some in Ha as [[_ <-]|[_ Ha]]; [done|].
    apply lookup_insert_Some in Ha as [[_ <-]|[_ Ha]];
      [injection Hm as <-; by eexists; vm_compute|].
    apply lookup_insert_Some in Ha as [[_ <-]|[_ Ha]];
      [injection Hm as <-; by eexists; vm_compute|].
    by rewrite lookup_empty in Ha.
  - intros a [= <-]. split; [by eexists; vm_compute | vm_compute; lia].
Defined.
